(** * Crowd models of fin-demo: a shallow embedding

    The TypeScript sources embedded here are [src/math/Vector2.ts], the
    [RVOModel] class and the [CAModel] class (with their base class
    [SimulationModel]).

    The program computes on JavaScript numbers.  Every definition below is
    written once, over an interface [Number] of the arithmetic the code uses,
    and the interface is instantiated twice:

    - [float_Number]: IEEE 754 binary64, the arithmetic the program runs on;
      closed terms evaluate, so concrete runs of the code can be replayed;
    - [R_Number]: the real numbers, the idealisation in which the
      geometric statements are proved.

    A read of a property of [undefined] (an array read out of range followed
    by a field access) raises a [TypeError] in JavaScript; it is modelled by
    [None] in the [option] monad, and the functions are then proved to
    never produce it.

    [Math.random()] is a stream of draws: a function from the number of the
    call to the value drawn, with the number of the next call threaded
    through the code that draws. *)

From Stdlib Require Import String DecimalString.
From Stdlib Require Import Reals Lra Lia Psatz.
From Stdlib Require Import List ZArith Bool Arith.
From Stdlib Require FloatClass PrimFloat Uint63.
From Stdlib Require Import Sorted Permutation.
Import ListNotations.

Set Implicit Arguments.

(* ------------------------------------------------------------------ *)
(** ** The arithmetic interface *)

Declare Scope num_scope.
Delimit Scope num_scope with num.

Class Number (T : Type) : Type := {
  nofZ  : Z -> T;                 (* an integer literal *)
  nadd  : T -> T -> T;
  nsub  : T -> T -> T;
  nmul  : T -> T -> T;
  ndiv  : T -> T -> T;
  nopp  : T -> T;                 (* unary minus *)
  nsqrt : T -> T;                 (* Math.sqrt *)
  nabs  : T -> T;                 (* Math.abs *)
  nmin  : T -> T -> T;            (* Math.min *)
  nmax  : T -> T -> T;            (* Math.max *)
  nltb  : T -> T -> bool;         (* a < b *)
  nleb  : T -> T -> bool;         (* a <= b *)
  neqb  : T -> T -> bool          (* a === b, on numbers *)
}.

Infix "+" := nadd : num_scope.
Infix "-" := nsub : num_scope.
Infix "*" := nmul : num_scope.
Infix "/" := ndiv : num_scope.
Notation "- a" := (nopp a) : num_scope.
Infix "<?" := nltb : num_scope.
Infix "<=?" := nleb : num_scope.
Infix "=?" := neqb : num_scope.
Notation "a >? b" := (nltb b a) (only parsing) : num_scope.
Notation "a >=? b" := (nleb b a) (only parsing) : num_scope.

(** A decimal literal [n/d]: [dec 5 100] is the literal [0.05].  Division is
    correctly rounded in binary64, so on floats this is the double nearest to
    the decimal, which is what the JavaScript literal denotes. *)
Definition dec {T} `{Number T} (n : Z) (d : Z) : T := (nofZ n / nofZ d)%num.

(** [Math.hypot(a, b)], as the square root of the sum of the squares (in
    binary64, each operation rounded; an engine may round the last digit
    of [Math.hypot] differently). *)
Definition hypot {T} `{Number T} (a b : T) : T := nsqrt (a * a + b * b)%num.

(* ------------------------------------------------------------------ *)
(** ** Instance: binary64 *)

Module FloatNum.

Definition ofZ (z : Z) : PrimFloat.float :=
  match z with
  | Z0 => PrimFloat.zero
  | Zpos _ => PrimFloat.of_uint63 (Uint63.of_Z z)
  | Zneg p => PrimFloat.opp (PrimFloat.of_uint63 (Uint63.of_Z (Zpos p)))
  end.

Definition is_neg_zero (a : PrimFloat.float) : bool :=
  match PrimFloat.classify a with FloatClass.NZero => true | _ => false end.

Definition is_pos_zero (a : PrimFloat.float) : bool :=
  match PrimFloat.classify a with FloatClass.PZero => true | _ => false end.

(** Math.min and Math.max: NaN when an argument is NaN, and -0 below +0. *)
Definition min (a b : PrimFloat.float) : PrimFloat.float :=
  if PrimFloat.is_nan a || PrimFloat.is_nan b then PrimFloat.nan
  else if PrimFloat.ltb a b then a
  else if PrimFloat.ltb b a then b
  else if is_pos_zero a then b else a.

Definition max (a b : PrimFloat.float) : PrimFloat.float :=
  if PrimFloat.is_nan a || PrimFloat.is_nan b then PrimFloat.nan
  else if PrimFloat.ltb a b then b
  else if PrimFloat.ltb b a then a
  else if is_neg_zero a then b else a.

End FloatNum.

#[export] Instance float_Number : Number PrimFloat.float := {
  nofZ := FloatNum.ofZ;
  nadd := PrimFloat.add;
  nsub := PrimFloat.sub;
  nmul := PrimFloat.mul;
  ndiv := PrimFloat.div;
  nopp := PrimFloat.opp;
  nsqrt := PrimFloat.sqrt;
  nabs := PrimFloat.abs;
  nmin := FloatNum.min;
  nmax := FloatNum.max;
  nltb := PrimFloat.ltb;
  nleb := PrimFloat.leb;
  neqb := PrimFloat.eqb
}.

(* ------------------------------------------------------------------ *)
(** ** Instance: the real numbers *)

Module RealNum.

Definition ltb (a b : R) : bool := if Rlt_dec a b then true else false.
Definition leb (a b : R) : bool := if Rle_dec a b then true else false.
Definition eqb (a b : R) : bool := if Req_dec_T a b then true else false.

End RealNum.

#[export] Instance R_Number : Number R := {
  nofZ := IZR;
  nadd := Rplus;
  nsub := Rminus;
  nmul := Rmult;
  ndiv := Rdiv;
  nopp := Ropp;
  nsqrt := sqrt;
  nabs := Rabs;
  nmin := Rmin;
  nmax := Rmax;
  nltb := RealNum.ltb;
  nleb := RealNum.leb;
  neqb := RealNum.eqb
}.

(** The trigonometry used when the scenario is seeded. *)
Class Trig (T : Type) : Type := {
  ncos : T -> T;                  (* Math.cos *)
  nsin : T -> T;                  (* Math.sin *)
  npi  : T                        (* Math.PI *)
}.

#[export] Instance R_Trig : Trig R := {
  ncos := cos;
  nsin := sin;
  npi := PI
}.

(* ------------------------------------------------------------------ *)
(** ** The error monad: [None] is a raised TypeError *)

Definition bind {A B} (m : option A) (k : A -> option B) : option B :=
  match m with
  | Some a => k a
  | None => None
  end.

Notation "x <- m ;; k" := (bind m (fun x => k))
  (at level 61, m at next level, right associativity).
Notation "' p <- m ;; k" := (bind m (fun p => k))
  (at level 61, p pattern, m at next level, right associativity).

(** A [for] loop over the elements [xs], threading a state, in the monad. *)
Fixpoint forM {A S} (xs : list A) (s : S) (body : S -> A -> option S)
  : option S :=
  match xs with
  | [] => Some s
  | x :: xs' => s' <- body s x ;; forM xs' s' body
  end.

(** The array with its element [i] replaced by [v].  The code replaces an
    element only after it has read it, so [i] is in range wherever [setNth]
    is used; an array without an element [i] is returned as it is. *)
Fixpoint setNth {A} (i : nat) (v : A) (l : list A) : list A :=
  match l, i with
  | [], _ => []
  | _ :: l', O => v :: l'
  | a :: l', S i' => a :: setNth i' v l'
  end.

(* ------------------------------------------------------------------ *)
(** ** Vector2 (src/math/Vector2.ts) *)

Record Vector2 (T : Type) : Type := mkVector2 { x : T; y : T }.
Arguments mkVector2 {T} _ _.
Arguments x {T} _.
Arguments y {T} _.

Module Vector2.
Section Vector2.
Context {T : Type} `{Number T}.
Local Open Scope num_scope.

Definition zero : Vector2 T := mkVector2 (nofZ 0) (nofZ 0).

Definition add (this vector : Vector2 T) : Vector2 T :=
  mkVector2 (x this + x vector) (y this + y vector).

Definition sub (this vector : Vector2 T) : Vector2 T :=
  mkVector2 (x this - x vector) (y this - y vector).

Definition mult (this : Vector2 T) (scalar : T) : Vector2 T :=
  mkVector2 (x this * scalar) (y this * scalar).

Definition mag (this : Vector2 T) : T := hypot (x this) (y this).

Definition normalize (this : Vector2 T) : Vector2 T :=
  let magnitude := mag this in
  if magnitude =? nofZ 0 then zero
  else mult this (nofZ 1 / magnitude).

Definition dist (this vector : Vector2 T) : T := mag (sub this vector).

Definition dot (this vector : Vector2 T) : T :=
  x this * x vector + y this * y vector.

Definition limit (this : Vector2 T) (max : T) : Vector2 T :=
  let magnitude := mag this in
  if magnitude <=? max then this
  else mult (normalize this) max.

End Vector2.
End Vector2.

(* ------------------------------------------------------------------ *)
(** ** The data model of RVOModel *)

Record OrcaLine (T : Type) : Type := mkOrcaLine {
  point : Vector2 T;
  direction : Vector2 T
}.
Arguments mkOrcaLine {T} _ _.
Arguments point {T} _.
Arguments direction {T} _.

Record NeighborRef (T : Type) : Type := mkNeighborRef {
  index : nat;
  distSq : T
}.
Arguments mkNeighborRef {T} _ _.
Arguments index {T} _.
Arguments distSq {T} _.

(** The type [0 | 1] of [headingIndex]. *)
Inductive HeadingIndex : Type := H0 | H1.

Record RVOAgent (T : Type) : Type := mkRVOAgent {
  id : String.string;
  position : Vector2 T;
  velocity : Vector2 T;
  preferredVelocity : Vector2 T;
  radius : T;
  preferredSpeed : T;
  maxSpeed : T;
  anchors : Vector2 T * Vector2 T;
  headingIndex : HeadingIndex;
  color : String.string
}.
Arguments mkRVOAgent {T} _ _ _ _ _ _ _ _ _ _.
Arguments id {T} _.
Arguments position {T} _.
Arguments velocity {T} _.
Arguments preferredVelocity {T} _.
Arguments radius {T} _.
Arguments preferredSpeed {T} _.
Arguments maxSpeed {T} _.
Arguments anchors {T} _.
Arguments headingIndex {T} _.
Arguments color {T} _.

(** Field assignments [agent.f = v]. *)
Definition set_position {T} (a : RVOAgent T) (v : Vector2 T) : RVOAgent T :=
  mkRVOAgent (id a) v (velocity a) (preferredVelocity a) (radius a)
    (preferredSpeed a) (maxSpeed a) (anchors a) (headingIndex a) (color a).

Definition set_velocity {T} (a : RVOAgent T) (v : Vector2 T) : RVOAgent T :=
  mkRVOAgent (id a) (position a) v (preferredVelocity a) (radius a)
    (preferredSpeed a) (maxSpeed a) (anchors a) (headingIndex a) (color a).

Definition set_preferredVelocity {T} (a : RVOAgent T) (v : Vector2 T)
  : RVOAgent T :=
  mkRVOAgent (id a) (position a) (velocity a) v (radius a)
    (preferredSpeed a) (maxSpeed a) (anchors a) (headingIndex a) (color a).

Definition set_headingIndex {T} (a : RVOAgent T) (h : HeadingIndex)
  : RVOAgent T :=
  mkRVOAgent (id a) (position a) (velocity a) (preferredVelocity a) (radius a)
    (preferredSpeed a) (maxSpeed a) (anchors a) h (color a).

(** [SimulationParameterValues = Record<string, number>]: the entries of the
    object, the most recently written first. *)
Definition SimulationParameterValues (T : Type) : Type := list (String.string * T).

Fixpoint getParam {T} (params : SimulationParameterValues T) (key : String.string)
  : option T :=
  match params with
  | [] => None
  | (k, v) :: params' =>
      if String.eqb k key then Some v else getParam params' key
  end.

(** [a ?? b] on a number that may be [undefined]. *)
Definition orElse {T} (a : option T) (b : T) : T :=
  match a with
  | Some v => v
  | None => b
  end.

(** The fields of a [SimulationModel] together with those of [RVOModel]. *)
Record RVOModel (T : Type) : Type := mkRVOModel {
  width : T;
  height : T;
  params : SimulationParameterValues T;
  agents : list (RVOAgent T)
}.
Arguments mkRVOModel {T} _ _ _ _.
Arguments width {T} _.
Arguments height {T} _.
Arguments params {T} _.
Arguments agents {T} _.

Record Solved1 (T : Type) : Type := mkSolved1 {
  success : bool;
  result1 : Vector2 T
}.
Arguments mkSolved1 {T} _ _.
Arguments success {T} _.
Arguments result1 {T} _.

Record Solved2 (T : Type) : Type := mkSolved2 {
  lineFail : nat;
  result2 : Vector2 T
}.
Arguments mkSolved2 {T} _ _.
Arguments lineFail {T} _.
Arguments result2 {T} _.

(** The outcome of the interval-clipping loop of [linearProgram1]: either the
    loop left the function early with [success: false], or it ran to its end
    with the interval [tLeft, tRight]. *)
Inductive Clip (T : Type) : Type :=
| Infeasible : Clip T
| Interval : T -> T -> Clip T.
Arguments Infeasible {T}.
Arguments Interval {T} _ _.

(** [lines.slice(a, b)] for [a <= b <= lines.length], and the elements
    [lines[a], ..., lines[b-1]] a loop [for (j = a; j < b; j += 1)] reads. *)
Definition slice {A} (a b : nat) (l : list A) : list A :=
  firstn (b - a) (skipn a l).

(** A stable sort by a JavaScript comparator: [cmp a b] is the truth of
    [comparator(a, b) < 0], "a goes before b".  Elements the comparator does
    not order keep their relative order, as Array.prototype.sort guarantees. *)
Fixpoint sortInsert {A} (before : A -> A -> bool) (a : A) (l : list A)
  : list A :=
  match l with
  | [] => [a]
  | b :: l' =>
      if before b a then b :: sortInsert before a l' else a :: b :: l'
  end.

Fixpoint sortBy {A} (before : A -> A -> bool) (l : list A) : list A :=
  match l with
  | [] => []
  | a :: l' => sortInsert before a (sortBy before l')
  end.

(* ------------------------------------------------------------------ *)
(** ** RVOModel: the functions *)

Section RVO.
Context {T : Type} `{Number T}.
Local Open Scope num_scope.

Local Abbreviation Vec := (Vector2 T).
Local Abbreviation Line := (OrcaLine T).
Local Abbreviation Agent := (RVOAgent T).

(** [DEFAULTS] *)
Definition DEFAULTS_neighborRadius : T := nofZ 4.
Definition DEFAULTS_timeHorizon : T := dec 25 10.
Definition DEFAULTS_agentCount : nat := 32.

Definition EPSILON : T := dec 1 100000.

Definition absSq (v : Vec) : T := x v * x v + y v * y v.
Definition det (a b : Vec) : T := x a * y b - y a * x b.
Definition perp (v : Vec) : Vec := mkVector2 (- y v) (x v).
Definition ensureDirection (dir : Vec) : Vec :=
  if absSq dir <=? EPSILON then mkVector2 (nofZ 1) (nofZ 0)
  else Vector2.normalize dir.

(** The readonly fields of the class. *)
Definition pixelsPerMeter : T := nofZ 55.
Definition maxNeighbors : nat := 10.
Definition agentRadiusMeters : T := dec 28 100.

Definition anchorAt (a : Agent) (h : HeadingIndex) : Vec :=
  match h with
  | H0 => fst (anchors a)
  | H1 => snd (anchors a)
  end.

Definition computePreferredVelocity (agent : Agent) : Vec :=
  let target := anchorAt agent (headingIndex agent) in
  let toGoal := Vector2.sub target (position agent) in
  let distance := Vector2.mag toGoal in
  if distance <? nofZ 1 then Vector2.zero
  else
    Vector2.limit
      (Vector2.mult (Vector2.mult toGoal (nofZ 1 / distance))
         (preferredSpeed agent))
      (maxSpeed agent).

Definition swapGoalIfNeeded (agent : Agent) : Agent :=
  let target := anchorAt agent (headingIndex agent) in
  if Vector2.dist (position agent) target
     <? nmax (radius agent * dec 8 10) (nofZ 6)
  then
    set_headingIndex agent
      (match headingIndex agent with H0 => H1 | H1 => H0 end)
  else agent.

(** [list.push(neighbor); list.sort(...); if (list.length > maxNeighbors)
    list.pop()], returning the array [list] (here [lst]) after its
    in-place update. *)
Definition insertNeighbor (lst : list (NeighborRef T))
    (neighbor : NeighborRef T) : list (NeighborRef T) :=
  let pushed := lst ++ [neighbor] in
  let sorted :=
    sortBy (fun a b => distSq a - distSq b <? nofZ 0) pushed in
  if (maxNeighbors <? length sorted)%nat then removelast sorted
  else sorted.

(** [this.insertNeighbor(table[i], ...)]: the array [table[i]] is updated in
    place; a missing [table[i]] would raise at [list.push]. *)
Definition insertInto (table : list (list (NeighborRef T))) (i : nat)
    (neighbor : NeighborRef T) : option (list (list (NeighborRef T))) :=
  lst <- nth_error table i ;;
  Some (setNth i (insertNeighbor lst neighbor) table).

(** The body of the inner loop of [buildNeighborTable], at the pair
    [(i, j)]. *)
Definition neighborPair (agents : list Agent) (radiusSq : T) (i : nat)
    (table : list (list (NeighborRef T))) (j : nat)
  : option (list (list (NeighborRef T))) :=
  ai <- nth_error agents i ;;
  aj <- nth_error agents j ;;
  let distSq := absSq (Vector2.sub (position ai) (position aj)) in
  if distSq >? radiusSq then Some table
  else
    table <- insertInto table i (mkNeighborRef j distSq) ;;
    insertInto table j (mkNeighborRef i distSq).

Definition buildNeighborTable (agents : list Agent) (radiusSq : T)
  : option (list (list (NeighborRef T))) :=
  let n := length agents in
  let table := repeat [] n in
  forM (seq 0 n) table (fun table i =>
    forM (seq (i + 1) (n - (i + 1))) table
      (neighborPair agents radiusSq i)).

(** The part of [appendAgentConstraint] before its [lines.push]: the values
    of its variables [direction] and [u] when the branches are through. *)
Definition constraintVectors (agent other : Agent) (invTimeHorizon dt : T)
  : Vec * Vec :=
  let relativePosition := Vector2.sub (position other) (position agent) in
  let relativeVelocity := Vector2.sub (velocity agent) (velocity other) in
  let distSq := absSq relativePosition in
  let combinedRadius := radius agent + radius other in
  let combinedRadiusSq := combinedRadius * combinedRadius in
  if distSq >? combinedRadiusSq then
    let w :=
      Vector2.sub relativeVelocity
        (Vector2.mult relativePosition invTimeHorizon) in
    let wLengthSq := absSq w in
    let dotProduct := Vector2.dot w relativePosition in
    if (dotProduct <? nofZ 0)
       && (dotProduct * dotProduct >? combinedRadiusSq * wLengthSq)
    then
      let wLength := nsqrt wLengthSq in
      let unitW :=
        if wLength >? EPSILON then Vector2.mult w (nofZ 1 / wLength)
        else Vector2.normalize relativePosition in
      (perp unitW,
       Vector2.mult unitW (combinedRadius * invTimeHorizon - wLength))
    else
      let leg := nsqrt (nmax (nofZ 0) (distSq - combinedRadiusSq)) in
      let dir :=
        if det relativePosition w >? nofZ 0 then
          Vector2.mult
            (mkVector2
               (x relativePosition * leg
                - y relativePosition * combinedRadius)
               (x relativePosition * combinedRadius
                + y relativePosition * leg))
            (nofZ 1 / distSq)
        else
          Vector2.mult
            (mkVector2
               ((- x relativePosition) * leg
                - y relativePosition * combinedRadius)
               (x relativePosition * combinedRadius
                - y relativePosition * leg))
            (nofZ 1 / distSq) in
      let dir := Vector2.normalize dir in
      (dir,
       Vector2.sub
         (Vector2.mult dir (Vector2.dot relativeVelocity dir))
         relativeVelocity)
  else
    let invTimeStep := if dt >? nofZ 0 then nofZ 1 / dt else nofZ 0 in
    let w :=
      Vector2.sub relativeVelocity
        (Vector2.mult relativePosition invTimeStep) in
    let wLength := hypot (x w) (y w) in
    let unitW :=
      if wLength >? EPSILON then Vector2.mult w (nofZ 1 / wLength)
      else Vector2.normalize relativePosition in
    (perp unitW,
     Vector2.mult unitW (combinedRadius * invTimeStep - wLength)).

Definition appendAgentConstraint (agent other : Agent) (lines : list Line)
    (invTimeHorizon dt : T) : list Line :=
  let '(dir, u) := constraintVectors agent other invTimeHorizon dt in
  lines ++
    [ mkOrcaLine
        (Vector2.add (velocity agent) (Vector2.mult u (dec 5 10)))
        (ensureDirection dir) ].

(** The loop [for (i = 0; i < lineNo; i += 1)] of [linearProgram1], over
    the lines [lines[0], ..., lines[lineNo-1]] it reads. *)
Fixpoint lp1Clip (line : Line) (previous : list Line) (tLeft tRight : T)
  : Clip T :=
  match previous with
  | [] => Interval tLeft tRight
  | li :: previous' =>
      let denominator := det (direction line) (direction li) in
      let numerator :=
        det (direction li) (Vector2.sub (point line) (point li)) in
      if nabs denominator <=? EPSILON then
        if numerator <? nofZ 0 then Infeasible
        else lp1Clip line previous' tLeft tRight
      else
        let t := numerator / denominator in
        let '(tLeft, tRight) :=
          if denominator >=? nofZ 0 then (tLeft, nmin tRight t)
          else (nmax tLeft t, tRight) in
        if tLeft >? tRight then Infeasible
        else lp1Clip line previous' tLeft tRight
  end.

Definition linearProgram1 (lines : list Line) (lineNo : nat) (radius : T)
    (optVelocity : Vec) (directionOpt : bool) (result : Vec)
  : option (Solved1 T) :=
  line <- nth_error lines lineNo ;;
  let dotProduct := Vector2.dot (point line) (direction line) in
  let discriminant :=
    dotProduct * dotProduct + radius * radius - absSq (point line) in
  if discriminant <? nofZ 0 then Some (mkSolved1 false result)
  else
    let sqrtDisc := nsqrt discriminant in
    let tLeft := (- dotProduct) - sqrtDisc in
    let tRight := (- dotProduct) + sqrtDisc in
    match lp1Clip line (firstn lineNo lines) tLeft tRight with
    | Infeasible => Some (mkSolved1 false result)
    | Interval tLeft tRight =>
        let result :=
          if directionOpt then
            if Vector2.dot optVelocity (direction line) >? nofZ 0 then
              Vector2.add (point line)
                (Vector2.mult (direction line) tRight)
            else
              Vector2.add (point line)
                (Vector2.mult (direction line) tLeft)
          else
            let t :=
              Vector2.dot (direction line)
                (Vector2.sub optVelocity (point line)) in
            if t <? tLeft then
              Vector2.add (point line)
                (Vector2.mult (direction line) tLeft)
            else if t >? tRight then
              Vector2.add (point line)
                (Vector2.mult (direction line) tRight)
            else
              Vector2.add (point line) (Vector2.mult (direction line) t)
        in
        Some (mkSolved1 true result)
    end.

(** The loop of [linearProgram2]: [rest] holds [lines[i], lines[i+1], ...]. *)
Fixpoint lp2Loop (lines : list Line) (radius : T) (optVelocity : Vec)
    (directionOpt : bool) (rest : list Line) (i : nat) (result : Vec)
  : option (Solved2 T) :=
  match rest with
  | [] => Some (mkSolved2 (length lines) result)
  | li :: rest' =>
      if det (direction li) (Vector2.sub (point li) result) >? nofZ 0 then
        let tempResult := result in
        solved <-
          linearProgram1 lines i radius optVelocity directionOpt result ;;
        let result := result1 solved in
        if negb (success solved) then Some (mkSolved2 i tempResult)
        else lp2Loop lines radius optVelocity directionOpt rest' (S i) result
      else lp2Loop lines radius optVelocity directionOpt rest' (S i) result
  end.

Definition linearProgram2 (lines : list Line) (radius : T)
    (optVelocity : Vec) (directionOpt : bool) : option (Solved2 T) :=
  let result :=
    if directionOpt then Vector2.mult optVelocity radius
    else if absSq optVelocity >? radius * radius then
      Vector2.mult (Vector2.normalize optVelocity) radius
    else optVelocity in
  lp2Loop lines radius optVelocity directionOpt lines 0 result.

(** The inner loop [for (j = numObstLines; j < i; j += 1)] of
    [linearProgram3], over the lines [other = lines[j]] it reads; a
    [continue] leaves [projLines] as it is. *)
Fixpoint lp3Project (line : Line) (others : list Line)
    (projLines : list Line) : list Line :=
  match others with
  | [] => projLines
  | other :: others' =>
      let determinant := det (direction line) (direction other) in
      if nabs determinant <=? EPSILON then
        if Vector2.dot (direction line) (direction other) >? nofZ 0 then
          lp3Project line others' projLines
        else
          let point :=
            Vector2.mult (Vector2.add (point line) (point other))
              (dec 5 10) in
          let dir :=
            Vector2.normalize
              (Vector2.sub (direction other) (direction line)) in
          lp3Project line others' (projLines ++ [mkOrcaLine point dir])
      else
        let point :=
          Vector2.add (point line)
            (Vector2.mult (direction line)
               (det (direction other)
                  (Vector2.sub (point line) (point other))
                / determinant)) in
        let dir :=
          Vector2.normalize
            (Vector2.sub (direction other) (direction line)) in
        lp3Project line others' (projLines ++ [mkOrcaLine point dir])
  end.

(** The outer loop of [linearProgram3]: [rest] holds
    [lines[i], lines[i+1], ...]. *)
Fixpoint lp3Loop (lines : list Line) (numObstLines : nat) (radius : T)
    (rest : list Line) (i : nat) (result : Vec) (distance : T)
  : option Vec :=
  match rest with
  | [] => Some result
  | line :: rest' =>
      let detValue :=
        det (direction line) (Vector2.sub (point line) result) in
      if detValue >? distance then
        let projLines :=
          lp3Project line (slice numObstLines i lines)
            (slice 0 numObstLines lines) in
        let tempResult := result in
        lp2 <-
          linearProgram2 projLines radius (perp (direction line)) true ;;
        let result :=
          if (lineFail lp2 <? length projLines)%nat then tempResult
          else result2 lp2 in
        let distance :=
          det (direction line) (Vector2.sub (point line) result) in
        lp3Loop lines numObstLines radius rest' (S i) result distance
      else lp3Loop lines numObstLines radius rest' (S i) result distance
  end.

Definition linearProgram3 (lines : list Line) (numObstLines beginLine : nat)
    (radius : T) (initialResult : Vec) : option Vec :=
  lp3Loop lines numObstLines radius (skipn beginLine lines) beginLine
    initialResult (nofZ 0).

(** The loop [for (n = 0; n < neighbors.length; n += 1)] of [update]:
    [other] is read from the shared array [this.agents]. *)
Definition collectLines (agents : list Agent) (agent : Agent)
    (neighbors : list (NeighborRef T)) (invTimeHorizon dt : T)
  : option (list Line) :=
  forM neighbors [] (fun lines n =>
    other <- nth_error agents (index n) ;;
    Some (appendAgentConstraint agent other lines invTimeHorizon dt)).

(** The two returns at the end of the [map] callback of [update]. *)
Definition solveVelocity (lines : list Line) (agent : Agent)
    (preferred : Vec) : option Vec :=
  solved <- linearProgram2 lines (maxSpeed agent) preferred false ;;
  if (lineFail solved <? length lines)%nat then
    adjusted <-
      linearProgram3 lines 0 (lineFail solved) (maxSpeed agent)
        (result2 solved) ;;
    Some (Vector2.limit adjusted (maxSpeed agent))
  else Some (Vector2.limit (result2 solved) (maxSpeed agent)).

(** One call of the callback of [this.agents.map(...)] in [update].  The
    state is the shared array [this.agents], whose element [index] the
    callback mutates ([agent.preferredVelocity = preferred]), and the array
    [newVelocities] built so far. *)
Definition velocityCallback (neighborTable : list (list (NeighborRef T)))
    (invTimeHorizon dt : T) (st : list Agent * list Vec) (index : nat)
  : option (list Agent * list Vec) :=
  let '(agents, newVelocities) := st in
  agent <- nth_error agents index ;;
  let preferred := computePreferredVelocity agent in
  let agent := set_preferredVelocity agent preferred in
  let agents := setNth index agent agents in
  neighbors <- nth_error neighborTable index ;;
  lines <- collectLines agents agent neighbors invTimeHorizon dt ;;
  v <- solveVelocity lines agent preferred ;;
  Some (agents, newVelocities ++ [v]).

(** The second [forEach] of [update]: [velocity = newVelocities[index]]. *)
Fixpoint applyVelocities (dt : T) (agents : list Agent)
    (newVelocities : list Vec) : option (list Agent) :=
  match agents with
  | [] => Some []
  | agent :: agents' =>
      match newVelocities with
      | [] => None
      | velocity :: newVelocities' =>
          let agent := set_velocity agent velocity in
          let agent :=
            set_position agent
              (Vector2.add (position agent) (Vector2.mult velocity dt)) in
          rest <- applyVelocities dt agents' newVelocities' ;;
          Some (agent :: rest)
      end
  end.

Definition update (deltaTime : T) (this : RVOModel T)
  : option (RVOModel T) :=
  if (deltaTime <=? nofZ 0) || (length (agents this) =? 0)%nat then
    Some this
  else
    let dt := nmin deltaTime (dec 5 100) in
    let prefNeighborRadius :=
      orElse (getParam (params this) "neighborRadius"%string)
        DEFAULTS_neighborRadius
      * pixelsPerMeter in
    let neighborRadiusSq := prefNeighborRadius * prefNeighborRadius in
    let timeHorizon :=
      nmax (orElse (getParam (params this) "timeHorizon"%string)
              DEFAULTS_timeHorizon)
        (dec 2 10) in
    let invTimeHorizon := nofZ 1 / timeHorizon in
    let agents := map swapGoalIfNeeded (agents this) in
    neighborTable <- buildNeighborTable agents neighborRadiusSq ;;
    '(agents, newVelocities) <-
      forM (seq 0 (length agents)) (agents, [])
        (velocityCallback neighborTable invTimeHorizon dt) ;;
    agents <- applyVelocities dt agents newVelocities ;;
    Some (mkRVOModel (width this) (height this) (params this) agents).

(** The callback of [Array.from({ length: count }, (_, i) => ...)] in
    [createCircleScenario].  [Math.random()] is called once per agent, in
    index order: [random i] is the value the [i]-th call returns. *)
Definition circleAgent `{Trig T} (this : RVOModel T) (random : nat -> T)
    (i : nat) : Agent :=
  let count := nofZ (Z.of_nat DEFAULTS_agentCount) in
  let center := mkVector2 (width this / nofZ 2) (height this / nofZ 2) in
  let radius := nmin (width this) (height this) * dec 35 100 in
  let agentRadius := agentRadiusMeters * pixelsPerMeter in
  let angle := nofZ (Z.of_nat i) / count * npi * nofZ 2 in
  let dir := mkVector2 (ncos angle) (nsin angle) in
  let opposite := Vector2.mult dir (nofZ (-1)) in
  let anchorA := Vector2.add center (Vector2.mult dir radius) in
  let anchorB := Vector2.add center (Vector2.mult opposite radius) in
  let preferredSpeed :=
    (dec 12 10 + random i * dec 6 10) * pixelsPerMeter in
  mkRVOAgent
    (String.append "rvo-"%string
       (DecimalString.NilZero.string_of_uint (Nat.to_uint i)))
    anchorA Vector2.zero Vector2.zero agentRadius preferredSpeed
    (preferredSpeed * dec 125 100) (anchorA, anchorB) H1
    (String.append "hsl("%string
       (String.append
          (DecimalString.NilZero.string_of_uint (Nat.to_uint (180 + i * 5)))
          ", 70%, 60%)"%string)).

Definition createCircleScenario `{Trig T} (random : nat -> T)
    (this : RVOModel T) : RVOModel T :=
  if (width this =? nofZ 0) || (height this =? nofZ 0) then
    mkRVOModel (width this) (height this) (params this) []
  else
    mkRVOModel (width this) (height this) (params this)
      (map (circleAgent this random) (seq 0 DEFAULTS_agentCount)).

Definition reset `{Trig T} (random : nat -> T) (this : RVOModel T)
  : RVOModel T :=
  createCircleScenario random this.

(** [SimulationModel.resize], with [RVOModel.onResize]. *)
Definition resize `{Trig T} (random : nat -> T) (w h : T)
    (this : RVOModel T) : RVOModel T :=
  createCircleScenario random
    (mkRVOModel w h (params this) (agents this)).

(** [SimulationModel.configure]: the keys of [nextParams] override. *)
Definition configure (nextParams : SimulationParameterValues T)
    (this : RVOModel T) : RVOModel T :=
  mkRVOModel (width this) (height this) (nextParams ++ params this)
    (agents this).

End RVO.


(* ------------------------------------------------------------------ *)
(** ** RVOModel: the methods, with the calls of [Math.random] counted *)

(** The methods of the class as the host calls them on one engine, where
    [Math.random] is a global effect.  A method body is run with the stream
    of draws ([random k] is what call number [k] of [Math.random] returns)
    and the number of calls made so far; it gives its result and the number
    of calls made when it is through. *)
Module Drawing.
Section Drawing.
Context {T : Type} `{Number T}.
Local Open Scope num_scope.

Definition Draw (A : Type) : Type := (nat -> T) -> nat -> A * nat.

Definition pure {A} (a : A) : Draw A := fun _ drawn => (a, drawn).

Definition andThen {A B} (m : Draw A) (k : A -> Draw B) : Draw B :=
  fun random drawn =>
    let '(a, drawn') := m random drawn in k a random drawn'.

(** [Math.random()]. *)
Definition Math_random : Draw T :=
  fun random drawn => (random drawn, S drawn).

(** [Array.from({ length: count }, callback)]: the callback runs for the
    indices [i], [i + 1], ... in order. *)
Fixpoint arrayFrom {A} (count : nat) (callback : nat -> Draw A) (i : nat)
  : Draw (list A) :=
  match count with
  | O => pure []
  | S count' =>
      andThen (callback i) (fun a =>
      andThen (arrayFrom count' callback (S i)) (fun rest =>
      pure (a :: rest)))
  end.

(** The callback of [createCircleScenario]: its one call of [Math.random]
    gives the preferred speed. *)
Definition circleAgent `{Trig T} (this : RVOModel T) (i : nat)
  : Draw (RVOAgent T) :=
  andThen Math_random (fun draw =>
  pure (circleAgent this (fun _ => draw) i)).

Definition createCircleScenario `{Trig T} (this : RVOModel T)
  : Draw (RVOModel T) :=
  if (width this =? nofZ 0) || (height this =? nofZ 0) then
    pure (mkRVOModel (width this) (height this) (params this) [])
  else
    andThen (arrayFrom DEFAULTS_agentCount (circleAgent this) 0)
      (fun agents =>
       pure (mkRVOModel (width this) (height this) (params this) agents)).

Definition reset `{Trig T} (this : RVOModel T) : Draw (RVOModel T) :=
  createCircleScenario this.

Definition resize `{Trig T} (w h : T) (this : RVOModel T)
  : Draw (RVOModel T) :=
  createCircleScenario (mkRVOModel w h (params this) (agents this)).

(** [update(deltaTime)]: its body and the functions it calls hold no call
    of [Math.random]. *)
Definition update (deltaTime : T) (this : RVOModel T)
  : Draw (option (RVOModel T)) :=
  pure (update deltaTime this).

(** Successive ticks: one call of [update] per element of [deltaTimes], as
    long as none raises. *)
Fixpoint ticks (deltaTimes : list T) (this : RVOModel T)
  : Draw (option (RVOModel T)) :=
  match deltaTimes with
  | [] => pure (Some this)
  | deltaTime :: rest =>
      andThen (update deltaTime this) (fun result =>
      match result with
      | Some this' => ticks rest this'
      | None => pure None
      end)
  end.

End Drawing.
End Drawing.
(* ------------------------------------------------------------------ *)
(** ** Specification-side definitions *)

(** [mapM f l]: all the results of [f] on [l], when none raises. *)
Fixpoint mapM {A B} (f : A -> option B) (l : list A) : option (list B) :=
  match l with
  | [] => Some []
  | a :: l' => b <- f a ;; bs <- mapM f l' ;; Some (b :: bs)
  end.

(** An agent with its [preferredVelocity] field blanked: what is left is
    everything [update] reads from an agent when it builds constraints. *)
Definition erasePreferred {T} `{Number T} (a : RVOAgent T) : RVOAgent T :=
  set_preferredVelocity a Vector2.zero.

Section Snapshot.
Context {T : Type} `{Number T}.

(** The new velocity of agent [index], as a function of a snapshot of the
    agents taken before the [map] of [update] starts. *)
Definition newVelocity (snapshot : list (RVOAgent T))
    (neighborTable : list (list (NeighborRef T))) (invTimeHorizon dt : T)
    (index : nat) : option (Vector2 T) :=
  agent <- nth_error snapshot index ;;
  neighbors <- nth_error neighborTable index ;;
  lines <- collectLines snapshot agent neighbors invTimeHorizon dt ;;
  solveVelocity lines agent (computePreferredVelocity agent).

(** The agent after [agent.preferredVelocity = preferred] in the [map]
    callback of [update]. *)
Definition withPreferred (a : RVOAgent T) : RVOAgent T :=
  set_preferredVelocity a (computePreferredVelocity a).

(** What the second [forEach] of [update] leaves in an agent. *)
Definition integrate (dt : T) (a : RVOAgent T) (v : Vector2 T)
  : RVOAgent T :=
  set_position (set_velocity a v)
    (Vector2.add (position a) (Vector2.mult v dt)).

(** The quantities [update] derives from its argument and the parameters. *)
Definition stepOf (deltaTime : T) : T := nmin deltaTime (dec 5 100).

Definition neighborRadiusSqOf (this : RVOModel T) : T :=
  let prefNeighborRadius :=
    (orElse (getParam (params this) "neighborRadius"%string)
       DEFAULTS_neighborRadius
     * pixelsPerMeter)%num in
  (prefNeighborRadius * prefNeighborRadius)%num.

Definition invTimeHorizonOf (this : RVOModel T) : T :=
  (nofZ 1
   / nmax (orElse (getParam (params this) "timeHorizon"%string)
             DEFAULTS_timeHorizon)
       (dec 2 10))%num.

(** The point of parameter [t] on a line. *)
Definition pointAt (line : OrcaLine T) (t : T) : Vector2 T :=
  Vector2.add (point line) (Vector2.mult (direction line) t).

(** [t] clamped to the interval from [lo] to [hi], by the comparisons of
    the point-optimisation branch of [linearProgram1]. *)
Definition clamp (t lo hi : T) : T :=
  if (t <? lo)%num then lo else if (t >? hi)%num then hi else t.

(** A velocity on the forbidden side of a line, by the test of the solver:
    [det(direction, point - v) > 0]. *)
Definition violates (line : OrcaLine T) (v : Vector2 T) : bool :=
  (det (direction line) (Vector2.sub (point line) v) >? nofZ 0)%num.

(** The candidate [linearProgram2] starts from. *)
Definition lp2Initial (radius : T) (optVelocity : Vector2 T)
    (directionOpt : bool) : Vector2 T :=
  if directionOpt then Vector2.mult optVelocity radius
  else if (absSq optVelocity >? radius * radius)%num then
    Vector2.mult (Vector2.normalize optVelocity) radius
  else optVelocity.

(** [Lp2Run lines radius optVelocity directionOpt k c]: the lines
    [lines[0], ..., lines[k-1]] have been processed in order, every
    single-line solve that was needed has succeeded, and the candidate is
    [c]. *)
Inductive Lp2Run (lines : list (OrcaLine T)) (radius : T)
    (optVelocity : Vector2 T) (directionOpt : bool)
  : nat -> Vector2 T -> Prop :=
| Lp2Start :
    Lp2Run lines radius optVelocity directionOpt 0
      (lp2Initial radius optVelocity directionOpt)
| Lp2Keep (k : nat) (c : Vector2 T) (li : OrcaLine T) :
    Lp2Run lines radius optVelocity directionOpt k c ->
    nth_error lines k = Some li ->
    violates li c = false ->
    Lp2Run lines radius optVelocity directionOpt (S k) c
| Lp2Solve (k : nat) (c c' : Vector2 T) (li : OrcaLine T) :
    Lp2Run lines radius optVelocity directionOpt k c ->
    nth_error lines k = Some li ->
    violates li c = true ->
    linearProgram1 lines k radius optVelocity directionOpt c
    = Some (mkSolved1 true c') ->
    Lp2Run lines radius optVelocity directionOpt (S k) c'.

(** A neighbor table for [n] agents: one list per agent, holding indices
    of agents. *)
Definition tableValid (n : nat) (table : list (list (NeighborRef T)))
  : Prop :=
  length table = n
  /\ Forall (Forall (fun e : NeighborRef T => index e < n)) table.

End Snapshot.



Definition inDisk (radius : R) (v : Vector2 R) : Prop :=
  (absSq v <= radius * radius)%R.


(** Lines with unit directions, no two of which are within the tolerance of
    parallel without being parallel. *)
Definition unitDirections (lines : list (OrcaLine R)) : Prop :=
  Forall (fun line => absSq (direction line) = 1%R) lines.


(** [placeLast before a l]: [a] put into [l] behind every element it does
    not go before: where a stable sort leaves an element pushed at the end
    of a sorted array. *)
Fixpoint placeLast {A} (before : A -> A -> bool) (a : A) (l : list A)
  : list A :=
  match l with
  | [] => [a]
  | b :: l' =>
      if before a b then a :: b :: l' else b :: placeLast before a l'
  end.

(** A comparator by a real key, [key(a) - key(b) < 0], and the order it
    sorts into. *)
Definition keyBefore {A} (key : A -> R) (a b : A) : bool :=
  RealNum.ltb (key a - key b) 0.

Definition keyLe {A} (key : A -> R) (a b : A) : Prop :=
  (key a <= key b)%R.

(** The comparator of [insertNeighbor]: [a.distSq - b.distSq < 0]. *)
Definition byDistSq {T} `{Number T} (a b : NeighborRef T) : bool :=
  (distSq a - distSq b <? nofZ 0)%num.

(** The squared distance [buildNeighborTable] computes for a pair. *)
Definition pairDistSq {T} `{Number T} (agents : list (RVOAgent T))
    (i j : nat) : T :=
  match nth_error agents i, nth_error agents j with
  | Some ai, Some aj => absSq (Vector2.sub (position ai) (position aj))
  | _, _ => nofZ 0
  end.

(** What the pair [(i, j)] of the loops of [buildNeighborTable] pushes on
    the list of agent [a]. *)
Definition pushedBy {T} `{Number T} (agents : list (RVOAgent T))
    (radiusSq : T) (a i j : nat) : list (NeighborRef T) :=
  if (pairDistSq agents i j >? radiusSq)%num then []
  else if (a =? i)%nat then [mkNeighborRef j (pairDistSq agents i j)]
  else if (a =? j)%nat then [mkNeighborRef i (pairDistSq agents i j)]
  else [].

(** Everything pushed on the list of agent [a], in the order of the loops. *)
Definition pushedAll {T} `{Number T} (agents : list (RVOAgent T))
    (radiusSq : T) (a : nat) : list (NeighborRef T) :=
  let n := length agents in
  flat_map
    (fun i =>
       flat_map (pushedBy agents radiusSq a i) (seq (i + 1) (n - (i + 1))))
    (seq 0 n).

(** A table whose list for every agent [a] holds the [maxNeighbors] first
    of the stably sorted [pushed a]. *)
Definition tableIs {T} `{Number T} (n : nat)
    (table : list (list (NeighborRef T)))
    (pushed : nat -> list (NeighborRef T)) : Prop :=
  length table = n
  /\ forall a, a < n ->
       nth_error table a
       = Some (firstn maxNeighbors (sortBy byDistSq (pushed a))).

(* ------------------------------------------------------------------ *)
(** ** Concrete inputs *)

Module Sample.
Section Sample.
Context {T : Type} `{Number T}.

Definition vec (a b : Z) : Vector2 T := mkVector2 (nofZ a) (nofZ b).

(** Two agents as [createCircleScenario] makes them (radius 0.28 * 55, a
    preferred speed of 1.5 * 55 from the draw 0.5, at rest, heading for
    their second anchor), facing each other 33 pixels apart on the x axis:
    each one's goal lies behind the other. *)
Definition agentA : RVOAgent T :=
  mkRVOAgent "rvo-0" (vec 0 0) (vec 0 0) (vec 0 0)
    (agentRadiusMeters * pixelsPerMeter)%num
    (dec 825 10) (dec 825 10 * dec 125 100)%num
    (vec 0 0, vec 200 0) H1 "hsl(180, 70%, 60%)".

Definition agentB : RVOAgent T :=
  mkRVOAgent "rvo-1" (vec 33 0) (vec 0 0) (vec 0 0)
    (agentRadiusMeters * pixelsPerMeter)%num
    (dec 825 10) (dec 825 10 * dec 125 100)%num
    (vec 33 0, vec (-167) 0) H1 "hsl(185, 70%, 60%)".

Definition headOn : RVOModel T :=
  mkRVOModel (nofZ 800) (nofZ 600) [] [agentA; agentB].

(** An agent at rest at [(px, 0)], with the radius and a speed of the
    scenario. *)
Definition agentAt (px : Z) : RVOAgent T :=
  mkRVOAgent "rvo" (vec px 0) (vec 0 0) (vec 0 0)
    (agentRadiusMeters * pixelsPerMeter)%num
    (dec 825 10) (dec 825 10 * dec 125 100)%num
    (vec px 0, vec (px + 1000) 0) H1 "hsl(180, 70%, 60%)".

(** An agent at rest at [(px, py)], with the radius and a speed of the
    scenario. *)
Definition agentAtPoint (px py : Z) : RVOAgent T :=
  mkRVOAgent "rvo" (vec px py) (vec 0 0) (vec 0 0)
    (agentRadiusMeters * pixelsPerMeter)%num
    (dec 825 10) (dec 825 10 * dec 125 100)%num
    (vec px py, vec (px + 1000) py) H1 "hsl(180, 70%, 60%)".

(** Two agents 3 apart, for a neighbor radius of 3. *)
Definition boundaryPair : list (RVOAgent T) := [agentAt 0; agentAt 3].

(** Twelve agents in a row, 10 apart: all within 220 of each other. *)
Definition row12 : list (RVOAgent T) :=
  map (fun k => agentAt (10 * Z.of_nat k)) (seq 0 12).

(** Two agents 300 apart, each at its first anchor and heading for the
    other's; preferred speeds (1.2 + 0 * 0.6) * 55 and (1.2 + 0.5 * 0.6) * 55. *)
Definition approach : RVOModel T :=
  mkRVOModel (nofZ 800) (nofZ 600) []
    [ mkRVOAgent "rvo-0" (vec 0 0) (vec 0 0) (vec 0 0)
        (agentRadiusMeters * pixelsPerMeter)%num
        (nofZ 66) (nofZ 66 * dec 125 100)%num
        (vec 0 0, vec 300 0) H1 "hsl(180, 70%, 60%)";
      mkRVOAgent "rvo-1" (vec 300 0) (vec 0 0) (vec 0 0)
        (agentRadiusMeters * pixelsPerMeter)%num
        (dec 825 10) (dec 825 10 * dec 125 100)%num
        (vec 300 0, vec 0 0) H1 "hsl(185, 70%, 60%)" ].

(** [n] calls of [update(deltaTime)]. *)
Fixpoint ticks (n : nat) (deltaTime : T)
    (this : RVOModel T) : option (RVOModel T) :=
  match n with
  | O => Some this
  | S n' => this' <- update deltaTime this ;; ticks n' deltaTime this'
  end.

(** The distance between the first two agents. *)
Definition separation (this : RVOModel T)
  : option T :=
  match agents this with
  | a :: b :: _ => Some (Vector2.dist (position a) (position b))
  | _ => None
  end.

End Sample.
End Sample.

(** Two lines through the origin with unit directions, the second within
    the tolerance of antiparallel to the first: the cross product of the
    directions is 2000000/1000000000001, below 1e-5. *)
Module NearParallel.

Definition c : R := (999999999999 / 1000000000001)%R.
Definition s : R := (2000000 / 1000000000001)%R.

Definition line0 : OrcaLine R :=
  mkOrcaLine (mkVector2 0%R 0%R) (mkVector2 1%R 0%R).

Definition line1 : OrcaLine R :=
  mkOrcaLine (mkVector2 0%R 0%R) (mkVector2 (- c)%R (- s)%R).

Definition lines : list (OrcaLine R) := [line0; line1].

Definition optVelocity : Vector2 R := mkVector2 0%R (-1)%R.

End NearParallel.

(* ------------------------------------------------------------------ *)
(** ** Further specification-side definitions *)

(** The fields of an agent that [update] never assigns. *)
Definition identityOf {T : Type} (a : RVOAgent T)
  : String.string * T * T * T * (Vector2 T * Vector2 T) * String.string :=
  (id a, radius a, preferredSpeed a, maxSpeed a, anchors a, color a).

(** The opposite vector. *)
Definition negate {T : Type} `{Number T} (v : Vector2 T) : Vector2 T :=
  mkVector2 (- x v)%num (- y v)%num.

(* ------------------------------------------------------------------ *)
(** ** CAModel: the cellular automaton on a Moore grid *)

(** [Math.floor] and [Math.round] of a number, as an integer. *)
Class Floor (T : Type) : Type := {
  nfloor : T -> Z;                (* Math.floor *)
  nround : T -> Z                 (* Math.round: halves go up *)
}.

#[export] Instance R_Floor : Floor R := {
  nfloor := Zfloor;
  nround := fun v => Zfloor (v + 1 / 2)%R
}.

(** [array.map((element, index) => ...)]. *)
Definition mapi {A B} (f : A -> nat -> B) (l : list A) : list B :=
  map (fun p => f (fst p) (snd p)) (combine l (seq 0 (length l))).

(** [array.slice(0, n)], for an integer [n] of either sign. *)
Definition sliceTo {A} (l : list A) (n : Z) : list A :=
  if (n <? 0)%Z then firstn (length l - Z.to_nat (- n)) l
  else firstn (Z.to_nat n) l.

(** The values [v = start, start + 2, ...] of a loop
    [for (v = start; v < stop; v += 2)]. *)
Definition rangeBy2 (start stop : Z) : list Z :=
  map (fun n => (start + 2 * Z.of_nat n)%Z)
    (seq 0 (Z.to_nat ((stop - start + 1) / 2))).

Module CA.

(** [GridCell]: the coordinates the model builds are integers. *)
Record GridCell : Type := mkGridCell { x : Z; y : Z }.

Record CAAgent : Type := mkCAAgent {
  id : String.string;
  cell : GridCell;
  anchors : GridCell * GridCell;
  targetIndex : HeadingIndex;
  color : String.string;
  stuckSteps : nat
}.

(** [(string | null)[][]], indexed [grid[y][x]]; [None] is [null]. *)
Definition Grid : Type := list (list (option String.string)).

(** The private fields of [CAModel], with those of [SimulationModel].
    [cellSize], [cols] and [rows] hold integers: the results of
    [Math.round] and [Math.floor]. *)
Record CAModel (T : Type) : Type := mkCAModel {
  width : T;
  height : T;
  params : SimulationParameterValues T;
  cellSize : Z;
  cols : Z;
  rows : Z;
  originX : T;
  originY : T;
  agents : list CAAgent;
  grid : Grid;
  accumulator : T
}.
Arguments mkCAModel {T} _ _ _ _ _ _ _ _ _ _ _.
Arguments width {T} _.
Arguments height {T} _.
Arguments params {T} _.
Arguments cellSize {T} _.
Arguments cols {T} _.
Arguments rows {T} _.
Arguments originX {T} _.
Arguments originY {T} _.
Arguments agents {T} _.
Arguments grid {T} _.
Arguments accumulator {T} _.

Definition NEIGHBOR_OFFSETS : list GridCell :=
  [ mkGridCell (-1) (-1); mkGridCell 0 (-1); mkGridCell 1 (-1);
    mkGridCell (-1) 0; mkGridCell 1 0;
    mkGridCell (-1) 1; mkGridCell 0 1; mkGridCell 1 1 ].

Definition FLOW_COLORS_horizontalA : String.string := "#f97316".
Definition FLOW_COLORS_horizontalB : String.string := "#22d3ee".
Definition FLOW_COLORS_verticalA : String.string := "#a855f7".
Definition FLOW_COLORS_verticalB : String.string := "#22c55e".

Definition anchorAt (a : CAAgent) (h : HeadingIndex) : GridCell :=
  match h with
  | H0 => fst (anchors a)
  | H1 => snd (anchors a)
  end.

(** Field assignments. *)
Definition set_cell (a : CAAgent) (c : GridCell) : CAAgent :=
  mkCAAgent (id a) c (anchors a) (targetIndex a) (color a) (stuckSteps a).

Definition set_stuckSteps (a : CAAgent) (n : nat) : CAAgent :=
  mkCAAgent (id a) (cell a) (anchors a) (targetIndex a) (color a) n.

Definition set_targetIndex (a : CAAgent) (h : HeadingIndex) : CAAgent :=
  mkCAAgent (id a) (cell a) (anchors a) h (color a) (stuckSteps a).

Definition set_agents {T} (this : CAModel T) (v : list CAAgent) : CAModel T :=
  mkCAModel (width this) (height this) (params this) (cellSize this)
    (cols this) (rows this) (originX this) (originY this) v (grid this)
    (accumulator this).

Definition set_grid {T} (this : CAModel T) (v : Grid) : CAModel T :=
  mkCAModel (width this) (height this) (params this) (cellSize this)
    (cols this) (rows this) (originX this) (originY this) (agents this) v
    (accumulator this).

Definition set_accumulator {T} (this : CAModel T) (v : T) : CAModel T :=
  mkCAModel (width this) (height this) (params this) (cellSize this)
    (cols this) (rows this) (originX this) (originY this) (agents this)
    (grid this) v.

(** The test [grid[cell.y][cell.x] !== null].  A missing row raises a
    TypeError ([None]); a missing element of a row reads as [undefined],
    which is not [null]. *)
Definition gridNotNull (grid : Grid) (c : GridCell) : option bool :=
  if (y c <? 0)%Z then None
  else
    row <- nth_error grid (Z.to_nat (y c)) ;;
    if (x c <? 0)%Z then Some true
    else
      match nth_error row (Z.to_nat (x c)) with
      | Some None => Some false
      | _ => Some true
      end.

(** The assignment [grid[cell.y][cell.x] = v].  A missing row raises a
    TypeError.  [None] stands for that, and also for an assignment outside
    the bounds of the row, which would add an element to the row or a
    property to it: the model does not follow a grid that has lost its
    rectangular shape. *)
Definition gridSet (grid : Grid) (c : GridCell) (v : option String.string)
  : option Grid :=
  if (y c <? 0)%Z then None
  else
    row <- nth_error grid (Z.to_nat (y c)) ;;
    if (x c <? 0)%Z || (Z.of_nat (length row) <=? x c)%Z then None
    else
      Some (setNth (Z.to_nat (y c)) (setNth (Z.to_nat (x c)) v row) grid).

(** [[array[i], array[j]] = [array[j], array[i]]].  With [j] outside the
    array the swap would store [undefined]; [None] stands for that. *)
Definition swap {A} (array : list A) (i : nat) (j : Z) : option (list A) :=
  if (j <? 0)%Z then None
  else
    ai <- nth_error array i ;;
    aj <- nth_error array (Z.to_nat j) ;;
    Some (setNth (Z.to_nat j) ai (setNth i aj array)).

Section CA.
Context {T : Type} `{Number T} `{Floor T}.
Local Open Scope num_scope.

Definition DEFAULT_CELL_SIZE : T := nofZ 24.
Definition DEFAULT_RATE : T := dec 125 100.
Definition BASE_STEP_SECONDS : T := dec 35 100.

Definition getNeighbors (cell : GridCell) : list GridCell :=
  map (fun offset =>
         mkGridCell (x cell + x offset)%Z (y cell + y offset)%Z)
    NEIGHBOR_OFFSETS.

Definition cellDistance (a b : GridCell) : T :=
  let dx := (x a - x b)%Z in
  let dy := (y a - y b)%Z in
  hypot (nofZ dx) (nofZ dy).

Definition resolveCellSize (this : CAModel T) : Z :=
  let requested :=
    orElse (getParam (params this) "cellSize"%string) DEFAULT_CELL_SIZE in
  let clamped := nmax (nofZ 10) (nmin (nofZ 60) requested) in
  nround clamped.

Definition resolveUpdateRate (this : CAModel T) : T :=
  let requested :=
    orElse (getParam (params this) "updateRate"%string) DEFAULT_RATE in
  nmax (dec 25 100) (nmin (nofZ 6) requested).

Definition isInside (this : CAModel T) (cx cy : Z) : bool :=
  (0 <=? cx)%Z && (cx <? cols this)%Z && (0 <=? cy)%Z && (cy <? rows this)%Z.

(** The loop of [shuffle], at the index [i] and below.  [Math.random()] is
    a stream of draws: [random k] is the value of call number [k], and the
    number of the next call is returned with the array. *)
Fixpoint shuffleLoop {A} (random : nat -> T) (i : nat) (array : list A)
    (k : nat) : option (list A * nat) :=
  match i with
  | O => Some (array, k)
  | S i' =>
      let j := nfloor (random k * nofZ (Z.of_nat i + 1)) in
      array <- swap array i j ;;
      shuffleLoop random i' array (S k)
  end.

Definition shuffle {A} (random : nat -> T) (source : list A) (k : nat)
  : option (list A * nat) :=
  shuffleLoop random (length source - 1) source k.

(** The body of the loop over the neighbors in [advanceAutomata]; the
    state is [(bestCell, bestDistance)]. *)
Definition considerNeighbor (this : CAModel T) (target : GridCell)
    (allowDrift : bool) (st : GridCell * T) (neighbor : GridCell)
  : option (GridCell * T) :=
  let '(bestCell, bestDistance) := st in
  if negb (isInside this (x neighbor) (y neighbor)) then Some st
  else
    taken <- gridNotNull (grid this) neighbor ;;
    if taken then Some st
    else
      let distance := cellDistance neighbor target in
      if (distance + dec 1 1000 <? bestDistance)
         || (allowDrift && (distance <=? bestDistance + dec 1 1000))
      then Some (neighbor, distance)
      else Some st.

(** The body of the loop [for (const index of order)] of
    [advanceAutomata]. *)
Definition stepAgent (this : CAModel T) (index : nat)
  : option (CAModel T) :=
  agent <- nth_error (agents this) index ;;
  let target := anchorAt agent (targetIndex agent) in
  let currentDistance := cellDistance (cell agent) target in
  let allowDrift := (4 <=? stuckSteps agent)%nat in
  best <-
    forM (getNeighbors (cell agent)) (cell agent, currentDistance)
      (considerNeighbor this target allowDrift) ;;
  let bestCell := fst best in
  let moved :=
    negb (x (cell agent) =? x bestCell)%Z
    || negb (y (cell agent) =? y bestCell)%Z in
  moveResult <-
    (if moved then
       grid <- gridSet (grid this) (cell agent) None ;;
       grid <- gridSet grid bestCell (Some (id agent)) ;;
       Some (grid, set_stuckSteps (set_cell agent bestCell) 0)
     else Some (grid this, set_stuckSteps agent (stuckSteps agent + 1))) ;;
  let grid := fst moveResult in
  let agent := snd moveResult in
  let agent :=
    if (x (cell agent) =? x target)%Z && (y (cell agent) =? y target)%Z
    then
      set_stuckSteps
        (set_targetIndex agent
           (match targetIndex agent with H0 => H1 | H1 => H0 end))
        0
    else agent in
  Some (set_grid (set_agents this (setNth index agent (agents this))) grid).

Definition advanceAutomata (random : nat -> T) (this : CAModel T) (k : nat)
  : option (CAModel T * nat) :=
  if (length (agents this) =? 0)%nat then Some (this, k)
  else
    shuffled <- shuffle random (seq 0 (length (agents this))) k ;;
    this <- forM (fst shuffled) this stepAgent ;;
    Some (this, snd shuffled).

(** The loop [while (this.accumulator >= stepInterval)] of [update], with
    fuel for the number of its rounds: the outer [None] is fuel that has
    run out, the inner one an error raised. *)
Fixpoint updateLoop (fuel : nat) (random : nat -> T) (stepInterval : T)
    (this : CAModel T) (k : nat) : option (option (CAModel T * nat)) :=
  if accumulator this >=? stepInterval then
    match fuel with
    | O => None
    | S fuel' =>
        match advanceAutomata random this k with
        | None => Some None
        | Some (this, k) =>
            updateLoop fuel' random stepInterval
              (set_accumulator this (accumulator this - stepInterval)) k
        end
    end
  else Some (Some (this, k)).

Definition update (fuel : nat) (random : nat -> T) (deltaTime : T)
    (this : CAModel T) (k : nat) : option (option (CAModel T * nat)) :=
  if (deltaTime <=? nofZ 0) || (length (agents this) =? 0)%nat then
    Some (Some (this, k))
  else
    let rate := resolveUpdateRate this in
    let stepInterval := BASE_STEP_SECONDS / rate in
    let this :=
      set_accumulator this (accumulator this + nmin deltaTime (dec 5 10)) in
    updateLoop fuel random stepInterval this k.

(** The two [forEach] loops that enter the agents into the grid. *)
Definition enterAgents (this : CAModel T) (agents : list CAAgent)
    (grid : Grid) : option Grid :=
  forM agents grid (fun grid agent =>
    if isInside this (x (cell agent)) (y (cell agent)) then
      gridSet grid (cell agent) (Some (id agent))
    else Some grid).

Definition seedAgents (random : nat -> T) (this : CAModel T) (k : nat)
  : option (CAModel T * nat) :=
  if (cols this =? 0)%Z || (rows this =? 0)%Z then
    Some (set_agents this [], k)
  else
    let scenarios :=
      flat_map
        (fun cy =>
           [ ((mkGridCell 1 cy, mkGridCell (cols this - 2) cy),
              FLOW_COLORS_horizontalA);
             ((mkGridCell (cols this - 2) cy, mkGridCell 1 cy),
              FLOW_COLORS_horizontalB) ])
        (rangeBy2 1 (rows this - 1))
      ++
      flat_map
        (fun cx =>
           [ ((mkGridCell cx 1, mkGridCell cx (rows this - 2)),
              FLOW_COLORS_verticalA);
             ((mkGridCell cx (rows this - 2), mkGridCell cx 1),
              FLOW_COLORS_verticalB) ])
        (rangeBy2 2 (cols this - 2)) in
    let maxAgents :=
      Z.min (Z.of_nat (length scenarios))
        (nfloor (nofZ (cols this * rows this) * dec 25 100)) in
    shuffled <- shuffle random scenarios k ;;
    let pool := sliceTo (fst shuffled) maxAgents in
    let agents :=
      mapi
        (fun template index =>
           mkCAAgent
             (String.append "ca-"%string
                (DecimalString.NilZero.string_of_uint (Nat.to_uint index)))
             (fst (fst template)) (fst template) H1 (snd template) 0)
        pool in
    let grid := map (map (fun _ => None)) (grid this) in
    grid <- enterAgents this agents grid ;;
    Some (set_grid (set_agents this agents) grid, snd shuffled).

Definition rebuildDomain (random : nat -> T) (forceReseed : bool)
    (this : CAModel T) (k : nat) : option (CAModel T * nat) :=
  if (width this =? nofZ 0) || (height this =? nofZ 0) then
    Some (mkCAModel (width this) (height this) (params this) (cellSize this)
            0 0 (originX this) (originY this) [] [] (accumulator this), k)
  else
    let nextCellSize := resolveCellSize this in
    let nextCols :=
      Z.max 4 (nfloor (width this / nofZ nextCellSize)) in
    let nextRows :=
      Z.max 4 (nfloor (height this / nofZ nextCellSize)) in
    let changed :=
      forceReseed
      || negb (nextCellSize =? cellSize this)%Z
      || negb (nextCols =? cols this)%Z
      || negb (nextRows =? rows this)%Z
      || (length (agents this) =? 0)%nat in
    let gridWidth := (nextCols * nextCellSize)%Z in
    let gridHeight := (nextRows * nextCellSize)%Z in
    let this :=
      mkCAModel (width this) (height this) (params this) nextCellSize
        nextCols nextRows
        ((width this - nofZ gridWidth) / nofZ 2)
        ((height this - nofZ gridHeight) / nofZ 2)
        (agents this)
        (repeat (repeat None (Z.to_nat nextCols)) (Z.to_nat nextRows))
        (accumulator this) in
    if changed then seedAgents random this k
    else
      grid <- enterAgents this (agents this) (grid this) ;;
      Some (set_grid this grid, k).

Definition reset (random : nat -> T) (this : CAModel T) (k : nat)
  : option (CAModel T * nat) :=
  rebuildDomain random true (set_accumulator this (nofZ 0)) k.

(** [SimulationModel.resize], with [CAModel.onResize]. *)
Definition resize (random : nat -> T) (w h : T) (this : CAModel T)
    (k : nat) : option (CAModel T * nat) :=
  rebuildDomain random true
    (mkCAModel w h (params this) (cellSize this) (cols this) (rows this)
       (originX this) (originY this) (agents this) (grid this)
       (accumulator this)) k.

(** [SimulationModel.configure], with [CAModel.onParamsUpdate]. *)
Definition configure (random : nat -> T)
    (nextParams : SimulationParameterValues T) (this : CAModel T) (k : nat)
  : option (CAModel T * nat) :=
  let this :=
    mkCAModel (width this) (height this) (nextParams ++ params this)
      (cellSize this) (cols this) (rows this) (originX this) (originY this)
      (agents this) (grid this) (accumulator this) in
  let nextCell := resolveCellSize this in
  if negb (nextCell =? cellSize this)%Z then rebuildDomain random true this k
  else Some (this, k).

(** The model as its constructor leaves it. *)
Definition create (initialParams : SimulationParameterValues T)
  : CAModel T :=
  mkCAModel (nofZ 0) (nofZ 0) initialParams 24 0 0 (nofZ 0) (nofZ 0) [] []
    (nofZ 0).

End CA.
End CA.

(* ------------------------------------------------------------------ *)
(** ** CAModel: specification-side definitions *)

(** The element [grid[cell.y][cell.x]] of a grid, where there is one. *)
Definition gridLookup (grid : CA.Grid) (c : CA.GridCell)
  : option (option String.string) :=
  if (CA.x c <? 0)%Z || (CA.y c <? 0)%Z then None
  else
    row <- nth_error grid (Z.to_nat (CA.y c)) ;;
    nth_error row (Z.to_nat (CA.x c)).

(** The cells of the agents, in the order of the agents. *)
Definition cellsOf (agents : list CA.CAAgent) : list CA.GridCell :=
  map CA.cell agents.

(** The state the automaton keeps: every agent is on a cell of the grid,
    no two agents are on the same cell, and the grid has an element for
    every cell, which is [null] exactly where no agent is. *)
Definition wellFormed {T : Type} (this : CA.CAModel T) : Prop :=
  Forall
    (fun a => CA.isInside this (CA.x (CA.cell a)) (CA.y (CA.cell a)) = true)
    (CA.agents this)
  /\ NoDup (cellsOf (CA.agents this))
  /\ forall c : CA.GridCell,
       CA.isInside this (CA.x c) (CA.y c) = true ->
       exists e,
         gridLookup (CA.grid this) c = Some e
         /\ (e = None <-> ~ In c (cellsOf (CA.agents this))).

(** Cells next to each other on the Moore grid, or the same cell. *)
Definition adjacent (a b : CA.GridCell) : Prop :=
  (Z.abs (CA.x a - CA.x b) <= 1)%Z /\ (Z.abs (CA.y a - CA.y b) <= 1)%Z.

(** What a step of the automaton never changes in an agent. *)
Definition identityOfCA (a : CA.CAAgent)
  : String.string * (CA.GridCell * CA.GridCell) * String.string :=
  (CA.id a, CA.anchors a, CA.color a).

(** What [advanceAutomata] never changes in the model. *)
Definition domainOf {T : Type} (this : CA.CAModel T)
  : T * T * SimulationParameterValues T * Z * Z * Z * T * T * T :=
  (CA.width this, CA.height this, CA.params this, CA.cellSize this,
   CA.cols this, CA.rows this, CA.originX this, CA.originY this,
   CA.accumulator this).

(** The state while the agents of [todo] have not had their step yet. *)
Definition roundInvariant {T : Type} (this0 : CA.CAModel T) (todo : list nat)
    (st : CA.CAModel T) : Prop :=
  wellFormed st
  /\ domainOf st = domainOf this0
  /\ map identityOfCA (CA.agents st) = map identityOfCA (CA.agents this0)
  /\ Forall2 (fun a a' => adjacent (CA.cell a') (CA.cell a))
       (CA.agents this0) (CA.agents st)
  /\ forall j, In j todo ->
       nth_error (CA.agents st) j = nth_error (CA.agents this0) j.

(** The start cells of the scenarios of [seedAgents]: the two ends of every
    second row, and of every second column between them. *)
Definition seedStarts (cols rows : Z) : list CA.GridCell :=
  flat_map
    (fun cy => [CA.mkGridCell 1 cy; CA.mkGridCell (cols - 2) cy])
    (rangeBy2 1 (rows - 1))
  ++
  flat_map
    (fun cx => [CA.mkGridCell cx 1; CA.mkGridCell cx (rows - 2)])
    (rangeBy2 2 (cols - 2)).

(** [n] rounds of the loop of [update]. *)
Fixpoint rounds {T : Type} `{Number T} `{Floor T} (n : nat)
    (random : nat -> T) (stepInterval : T) (this : CA.CAModel T) (k : nat)
  : option (CA.CAModel T * nat) :=
  match n with
  | O => Some (this, k)
  | S n' =>
      r <- CA.advanceAutomata random this k ;;
      rounds n' random stepInterval
        (CA.set_accumulator (fst r)
           (CA.accumulator (fst r) - stepInterval)%num)
        (snd r)
  end.

(** A grid of four by four cells with two agents of a horizontal flow, at
    the two ends of the row [y = 1], each heading for the other's cell. *)
Module CASample.
Section CASample.
Context {T : Type} `{Number T}.

Definition agentA : CA.CAAgent :=
  CA.mkCAAgent "ca-0" (CA.mkGridCell 1 1)
    (CA.mkGridCell 1 1, CA.mkGridCell 2 1) H1 CA.FLOW_COLORS_horizontalA 0.

Definition agentB : CA.CAAgent :=
  CA.mkCAAgent "ca-1" (CA.mkGridCell 2 1)
    (CA.mkGridCell 2 1, CA.mkGridCell 1 1) H1 CA.FLOW_COLORS_horizontalB 0.

Definition two : CA.CAModel T :=
  CA.mkCAModel (nofZ 96) (nofZ 96) [] 24 4 4 (nofZ 0) (nofZ 0)
    [agentA; agentB]
    [ [None; None; None; None];
      [None; Some "ca-0"%string; Some "ca-1"%string; None];
      [None; None; None; None];
      [None; None; None; None] ]
    (nofZ 0).

End CASample.
End CASample.

(** What the public operations of the class keep true, over and above
    [wellFormed]: the accumulator stays below the longest step interval;
    on a canvas with an area the cell size is the resolved one, the grid
    has at least four columns and rows, and at most a quarter of the cells
    hold an agent; on a canvas without an area there is no grid and no
    agent. *)
Definition caInvariant (this : CA.CAModel R) : Prop :=
  wellFormed this
  /\ (0 <= CA.accumulator this < 14 / 10)%R
  /\ (CA.width this <> 0%R -> CA.height this <> 0%R ->
      CA.cellSize this = CA.resolveCellSize this
      /\ (4 <= CA.cols this)%Z /\ (4 <= CA.rows this)%Z
      /\ (4 * Z.of_nat (length (CA.agents this))
          <= CA.cols this * CA.rows this)%Z)
  /\ (CA.width this = 0%R \/ CA.height this = 0%R ->
      CA.cols this = 0%Z /\ CA.rows this = 0%Z
      /\ CA.agents this = [] /\ CA.grid this = []).

(** The states of a [CAModel] object: from the constructor, by [reset],
    [resize], [configure] and [update], with the draws of [Math.random()]
    given by [random]; the number is that of the next draw. *)
Inductive reachable (random : nat -> R) : CA.CAModel R -> nat -> Prop :=
| reach_create (initialParams : SimulationParameterValues R) :
    reachable random (CA.create initialParams) 0
| reach_reset (this this' : CA.CAModel R) (k k' : nat) :
    reachable random this k ->
    CA.reset random this k = Some (this', k') ->
    reachable random this' k'
| reach_resize (w h : R) (this this' : CA.CAModel R) (k k' : nat) :
    reachable random this k ->
    CA.resize random w h this k = Some (this', k') ->
    reachable random this' k'
| reach_configure (nextParams : SimulationParameterValues R)
    (this this' : CA.CAModel R) (k k' : nat) :
    reachable random this k ->
    CA.configure random nextParams this k = Some (this', k') ->
    reachable random this' k'
| reach_update (fuel : nat) (deltaTime : R) (this this' : CA.CAModel R)
    (k k' : nat) :
    reachable random this k ->
    CA.update fuel random deltaTime this k = Some (Some (this', k')) ->
    reachable random this' k'.
(* ------------------------------------------------------------------ *)
(** ** Lists, loops and the error monad *)

Unset Implicit Arguments.

Section Loops.
Context {A B S : Type}.

Lemma forM_app (xs ys : list A) (s : S) (body : S -> A -> option S) :
  forM (xs ++ ys) s body = (s' <- forM xs s body ;; forM ys s' body).
Proof.
  revert s; induction xs as [|a xs IH]; intros s; cbn; [reflexivity|].
  destruct (body s a); cbn; [apply IH|reflexivity].
Qed.

Lemma forM_invariant (P : S -> Prop) (Q : A -> Prop)
    (body : S -> A -> option S) :
  (forall s a, P s -> Q a -> exists s', body s a = Some s' /\ P s') ->
  forall xs s, Forall Q xs -> P s ->
  exists s', forM xs s body = Some s' /\ P s'.
Proof.
  intros Hbody xs; induction xs as [|a xs IH]; intros s HQ HP; cbn.
  - eauto.
  - inversion HQ as [|? ? Ha Hxs]; subst.
    destruct (Hbody s a HP Ha) as (s' & -> & HP'); cbn.
    apply IH; assumption.
Qed.

Lemma mapM_app (f : A -> option B) (xs ys : list A) :
  mapM f (xs ++ ys)
  = (bs <- mapM f xs ;; cs <- mapM f ys ;; Some (bs ++ cs)).
Proof.
  induction xs as [|a xs IH]; cbn.
  - destruct (mapM f ys); reflexivity.
  - destruct (f a); cbn; [|reflexivity].
    rewrite IH. destruct (mapM f xs); cbn; [|reflexivity].
    destruct (mapM f ys); reflexivity.
Qed.

Lemma mapM_length (f : A -> option B) (xs : list A) (bs : list B) :
  mapM f xs = Some bs -> length bs = length xs.
Proof.
  revert bs; induction xs as [|a xs IH]; intros bs; cbn.
  - intros [= <-]; reflexivity.
  - destruct (f a); cbn; [|discriminate].
    destruct (mapM f xs) as [bs'|]; cbn; [|discriminate].
    intros [= <-]; cbn; f_equal; apply IH; reflexivity.
Qed.

Lemma mapM_nth (f : A -> option B) (xs : list A) (bs : list B) (i : nat)
    (a : A) :
  mapM f xs = Some bs -> nth_error xs i = Some a ->
  exists b, nth_error bs i = Some b /\ f a = Some b.
Proof.
  revert bs i; induction xs as [|a' xs IH]; intros bs i; cbn.
  - destruct i; discriminate.
  - destruct (f a') as [b'|] eqn:Hf; cbn; [|discriminate].
    destruct (mapM f xs) as [bs'|]; cbn; [|discriminate].
    intros [= <-]. destruct i as [|i]; cbn.
    + intros [= <-]; eauto.
    + apply IH; reflexivity.
Qed.

Lemma setNth_length (i : nat) (v : A) (l : list A) :
  length (setNth i v l) = length l.
Proof.
  revert i; induction l as [|a l IH]; intros [|i]; cbn; auto.
Qed.

Lemma setNth_map (f : A -> B) (i : nat) (v a : A) (l : list A) :
  nth_error l i = Some a -> f v = f a -> map f (setNth i v l) = map f l.
Proof.
  revert i; induction l as [|a' l IH]; intros [|i]; cbn; try discriminate.
  - intros [= ->] ->; reflexivity.
  - intros Hn Hf; f_equal; apply IH; assumption.
Qed.

Lemma nth_error_setNth (i j : nat) (v : A) (l : list A) :
  nth_error (setNth i v l) j
  = if (i =? j)%nat then option_map (fun _ => v) (nth_error l j)
    else nth_error l j.
Proof.
  revert i j; induction l as [|a l IH]; intros [|i] [|j]; cbn; auto.
  - destruct (i =? j)%nat; reflexivity.
Qed.

Lemma nth_error_some_lt (l : list A) (i : nat) :
  i < length l -> exists a, nth_error l i = Some a.
Proof.
  intros Hi. destruct (nth_error l i) eqn:E; eauto.
  apply nth_error_None in E; lia.
Qed.

End Loops.

Arguments forM_app {A S} xs ys s body.
Arguments forM_invariant {A S} P Q body _ xs s _ _.
Arguments mapM_app {A B} f xs ys.
Arguments mapM_length {A B} f xs bs _.
Arguments mapM_nth {A B} f xs bs i a _ _.
Arguments setNth_length {A} i v l.
Arguments setNth_map {A B} f i v a l _ _.
Arguments nth_error_setNth {A} i j v l.
Arguments nth_error_some_lt {A} l i _.

(* ------------------------------------------------------------------ *)
(** ** No function of the solver raises *)

Section Totality.
Context {T : Type} `{Number T}.

Lemma linearProgram1_total (lines : list (OrcaLine T)) (lineNo : nat)
    (radius : T) (optVelocity : Vector2 T) (directionOpt : bool)
    (result : Vector2 T) :
  lineNo < length lines ->
  exists s, linearProgram1 lines lineNo radius optVelocity directionOpt
              result = Some s.
Proof.
  intros Hlt. unfold linearProgram1.
  destruct (nth_error_some_lt lines lineNo Hlt) as (line & ->); cbn [bind].
  destruct (nltb _ _); [eauto|].
  destruct (lp1Clip _ _ _ _); eauto.
Qed.

Lemma lp2Loop_total (lines : list (OrcaLine T)) (radius : T)
    (optVelocity : Vector2 T) (directionOpt : bool) :
  forall (rest : list (OrcaLine T)) (i : nat) (result : Vector2 T),
  i + length rest = length lines ->
  exists s, lp2Loop lines radius optVelocity directionOpt rest i result
            = Some s
            /\ lineFail s <= length lines.
Proof.
  induction rest as [|li rest IH]; intros i result Hlen; cbn in *.
  - eexists; split; [reflexivity|cbn; lia].
  - destruct (nltb _ _).
    + destruct (linearProgram1_total lines i radius
                  optVelocity directionOpt result) as (s & ->); [lia|].
      cbn [bind]. destruct (success s); cbn [negb].
      * apply IH; lia.
      * eexists; split; [reflexivity|cbn; lia].
    + apply IH; lia.
Qed.

Lemma linearProgram2_total (lines : list (OrcaLine T)) (radius : T)
    (optVelocity : Vector2 T) (directionOpt : bool) :
  exists s, linearProgram2 lines radius optVelocity directionOpt = Some s
            /\ lineFail s <= length lines.
Proof. unfold linearProgram2. apply lp2Loop_total. reflexivity. Qed.

Lemma lp3Loop_total (lines : list (OrcaLine T)) (numObstLines : nat)
    (radius : T) :
  forall (rest : list (OrcaLine T)) (i : nat) (result : Vector2 T)
         (distance : T),
  exists v, lp3Loop lines numObstLines radius rest i result distance
            = Some v.
Proof.
  induction rest as [|line rest IH]; intros i result distance; cbn.
  - eauto.
  - destruct (nltb _ _); [|apply IH].
    match goal with
    | |- context [linearProgram2 ?l ?r ?o ?d] =>
        destruct (linearProgram2_total l r o d) as (s & -> & _)
    end.
    cbn [bind]. apply IH.
Qed.

Lemma linearProgram3_total (lines : list (OrcaLine T))
    (numObstLines beginLine : nat) (radius : T)
    (initialResult : Vector2 T) :
  exists v, linearProgram3 lines numObstLines beginLine radius
              initialResult = Some v.
Proof. unfold linearProgram3. apply lp3Loop_total. Qed.

(** The solved velocity is always the [limit] of some vector. *)
Lemma solveVelocity_total (lines : list (OrcaLine T)) (agent : RVOAgent T)
    (preferred : Vector2 T) :
  exists w, solveVelocity lines agent preferred
            = Some (Vector2.limit w (maxSpeed agent)).
Proof.
  unfold solveVelocity.
  destruct (linearProgram2_total lines (maxSpeed agent) preferred false)
    as (s & -> & _); cbn [bind].
  destruct (Nat.ltb _ _); [|eauto].
  destruct (linearProgram3_total lines 0 (lineFail s) (maxSpeed agent)
              (result2 s)) as (v & ->); cbn [bind].
  eauto.
Qed.

Lemma collectLines_total (agents : list (RVOAgent T)) (agent : RVOAgent T)
    (neighbors : list (NeighborRef T)) (invTimeHorizon dt : T) :
  Forall (fun n => index n < length agents) neighbors ->
  exists lines,
    collectLines agents agent neighbors invTimeHorizon dt = Some lines.
Proof.
  intros Hvalid. unfold collectLines.
  destruct (forM_invariant (fun _ : list (OrcaLine T) => True)
              (fun n : NeighborRef T => index n < length agents)
              (fun lines n =>
                 other <- nth_error agents (index n) ;;
                 Some (appendAgentConstraint agent other lines
                         invTimeHorizon dt)))
    with (xs := neighbors) (s := @nil (OrcaLine T))
    as (lines & Hl & _); auto.
  - intros s a _ Ha.
    destruct (nth_error_some_lt agents (index a) Ha) as (other & ->);
      cbn [bind].
    eauto.
  - eauto.
Qed.

End Totality.

(* ------------------------------------------------------------------ *)
(** ** The neighbor table is always built, and holds agent indices *)

Section SortFacts.
Context {A : Type} (before : A -> A -> bool) (P : A -> Prop).

Lemma sortInsert_Forall (a : A) (l : list A) :
  P a -> Forall P l -> Forall P (sortInsert before a l).
Proof.
  intros Ha; induction 1 as [|b l Hb Hl IH]; cbn.
  - constructor; [assumption|constructor].
  - destruct (before b a); constructor; auto.
Qed.

Lemma sortBy_Forall (l : list A) :
  Forall P l -> Forall P (sortBy before l).
Proof.
  induction 1 as [|a l Ha Hl IH]; cbn; [constructor|].
  apply sortInsert_Forall; assumption.
Qed.

Lemma removelast_Forall (l : list A) :
  Forall P l -> Forall P (removelast l).
Proof.
  induction 1 as [|a l Ha Hl IH]; cbn; [constructor|].
  destruct l; [constructor|]. constructor; assumption.
Qed.

Lemma setNth_Forall (Q : list A -> Prop) (i : nat) (v : list A)
    (l : list (list A)) :
  Q v -> Forall Q l -> Forall Q (setNth i v l).
Proof.
  intros Hv Hl; revert i; induction Hl as [|a l Ha Hl IH]; intros [|i];
    cbn; constructor; auto.
Qed.

End SortFacts.

Section TableTotality.
Context {T : Type} `{Number T}.

Lemma insertNeighbor_Forall (P : NeighborRef T -> Prop)
    (lst : list (NeighborRef T)) (neighbor : NeighborRef T) :
  Forall P lst -> P neighbor -> Forall P (insertNeighbor lst neighbor).
Proof.
  intros Hl Hn. unfold insertNeighbor.
  assert (Hs : Forall P
                 (sortBy (fun a b => (distSq a - distSq b <? nofZ 0)%num)
                    (lst ++ [neighbor]))).
  { apply sortBy_Forall. apply Forall_app; split; auto. }
  destruct (Nat.ltb _ _); [apply removelast_Forall|]; exact Hs.
Qed.

Lemma insertInto_valid (n : nat) (table : list (list (NeighborRef T)))
    (i : nat) (neighbor : NeighborRef T) :
  tableValid n table -> i < n -> index neighbor < n ->
  exists table', insertInto table i neighbor = Some table'
                 /\ tableValid n table'.
Proof.
  intros [Hlen Hall] Hi Hn. unfold insertInto.
  destruct (nth_error_some_lt table i) as (lst & Hlst); [lia|].
  rewrite Hlst; cbn [bind]. eexists; split; [reflexivity|].
  split; [rewrite setNth_length; exact Hlen|].
  apply setNth_Forall; [|exact Hall].
  apply insertNeighbor_Forall; [|exact Hn].
  rewrite Forall_forall in Hall. apply Hall.
  eapply nth_error_In; eassumption.
Qed.

Lemma neighborPair_valid (agents : list (RVOAgent T)) (radiusSq : T)
    (i : nat) (table : list (list (NeighborRef T))) (j : nat) :
  tableValid (length agents) table ->
  i < length agents -> j < length agents ->
  exists table', neighborPair agents radiusSq i table j = Some table'
                 /\ tableValid (length agents) table'.
Proof.
  intros Hv Hi Hj. unfold neighborPair.
  destruct (nth_error_some_lt agents i Hi) as (ai & ->).
  destruct (nth_error_some_lt agents j Hj) as (aj & ->).
  cbn [bind]. destruct (nltb _ _); [eauto|].
  destruct (insertInto_valid _ table i (mkNeighborRef j
               (absSq (Vector2.sub (position ai) (position aj)))) Hv Hi)
    as (t1 & -> & Hv1); [exact Hj|].
  cbn [bind]. apply insertInto_valid; assumption.
Qed.

Lemma buildNeighborTable_valid (agents : list (RVOAgent T)) (radiusSq : T) :
  exists table, buildNeighborTable agents radiusSq = Some table
                /\ tableValid (length agents) table.
Proof.
  unfold buildNeighborTable.
  apply (forM_invariant (tableValid (length agents))
           (fun i => i < length agents)).
  - intros table i Hv Hi.
    apply (forM_invariant (tableValid (length agents))
             (fun j => j < length agents)).
    + intros t j Ht Hj. apply neighborPair_valid; assumption.
    + apply Forall_forall. intros j Hj. apply in_seq in Hj. lia.
    + exact Hv.
  - apply Forall_forall. intros i Hi. apply in_seq in Hi. lia.
  - split; [apply repeat_length|].
    apply Forall_forall. intros l Hl. apply repeat_spec in Hl. subst.
    constructor.
Qed.

End TableTotality.

(* ------------------------------------------------------------------ *)
(** ** The two phases of [update] *)

Section TwoPhase.
Context {T : Type} `{Number T}.

Lemma erasePreferred_withPreferred (a : RVOAgent T) :
  erasePreferred (withPreferred a) = erasePreferred a.
Proof. reflexivity. Qed.

Ltac erase_same a b Hab :=
  destruct a, b; unfold erasePreferred, set_preferredVelocity in Hab;
  cbn in Hab; injection Hab as; subst.

Lemma computePreferredVelocity_erase (a b : RVOAgent T) :
  erasePreferred a = erasePreferred b ->
  computePreferredVelocity a = computePreferredVelocity b.
Proof. intros Hab; erase_same a b Hab; reflexivity. Qed.

Lemma appendAgentConstraint_erase (a a' o o' : RVOAgent T)
    (lines : list (OrcaLine T)) (invTimeHorizon dt : T) :
  erasePreferred a = erasePreferred a' ->
  erasePreferred o = erasePreferred o' ->
  appendAgentConstraint a o lines invTimeHorizon dt
  = appendAgentConstraint a' o' lines invTimeHorizon dt.
Proof.
  intros Ha Ho; erase_same a a' Ha; erase_same o o' Ho; reflexivity.
Qed.

Lemma solveVelocity_erase (a a' : RVOAgent T) (lines : list (OrcaLine T))
    (preferred : Vector2 T) :
  erasePreferred a = erasePreferred a' ->
  solveVelocity lines a preferred = solveVelocity lines a' preferred.
Proof. intros Ha; erase_same a a' Ha; reflexivity. Qed.

Lemma nth_error_erase (s1 s2 : list (RVOAgent T)) (i : nat) :
  map erasePreferred s1 = map erasePreferred s2 ->
  option_map erasePreferred (nth_error s1 i)
  = option_map erasePreferred (nth_error s2 i).
Proof.
  intros Hs. rewrite <- !nth_error_map, Hs. reflexivity.
Qed.

Lemma collectLines_erase (s1 s2 : list (RVOAgent T)) (a1 a2 : RVOAgent T)
    (neighbors : list (NeighborRef T)) (invTimeHorizon dt : T) :
  map erasePreferred s1 = map erasePreferred s2 ->
  erasePreferred a1 = erasePreferred a2 ->
  collectLines s1 a1 neighbors invTimeHorizon dt
  = collectLines s2 a2 neighbors invTimeHorizon dt.
Proof.
  intros Hs Ha. unfold collectLines.
  generalize (@nil (OrcaLine T)) as lines.
  induction neighbors as [|n ns IH]; intros lines; cbn; [reflexivity|].
  pose proof (nth_error_erase s1 s2 (index n) Hs) as Hn.
  destruct (nth_error s1 (index n)) as [o1|],
           (nth_error s2 (index n)) as [o2|]; cbn [option_map] in Hn;
    try discriminate; cbn [bind]; [|reflexivity].
  assert (Ho : erasePreferred o1 = erasePreferred o2) by congruence.
  clear Hn; rename Ho into Hn.
  rewrite (appendAgentConstraint_erase a1 a2 o1 o2 lines invTimeHorizon dt
             Ha Hn).
  apply IH.
Qed.

Lemma setNth_middle {A} (l1 l2 : list A) (a v : A) (n : nat) :
  n = length l1 -> setNth n v (l1 ++ a :: l2) = l1 ++ v :: l2.
Proof.
  intros ->. induction l1 as [|b l1 IH]; cbn; [reflexivity|].
  now rewrite IH.
Qed.

Lemma nth_error_middle {A} (l1 l2 : list A) (a : A) (n : nat) :
  n = length l1 -> nth_error (l1 ++ a :: l2) n = Some a.
Proof. intros ->. induction l1 as [|b l1 IH]; cbn; auto. Qed.

(** One call of the callback, on the shared array as the calls before it
    left it: it computes what the snapshot alone determines. *)
Lemma velocityCallback_step (snapshot done todo : list (RVOAgent T))
    (a : RVOAgent T) (vels : list (Vector2 T))
    (neighborTable : list (list (NeighborRef T))) (invTimeHorizon dt : T) :
  snapshot = done ++ a :: todo ->
  velocityCallback neighborTable invTimeHorizon dt
    (map withPreferred done ++ a :: todo, vels) (length done)
  = (v <- newVelocity snapshot neighborTable invTimeHorizon dt
            (length done) ;;
     Some (map withPreferred (done ++ [a]) ++ todo, vels ++ [v])).
Proof.
  intros Hsplit. unfold velocityCallback, newVelocity.
  cbv beta iota zeta.
  rewrite (nth_error_middle (map withPreferred done) todo a (length done))
    by (now rewrite length_map).
  cbn [bind].
  rewrite (setNth_middle (map withPreferred done) todo a _ (length done))
    by (now rewrite length_map).
  rewrite Hsplit at 1.
  rewrite (nth_error_middle done todo a (length done) eq_refl).
  cbn [bind].
  destruct (nth_error neighborTable (length done)) as [ns|]; cbn [bind];
    [|reflexivity].
  fold (withPreferred a).
  assert (Herase :
    map erasePreferred (map withPreferred done ++ withPreferred a :: todo)
    = map erasePreferred snapshot).
  { rewrite Hsplit, !map_app, map_map; cbn. reflexivity. }
  rewrite (collectLines_erase _ _ _ _ ns invTimeHorizon dt Herase
             (erasePreferred_withPreferred a)).
  destruct (collectLines snapshot a ns invTimeHorizon dt) as [lines|];
    cbn [bind]; [|reflexivity].
  rewrite (solveVelocity_erase _ _ lines (computePreferredVelocity a)
             (erasePreferred_withPreferred a)).
  destruct (solveVelocity lines a (computePreferredVelocity a)) as [v|];
    cbn [bind]; [|reflexivity].
  rewrite map_app, <- app_assoc. reflexivity.
Qed.

(** The first phase, after [k] calls of the callback: the shared array
    differs from the snapshot in the [preferredVelocity] of its first [k]
    agents only, and the velocities computed so far are those the
    snapshot alone determines. *)
Lemma velocityPhase_prefix (snapshot : list (RVOAgent T))
    (neighborTable : list (list (NeighborRef T))) (invTimeHorizon dt : T) :
  forall k done todo,
    snapshot = done ++ todo -> length done = k ->
    forM (seq 0 k) (snapshot, [])
      (velocityCallback neighborTable invTimeHorizon dt)
    = (vels <- mapM (newVelocity snapshot neighborTable invTimeHorizon dt)
                 (seq 0 k) ;;
       Some (map withPreferred done ++ todo, vels)).
Proof.
  induction k as [|k IH]; intros done todo Hsplit Hlen.
  - destruct done; [|discriminate]. cbn in *. subst todo. reflexivity.
  - destruct (exists_last (l := done)) as (done' & a & ->).
    { intros ->; discriminate. }
    rewrite length_app in Hlen; cbn in Hlen.
    rewrite <- app_assoc in Hsplit; cbn in Hsplit.
    assert (Hk : length done' = k) by lia.
    rewrite seq_S, forM_app, mapM_app.
    rewrite (IH done' (a :: todo) Hsplit Hk); cbn [Nat.add].
    destruct (mapM _ (seq 0 k)) as [vels|]; cbn [bind]; [|reflexivity].
    cbn [forM mapM]. rewrite <- Hk.
    rewrite (velocityCallback_step snapshot done' todo a vels _ _ _ Hsplit).
    destruct (newVelocity _ _ _ _ _); reflexivity.
Qed.

End TwoPhase.

Section UpdateSpec.
Context {T : Type} `{Number T}.

Lemma mapM_total {A B} (f : A -> option B) (l : list A) :
  Forall (fun a => exists b, f a = Some b) l ->
  exists bs, mapM f l = Some bs.
Proof.
  induction 1 as [|a l (b & Hb) Hl (bs & IH)]; cbn; [eauto|].
  rewrite Hb, IH; cbn; eauto.
Qed.

Lemma newVelocity_total (snapshot : list (RVOAgent T))
    (neighborTable : list (list (NeighborRef T))) (invTimeHorizon dt : T)
    (index : nat) :
  tableValid (length snapshot) neighborTable ->
  index < length snapshot ->
  exists a w,
    nth_error snapshot index = Some a
    /\ newVelocity snapshot neighborTable invTimeHorizon dt index
       = Some (Vector2.limit w (maxSpeed a)).
Proof.
  intros [Hlen Hvalid] Hi. unfold newVelocity.
  destruct (nth_error_some_lt snapshot index Hi) as (a & Ha).
  destruct (nth_error_some_lt neighborTable index) as (ns & Hns);
    [lia|].
  rewrite Ha, Hns; cbn [bind].
  destruct (collectLines_total snapshot a ns invTimeHorizon dt)
    as (lines & ->).
  { rewrite Forall_forall in Hvalid. apply Hvalid.
    eapply nth_error_In; eassumption. }
  cbn [bind].
  destruct (solveVelocity_total lines a (computePreferredVelocity a))
    as (w & ->).
  eauto.
Qed.

Lemma applyVelocities_spec (dt : T) (snapshot : list (RVOAgent T)) :
  forall vels : list (Vector2 T),
  length vels = length snapshot ->
  applyVelocities dt (map withPreferred snapshot) vels
  = Some (map (fun '(a, v) => integrate dt (withPreferred a) v)
            (combine snapshot vels)).
Proof.
  induction snapshot as [|a l IH]; intros [|v vels] Hlen; cbn in *;
    try discriminate; [reflexivity|].
  rewrite IH by lia. reflexivity.
Qed.

(** What [update] computes when it advances the simulation. *)
Lemma update_advance (deltaTime : T) (this : RVOModel T) :
  (deltaTime <=? nofZ 0)%num = false -> agents this <> [] ->
  let snapshot := map swapGoalIfNeeded (agents this) in
  let dt := stepOf deltaTime in
  exists table vels,
    buildNeighborTable snapshot (neighborRadiusSqOf this) = Some table
    /\ tableValid (length snapshot) table
    /\ mapM (newVelocity snapshot table (invTimeHorizonOf this) dt)
         (seq 0 (length snapshot)) = Some vels
    /\ update deltaTime this
       = Some (mkRVOModel (width this) (height this) (params this)
                 (map (fun '(a, v) => integrate dt (withPreferred a) v)
                    (combine snapshot vels))).
Proof.
  intros Hdt Hne snapshot dt.
  destruct (buildNeighborTable_valid snapshot (neighborRadiusSqOf this))
    as (table & Htable & Hvalid).
  destruct (mapM_total
              (newVelocity snapshot table (invTimeHorizonOf this) dt)
              (seq 0 (length snapshot))) as (vels & Hvels).
  { apply Forall_forall. intros i Hi. apply in_seq in Hi.
    destruct (newVelocity_total snapshot table (invTimeHorizonOf this) dt
                i Hvalid) as (a & w & _ & Hw); [lia|].
    eauto. }
  exists table, vels.
  split; [exact Htable|split; [exact Hvalid|split; [exact Hvels|]]].
  assert (Hlen : (length (agents this) =? 0)%nat = false).
  { destruct (agents this); [contradiction|reflexivity]. }
  unfold update. rewrite Hdt, Hlen. cbn [orb]. cbv zeta.
  change (nmin deltaTime (dec 5 100)) with dt.
  change (map swapGoalIfNeeded (agents this)) with snapshot.
  unfold neighborRadiusSqOf in Htable. cbv zeta in Htable.
  rewrite Htable; cbn [bind].
  change (nofZ 1 / nmax (orElse (getParam (params this) "timeHorizon")
                           DEFAULTS_timeHorizon) (dec 2 10))%num
    with (invTimeHorizonOf this).
  rewrite (velocityPhase_prefix snapshot table (invTimeHorizonOf this) dt
             (length snapshot) snapshot [])
    by (rewrite ?app_nil_r; reflexivity).
  rewrite Hvels; cbn [bind]. rewrite app_nil_r.
  rewrite applyVelocities_spec.
  - reflexivity.
  - rewrite (mapM_length _ _ _ Hvels). apply length_seq.
Qed.

End UpdateSpec.

(* ------------------------------------------------------------------ *)
(** ** Frame, determinism and the two-phase rule of [update] *)

Section UpdateClaims.
Context {T : Type} `{Number T}.

Lemma position_swapGoalIfNeeded (a : RVOAgent T) :
  position (swapGoalIfNeeded a) = position a.
Proof. unfold swapGoalIfNeeded. destruct (nltb _ _); reflexivity. Qed.

Lemma velocity_swapGoalIfNeeded (a : RVOAgent T) :
  velocity (swapGoalIfNeeded a) = velocity a.
Proof. unfold swapGoalIfNeeded. destruct (nltb _ _); reflexivity. Qed.

Lemma maxSpeed_swapGoalIfNeeded (a : RVOAgent T) :
  maxSpeed (swapGoalIfNeeded a) = maxSpeed a.
Proof. unfold swapGoalIfNeeded. destruct (nltb _ _); reflexivity. Qed.

Lemma Forall2_integrate (R : RVOAgent T -> RVOAgent T -> Prop)
    (g : RVOAgent T * Vector2 T -> RVOAgent T) :
  (forall a v, R a (g (swapGoalIfNeeded a, v))) ->
  forall (l : list (RVOAgent T)) (vels : list (Vector2 T)),
  length vels = length l ->
  Forall2 R l (map g (combine (map swapGoalIfNeeded l) vels)).
Proof.
  intros Hg. induction l as [|a l IH]; intros [|v vels] Hlen; cbn in *;
    try discriminate; constructor; auto.
Qed.

Lemma mapM_firstn {A B} (f : A -> option B) (k : nat) :
  forall (l : list A) (bs : list B),
  mapM f l = Some bs -> mapM f (firstn k l) = Some (firstn k bs).
Proof.
  induction k as [|k IH]; intros [|a l] bs; cbn; try (intros [= <-]; reflexivity).
  - intros _. reflexivity.
  - destruct (f a) as [b|]; cbn; [|discriminate].
    destruct (mapM f l) as [bs'|] eqn:E; cbn; [|discriminate].
    intros [= <-]. rewrite (IH l bs' E). reflexivity.
Qed.

Lemma map_velocity_integrate (dt : T) :
  forall (l : list (RVOAgent T)) (vels : list (Vector2 T)),
  length vels = length l ->
  map velocity
    (map (fun '(a, v) => integrate dt (withPreferred a) v) (combine l vels))
  = vels.
Proof.
  induction l as [|a l IH]; intros [|v vels] Hlen; cbn in *;
    try discriminate; [reflexivity|].
  f_equal. apply IH. lia.
Qed.

End UpdateClaims.

(** C9: a call of [update] with [deltaTime <= 0], or on an empty agent set,
    returns the model unchanged; a call that advances integrates every
    position with the step [min(deltaTime, 0.05)], and [deltaTime] enters
    the result through that minimum only. *)
Theorem update_noop_and_step {T : Type} `{Number T}
    (deltaTime : T) (this : RVOModel T) :
  ((deltaTime <=? nofZ 0)%num = true \/ agents this = [] ->
   update deltaTime this = Some this)
  /\ ((deltaTime <=? nofZ 0)%num = false -> agents this <> [] ->
      exists this',
        update deltaTime this = Some this'
        /\ Forall2
             (fun a a' =>
                position a'
                = Vector2.add (position a)
                    (Vector2.mult (velocity a')
                       (nmin deltaTime (dec 5 100))))
             (agents this) (agents this')
        /\ forall deltaTime' : T,
             (deltaTime' <=? nofZ 0)%num = false ->
             nmin deltaTime' (dec 5 100) = nmin deltaTime (dec 5 100) ->
             update deltaTime' this = update deltaTime this).
Proof.
  split.
  - intros [Hdt | Hnil]; unfold update.
    + rewrite Hdt. reflexivity.
    + rewrite Hnil. cbn. rewrite orb_true_r. reflexivity.
  - intros Hdt Hne.
    destruct (update_advance deltaTime this Hdt Hne)
      as (table & vels & _ & _ & Hvels & Hup).
    eexists; split; [exact Hup|]. split.
    + cbn [agents]. apply Forall2_integrate.
      * intros a v. cbn. rewrite position_swapGoalIfNeeded. reflexivity.
      * rewrite (mapM_length _ _ _ Hvels), length_seq, length_map.
        reflexivity.
    + intros deltaTime' Hdt' Hmin. unfold update.
      rewrite Hdt, Hdt', Hmin. reflexivity.
Qed.

(** The call [update(0.016)] on two agents advances them with the step
    0.016. *)
Lemma update_noop_and_step_witness :
  exists this',
    update (dec 16 1000) (Sample.headOn (T := PrimFloat.float)) = Some this'
    /\ Forall2
         (fun a a' =>
            position a'
            = Vector2.add (position a)
                (Vector2.mult (velocity a')
                   (nmin (dec 16 1000) (dec 5 100))))
         (agents Sample.headOn) (agents this')
    /\ forall deltaTime' : PrimFloat.float,
         (deltaTime' <=? nofZ 0)%num = false ->
         nmin deltaTime' (dec 5 100) = nmin (dec 16 1000) (dec 5 100) ->
         update deltaTime' Sample.headOn = update (dec 16 1000) Sample.headOn.
Proof.
  apply (proj2 (update_noop_and_step (dec 16 1000) Sample.headOn)).
  - vm_compute. reflexivity.
  - discriminate.
Defined.

(** *** The draws of the methods *)

Section Draws.
Context {T : Type} `{Number T}.






End Draws.

Section TwoPhaseClaim.
Context {T : Type} `{Number T}.

Lemma firstn_seq_le (k : nat) :
  forall s n : nat, k <= n -> firstn k (seq s n) = seq s k.
Proof.
  induction k as [|k IH]; intros s [|n] Hk; cbn; try lia; try reflexivity.
  f_equal. apply IH. lia.
Qed.

Lemma map_position_withPreferred (l : list (RVOAgent T)) :
  map position (map withPreferred l) = map position l.
Proof. rewrite map_map. reflexivity. Qed.

Lemma map_velocity_withPreferred (l : list (RVOAgent T)) :
  map velocity (map withPreferred l) = map velocity l.
Proof. rewrite map_map. reflexivity. Qed.

Lemma map_position_swap (l : list (RVOAgent T)) :
  map position (map swapGoalIfNeeded l) = map position l.
Proof.
  rewrite map_map. apply map_ext. apply position_swapGoalIfNeeded.
Qed.

Lemma map_velocity_swap (l : list (RVOAgent T)) :
  map velocity (map swapGoalIfNeeded l) = map velocity l.
Proof.
  rewrite map_map. apply map_ext. apply velocity_swapGoalIfNeeded.
Qed.

End TwoPhaseClaim.

(** C8: in a call of [update] that advances, the velocities are computed
    into the separate array [newVelocities] from a snapshot of the agents
    that has their positions and velocities of before the call: after any
    number [k] of calls of the [map] callback, the shared array still has
    every position and velocity of before the call, and the velocities
    computed so far are those the snapshot determines; only then are the
    velocities stored and the positions integrated. *)
Theorem update_two_phase {T : Type} `{Number T}
    (deltaTime : T) (this : RVOModel T) :
  (deltaTime <=? nofZ 0)%num = false -> agents this <> [] ->
  let snapshot := map swapGoalIfNeeded (agents this) in
  let dt := stepOf deltaTime in
  exists table vels this',
    buildNeighborTable snapshot (neighborRadiusSqOf this) = Some table
    /\ map position snapshot = map position (agents this)
    /\ map velocity snapshot = map velocity (agents this)
    /\ mapM (newVelocity snapshot table (invTimeHorizonOf this) dt)
         (seq 0 (length snapshot)) = Some vels
    /\ (forall k, k <= length snapshot ->
        exists store,
          forM (seq 0 k) (snapshot, [])
            (velocityCallback table (invTimeHorizonOf this) dt)
          = Some (store, firstn k vels)
          /\ map position store = map position (agents this)
          /\ map velocity store = map velocity (agents this))
    /\ update deltaTime this = Some this'
    /\ map velocity (agents this') = vels.
Proof.
  intros Hdt Hne snapshot dt.
  destruct (update_advance deltaTime this Hdt Hne)
    as (table & vels & Htable & Hvalid & Hvels & Hup).
  fold snapshot dt in Htable, Hvalid, Hvels, Hup.
  assert (Hlen : length vels = length snapshot).
  { rewrite (mapM_length _ _ _ Hvels). apply length_seq. }
  exists table, vels. eexists.
  split; [exact Htable|].
  split; [apply map_position_swap|].
  split; [apply map_velocity_swap|].
  split; [exact Hvels|].
  split; [|split; [exact Hup|]].
  - intros k Hk.
    exists (map withPreferred (firstn k snapshot) ++ skipn k snapshot).
    rewrite (velocityPhase_prefix snapshot table (invTimeHorizonOf this) dt
               k (firstn k snapshot) (skipn k snapshot))
      by (rewrite ?firstn_skipn, ?length_firstn; auto; lia).
    pose proof (mapM_firstn _ k _ _ Hvels) as Hk'.
    rewrite firstn_seq_le in Hk' by exact Hk.
    rewrite Hk'; cbn [bind]. split; [reflexivity|].
    rewrite !map_app, map_position_withPreferred,
      map_velocity_withPreferred, <- !map_app, firstn_skipn.
    split; [apply map_position_swap|apply map_velocity_swap].
  - cbn [agents]. apply map_velocity_integrate. exact Hlen.
Qed.

(** The two agents of the head-on sample, with [update(0.016)]. *)
Lemma update_two_phase_witness :
  let this := Sample.headOn (T := PrimFloat.float) in
  let snapshot := map swapGoalIfNeeded (agents this) in
  let dt := stepOf (dec 16 1000) in
  exists table vels this',
    buildNeighborTable snapshot (neighborRadiusSqOf this) = Some table
    /\ map position snapshot = map position (agents this)
    /\ map velocity snapshot = map velocity (agents this)
    /\ mapM (newVelocity snapshot table (invTimeHorizonOf this) dt)
         (seq 0 (length snapshot)) = Some vels
    /\ (forall k, k <= length snapshot ->
        exists store,
          forM (seq 0 k) (snapshot, [])
            (velocityCallback table (invTimeHorizonOf this) dt)
          = Some (store, firstn k vels)
          /\ map position store = map position (agents this)
          /\ map velocity store = map velocity (agents this))
    /\ update (dec 16 1000) this = Some this'
    /\ map velocity (agents this') = vels.
Proof.
  apply (update_two_phase (dec 16 1000) Sample.headOn).
  - vm_compute. reflexivity.
  - discriminate.
Defined.

(* ------------------------------------------------------------------ *)
(** ** Real arithmetic *)

Local Open Scope R_scope.

Lemma Rltb_spec (a b : R) : BoolSpec (a < b) (b <= a) (RealNum.ltb a b).
Proof.
unfold RealNum.ltb. destruct (Rlt_dec a b); constructor; lra.
Qed.

Lemma Rleb_spec (a b : R) : BoolSpec (a <= b) (b < a) (RealNum.leb a b).
Proof.
unfold RealNum.leb. destruct (Rle_dec a b); constructor; lra.
Qed.

Lemma Reqb_spec (a b : R) : BoolSpec (a = b) (a <> b) (RealNum.eqb a b).
Proof.
unfold RealNum.eqb. destruct (Req_dec_T a b); constructor; assumption.
Qed.

(** Unfold the arithmetic of the interface at the instance [R_Number]. *)
Ltac rnum :=
  unfold dec, hypot in *;
  cbn [nofZ nadd nsub nmul ndiv nopp nsqrt nabs nmin nmax nltb nleb neqb
       R_Number] in *.

(** Decide the comparisons of the goal, one after the other. *)
Ltac rcase :=
  match goal with
  | |- context [RealNum.ltb ?a ?b] => destruct (Rltb_spec a b)
  | |- context [RealNum.leb ?a ?b] => destruct (Rleb_spec a b)
  | |- context [RealNum.eqb ?a ?b] => destruct (Reqb_spec a b)
  end.

Lemma sqrt_sq_sum (a b : R) : sqrt (a * a + b * b) * sqrt (a * a + b * b)
                              = a * a + b * b.
Proof. apply sqrt_sqrt. nra. Qed.

Lemma mag_sq (v : Vector2 R) : Vector2.mag v * Vector2.mag v = absSq v.
Proof. unfold Vector2.mag, absSq. rnum. apply sqrt_sq_sum. Qed.

Lemma mag_nonneg (v : Vector2 R) : 0 <= Vector2.mag v.
Proof. unfold Vector2.mag. rnum. apply sqrt_pos. Qed.

Lemma absSq_nonneg (v : Vector2 R) : 0 <= absSq v.
Proof. unfold absSq. rnum. nra. Qed.

Lemma absSq_mult (v : Vector2 R) (s : R) :
  absSq (Vector2.mult v s) = s * s * absSq v.
Proof. unfold absSq, Vector2.mult. rnum. cbn. ring. Qed.

(** A vector that is not the origin is normalised to a unit vector. *)
Lemma absSq_normalize (v : Vector2 R) :
  Vector2.mag v <> 0 -> absSq (Vector2.normalize v) = 1.
Proof.
intros Hm. unfold Vector2.normalize. rnum. rcase; [contradiction|].
rewrite absSq_mult, <- mag_sq. field. assumption.
Qed.

Lemma absSq_normalize_cases (v : Vector2 R) :
  absSq (Vector2.normalize v) = 1
  \/ (Vector2.mag v = 0 /\ Vector2.normalize v = Vector2.zero).
Proof.
destruct (Req_dec_T (Vector2.mag v) 0) as [Hz | Hnz].
- right. split; [assumption|]. unfold Vector2.normalize. rnum.
  rcase; [reflexivity|contradiction].
- left. apply absSq_normalize. assumption.
Qed.

Lemma mag_of_absSq (v : Vector2 R) (m : R) :
  0 <= m -> absSq v = m * m -> Vector2.mag v = m.
Proof.
intros Hm Hsq. unfold Vector2.mag. rnum. unfold absSq in Hsq. rnum.
rewrite Hsq. apply sqrt_square. assumption.
Qed.

(** [limit] bounds the magnitude by a non-negative [max]. *)
Lemma mag_limit (w : Vector2 R) (max : R) :
  0 <= max -> Vector2.mag (Vector2.limit w max) <= max.
Proof.
intros Hmax. unfold Vector2.limit. rnum. rcase; [assumption|].
assert (Hnz : Vector2.mag w <> 0) by lra.
rewrite (mag_of_absSq _ max Hmax); [lra|].
rewrite absSq_mult, (absSq_normalize _ Hnz). ring.
Qed.

(* ------------------------------------------------------------------ *)
(** ** The speed bound *)

Lemma In_combine_nth {A B} (l1 : list A) :
  forall (l2 : list B) (a : A) (b : B),
  In (a, b) (combine l1 l2) ->
  exists i, nth_error l1 i = Some a /\ nth_error l2 i = Some b.
Proof.
induction l1 as [|a1 l1 IH]; intros [|b1 l2] a b Hin; cbn in Hin;
  try contradiction.
destruct Hin as [[= <- <-] | Hin].
- exists 0%nat. split; reflexivity.
- destruct (IH l2 a b Hin) as (i & H1 & H2). exists (S i). split; assumption.
Qed.

Lemma nth_error_seq_lt (n i : nat) :
  (i < n)%nat -> nth_error (seq 0 n) i = Some i.
Proof.
intros Hi. rewrite nth_error_nth' with (d := 0%nat) by (rewrite length_seq; lia).
rewrite seq_nth by lia. reflexivity.
Qed.

(** Every velocity the first phase computes is the [limit] of some vector
    by the speed of its agent. *)
Lemma newVelocities_limited {T : Type} `{Number T}
    (snapshot : list (RVOAgent T))
    (table : list (list (NeighborRef T))) (invTimeHorizon dt : T)
    (vels : list (Vector2 T)) :
  tableValid (length snapshot) table ->
  mapM (newVelocity snapshot table invTimeHorizon dt)
    (seq 0 (length snapshot)) = Some vels ->
  forall a v, In (a, v) (combine snapshot vels) ->
  exists w, v = Vector2.limit w (maxSpeed a).
Proof.
intros Hvalid Hvels a v Hin.
destruct (In_combine_nth _ _ _ _ Hin) as (i & Ha & Hv).
assert (Hi : (i < length snapshot)%nat).
{ apply nth_error_Some. rewrite Ha. discriminate. }
destruct (mapM_nth _ _ _ i i Hvels (nth_error_seq_lt _ _ Hi))
  as (v' & Hv' & Hnew).
destruct (newVelocity_total snapshot table invTimeHorizon dt i Hvalid Hi)
  as (a' & w & Ha' & Hw).
exists w. congruence.
Qed.

(** C2: after a call of [update] that advances ([deltaTime > 0], at least one
    agent), the magnitude of every agent's velocity is at most the agent's
    maximum speed; the maximum speeds are non-negative, as the data model
    has them.  In real arithmetic the bound holds without a tolerance. *)
Theorem update_speed_bound (deltaTime : R) (this : RVOModel R) :
  0 < deltaTime -> agents this <> [] ->
  Forall (fun a => 0 <= maxSpeed a) (agents this) ->
  exists this',
    update deltaTime this = Some this'
    /\ map maxSpeed (agents this') = map maxSpeed (agents this)
    /\ Forall (fun a => Vector2.mag (velocity a) <= maxSpeed a)
         (agents this').
Proof.
intros Hdt Hne Hspeed.
assert (Hdt' : (deltaTime <=? nofZ 0)%num = false).
{ rnum. rcase; [lra|reflexivity]. }
destruct (update_advance deltaTime this Hdt' Hne)
  as (table & vels & _ & Hvalid & Hvels & Hup).
eexists. split; [exact Hup|]. cbn [agents].
assert (Hlen : length vels = length (agents this)).
{ rewrite (mapM_length _ _ _ Hvels), length_seq, length_map. reflexivity. }
split.
- clear - Hlen. revert vels Hlen.
  induction (agents this) as [|a l IH]; intros [|v vels] Hlen; cbn in *;
    try discriminate; [reflexivity|].
  rewrite maxSpeed_swapGoalIfNeeded. f_equal. apply IH. lia.
- apply Forall_forall. intros a' Ha'.
  apply in_map_iff in Ha' as ([a v] & <- & Hin).
  destruct (newVelocities_limited _ _ _ _ _ Hvalid Hvels a v Hin)
    as (w & ->).
  cbn. apply mag_limit.
  apply in_combine_l, in_map_iff in Hin as (a0 & <- & Ha0).
  rewrite maxSpeed_swapGoalIfNeeded.
  rewrite Forall_forall in Hspeed. apply Hspeed. assumption.
Qed.

(** The head-on sample, in real arithmetic, with [update(0.016)]. *)
Lemma update_speed_bound_witness :
  exists this',
    update (dec 16 1000) (Sample.headOn (T := R)) = Some this'
    /\ map maxSpeed (agents this') = map maxSpeed (agents Sample.headOn)
    /\ Forall (fun a => Vector2.mag (velocity a) <= maxSpeed a)
         (agents this').
Proof.
apply (update_speed_bound (dec 16 1000) Sample.headOn).
- rnum. lra.
- discriminate.
- repeat constructor; cbn; rnum; lra.
Defined.

(* ------------------------------------------------------------------ *)
(** ** The agents of [createCircleScenario] *)

(** The scenario gives every agent a positive preferred speed and a maximum
    speed above it, for draws of [Math.random] that are not negative. *)
Lemma createCircleScenario_speeds (random : nat -> R) (this : RVOModel R) :
  (forall i, 0 <= random i) ->
  Forall (fun a => 0 < preferredSpeed a /\ preferredSpeed a <= maxSpeed a)
    (agents (createCircleScenario random this)).
Proof.
intros Hrandom. unfold createCircleScenario.
destruct (_ || _); cbn [agents]; [constructor|].
apply Forall_forall. intros a Ha. apply in_map_iff in Ha as (i & <- & _).
specialize (Hrandom i). unfold circleAgent, pixelsPerMeter.
cbn [preferredSpeed maxSpeed]. rnum. lra.
Qed.


(* ------------------------------------------------------------------ *)
(** ** Ticks and the draws of [Math.random] *)

Local Close Scope R_scope.



Local Open Scope R_scope.

(* ------------------------------------------------------------------ *)
(** ** The single-line solve *)

(** The parameters of a line that lie in the disk are those between the two
    roots. *)
Lemma pointAt_in_disk (line : OrcaLine R) (radius t : R) :
  absSq (direction line) = 1 ->
  let dotProduct := Vector2.dot (point line) (direction line) in
  let discriminant :=
    dotProduct * dotProduct + radius * radius - absSq (point line) in
  0 <= discriminant ->
  (absSq (pointAt line t) <= radius * radius
   <-> - dotProduct - sqrt discriminant <= t
       /\ t <= - dotProduct + sqrt discriminant).
Proof.
destruct line as [[px py] [dx dy]].
unfold pointAt, absSq, Vector2.dot, Vector2.add, Vector2.mult; cbn; rnum.
intros Hunit Hdisc.
set (dp := px * dx + py * dy) in *.
set (disc := dp * dp + radius * radius - (px * px + py * py)) in *.
pose proof (sqrt_pos disc) as Hs.
pose proof (sqrt_sqrt disc Hdisc) as Hss.
set (s := sqrt disc) in *.
assert (Hexp : (px + dx * t) * (px + dx * t) + (py + dy * t) * (py + dy * t)
               - radius * radius
               = (t + dp) * (t + dp) - s * s).
{ rewrite Hss. unfold disc, dp.
  replace ((px + dx * t) * (px + dx * t) + (py + dy * t) * (py + dy * t))
    with (px * px + py * py + 2 * t * (px * dx + py * dy)
          + t * t * (dx * dx + dy * dy)) by ring.
  rewrite Hunit. ring. }
split.
- intros Hin. split; nra.
- intros [Hl Hr]. nra.
Qed.

(** How the squared distance to a point varies along a line. *)
Lemma pointAt_distance (line : OrcaLine R) (opt : Vector2 R) (s t : R) :
  absSq (direction line) = 1 ->
  let t0 := Vector2.dot (direction line) (Vector2.sub opt (point line)) in
  absSq (Vector2.sub (pointAt line s) opt)
  - absSq (Vector2.sub (pointAt line t) opt)
  = (s - t) * (s + t - 2 * t0).
Proof.
destruct line as [[px py] [dx dy]], opt as [ox oy].
unfold pointAt, absSq, Vector2.dot, Vector2.add, Vector2.mult, Vector2.sub;
  cbn; rnum.
intros Hunit.
replace ((px + dx * s - ox) * (px + dx * s - ox)
         + (py + dy * s - oy) * (py + dy * s - oy)
         - ((px + dx * t - ox) * (px + dx * t - ox)
            + (py + dy * t - oy) * (py + dy * t - oy)))
  with ((s - t) * ((s + t) * (dx * dx + dy * dy)
                   - 2 * (dx * (ox - px) + dy * (oy - py)))) by ring.
rewrite Hunit. ring.
Qed.

Lemma clamp_cases (t lo hi : R) :
  lo <= hi ->
  lo <= clamp t lo hi <= hi
  /\ ((t < lo /\ clamp t lo hi = lo)
      \/ (hi < t /\ clamp t lo hi = hi)
      \/ (lo <= t <= hi /\ clamp t lo hi = t)).
Proof.
intros Hle. unfold clamp. rnum. repeat rcase; split; lra.
Qed.

(** C4: the single-line solve for line 0, in point-optimisation mode.  With
    a negative discriminant it reports failure and returns the candidate it
    was given.  Otherwise it succeeds with the point of the line whose
    parameter is that of the foot of the preferred velocity, clamped to the
    interval between the two roots; for a unit direction that point lies in
    the disk of radius [radius] and no point of the line in the disk is
    closer to the preferred velocity. *)
Theorem linearProgram1_single_line (line : OrcaLine R)
    (rest : list (OrcaLine R)) (radius : R) (optVelocity result : Vector2 R) :
  let dotProduct := Vector2.dot (point line) (direction line) in
  let discriminant :=
    dotProduct * dotProduct + radius * radius - absSq (point line) in
  let tLeft := - dotProduct - sqrt discriminant in
  let tRight := - dotProduct + sqrt discriminant in
  let t :=
    clamp (Vector2.dot (direction line)
             (Vector2.sub optVelocity (point line))) tLeft tRight in
  (discriminant < 0 ->
   linearProgram1 (line :: rest) 0 radius optVelocity false result
   = Some (mkSolved1 false result))
  /\ (0 <= discriminant ->
      linearProgram1 (line :: rest) 0 radius optVelocity false result
      = Some (mkSolved1 true (pointAt line t))
      /\ (absSq (direction line) = 1 ->
          absSq (pointAt line t) <= radius * radius
          /\ forall s : R,
               absSq (pointAt line s) <= radius * radius ->
               absSq (Vector2.sub (pointAt line t) optVelocity)
               <= absSq (Vector2.sub (pointAt line s) optVelocity))).
Proof.
intros dotProduct discriminant tLeft tRight t.
assert (Hlp :
  linearProgram1 (line :: rest) 0 radius optVelocity false result
  = if RealNum.ltb discriminant 0 then Some (mkSolved1 false result)
    else Some (mkSolved1 true (pointAt line t))).
{ unfold linearProgram1. cbn [nth_error bind firstn lp1Clip]. rnum.
  fold dotProduct. fold discriminant.
  destruct (RealNum.ltb discriminant 0); [reflexivity|].
  fold tLeft tRight. unfold t, clamp, pointAt. rnum.
  repeat rcase; reflexivity. }
split.
- intros Hneg. rewrite Hlp. rcase; [reflexivity|lra].
- intros Hdisc. split.
  + rewrite Hlp. rcase; [lra|reflexivity].
  + intros Hunit.
    assert (Hle : tLeft <= tRight).
    { unfold tLeft, tRight. pose proof (sqrt_pos discriminant). lra. }
    destruct (clamp_cases
                (Vector2.dot (direction line)
                   (Vector2.sub optVelocity (point line))) tLeft tRight Hle)
      as (Hin & Hcases).
    fold t in Hin, Hcases.
    split.
    * apply (pointAt_in_disk line radius t Hunit Hdisc). exact Hin.
    * intros s Hs.
      apply (pointAt_in_disk line radius s Hunit Hdisc) in Hs.
      fold dotProduct discriminant tLeft tRight in Hs.
      pose proof (pointAt_distance line optVelocity s t Hunit) as Hd.
      cbv zeta in Hd.
      set (fs := absSq (Vector2.sub (pointAt line s) optVelocity)) in *.
      set (ft := absSq (Vector2.sub (pointAt line t) optVelocity)) in *.
      set (t0 := Vector2.dot (direction line)
                   (Vector2.sub optVelocity (point line))) in *.
      clearbody fs ft t0 t tLeft tRight.
      destruct Hcases as [[H1 H2] | [[H1 H2] | [H1 H2]]].
      { assert (0 <= (s - t) * (s + t - 2 * t0)) by
          (apply Rmult_le_pos; lra). lra. }
      { replace ((s - t) * (s + t - 2 * t0))
          with ((t - s) * (2 * t0 - s - t)) in Hd by ring.
        assert (0 <= (t - s) * (2 * t0 - s - t)) by
          (apply Rmult_le_pos; lra). lra. }
      { rewrite <- H2 in Hd.
        replace ((s - t) * (s + t - 2 * t)) with (Rsqr (s - t)) in Hd
          by (unfold Rsqr; ring).
        pose proof (Rle_0_sqr (s - t)). lra. }
Qed.

(** The line through (0, 3) along the x axis, the disk of radius 5 and the
    preferred velocity (1, 0): the discriminant is 16. *)
Lemma linearProgram1_single_line_witness :
  let line := mkOrcaLine (mkVector2 0 3) (mkVector2 1 0) in
  let optVelocity := mkVector2 1 0 in
  let t := clamp 1 (- 0 - sqrt 16) (- 0 + sqrt 16) in
  linearProgram1 [line] 0 5 optVelocity false Vector2.zero
  = Some (mkSolved1 true (pointAt line t))
  /\ absSq (pointAt line t) <= 5 * 5
  /\ forall s : R,
       absSq (pointAt line s) <= 5 * 5 ->
       absSq (Vector2.sub (pointAt line t) optVelocity)
       <= absSq (Vector2.sub (pointAt line s) optVelocity).
Proof.
intros line optVelocity t.
pose proof (proj2 (linearProgram1_single_line line [] 5 optVelocity
                     Vector2.zero)) as Hw.
cbv zeta in Hw. unfold absSq, Vector2.dot, Vector2.sub in Hw.
cbn [point direction line optVelocity x y] in Hw. rnum.
replace (0 * 1 + 3 * 0) with 0 in Hw by ring.
replace (0 * 0 + 5 * 5 - (0 * 0 + 3 * 3)) with 16 in Hw by ring.
replace (1 * (1 - 0) + 0 * (0 - 3)) with 1 in Hw by ring.
destruct Hw as (Hrun & Hgeo); [lra|].
split; [exact Hrun|]. apply Hgeo. ring.
Defined.

(* ------------------------------------------------------------------ *)
(** ** The constraint builder *)

Lemma EPSILON_pos : 0 < EPSILON (T := R).
Proof. unfold EPSILON. rnum. lra. Qed.

(** [ensureDirection] returns a unit vector: the fallback (1, 0) for a
    degenerate argument, and the normalised argument otherwise. *)
Lemma ensureDirection_spec (dir : Vector2 R) :
  absSq (ensureDirection dir) = 1
  /\ (absSq dir <= EPSILON -> ensureDirection dir = mkVector2 1 0)
  /\ (EPSILON < absSq dir -> ensureDirection dir = Vector2.normalize dir).
Proof.
pose proof EPSILON_pos as Heps.
unfold ensureDirection. cbn [nleb R_Number nofZ]. rcase.
- split; [unfold absSq; cbn; rnum; ring|]. split; [reflexivity|lra].
- split; [|split; [lra|reflexivity]].
  apply absSq_normalize. intros Hz.
  pose proof (mag_sq dir) as Hsq. rewrite Hz in Hsq. lra.
Qed.

Lemma absSq_zero : absSq (T := R) Vector2.zero = 0.
Proof. unfold absSq, Vector2.zero. cbn [x y]. rnum. ring. Qed.

Lemma sub_self (p : Vector2 R) : Vector2.sub p p = Vector2.zero.
Proof. unfold Vector2.sub, Vector2.zero. rnum. f_equal; ring. Qed.

Lemma mult_zero (s : R) : Vector2.mult Vector2.zero s = Vector2.zero.
Proof. unfold Vector2.mult, Vector2.zero. cbn. rnum. f_equal; ring. Qed.

Lemma sub_zero (v : Vector2 R) : Vector2.sub v Vector2.zero = v.
Proof.
destruct v as [vx vy]. unfold Vector2.sub, Vector2.zero. cbn. rnum.
f_equal; ring.
Qed.

Lemma normalize_zero : Vector2.normalize (T := R) Vector2.zero = Vector2.zero.
Proof.
unfold Vector2.normalize, Vector2.mag, Vector2.zero. cbn. rnum.
replace (0 * 0 + 0 * 0) with 0 by ring. rewrite sqrt_0.
rcase; [reflexivity|contradiction].
Qed.

Lemma ensureDirection_perp_zero :
  ensureDirection (perp (T := R) Vector2.zero) = mkVector2 1 0.
Proof.
apply ensureDirection_spec. pose proof EPSILON_pos.
unfold absSq, perp, Vector2.zero. cbn. rnum. lra.
Qed.

(** C6, as amended: [appendAgentConstraint] returns for every pair of
    agents, with one line appended.  In any arithmetic, binary64 included,
    the direction of that line is the fallback (1, 0) when the direction the
    branches computed has squared length at most 1e-5, and that direction
    normalised (multiplied by 1 over its magnitude) otherwise.  In real
    arithmetic the direction of the line has squared length exactly 1, and a
    pair with zero relative displacement (and a relative speed of at most
    1e-5) gets the fallback.  Exact unit length holds in real arithmetic
    only: in binary64 the normalised direction is computed with rounding,
    and its squared length need not be 1. *)
Theorem appendAgentConstraint_unit_direction :
  (forall (T : Type) (N : Number T) (agent other : RVOAgent T)
          (lines : list (OrcaLine T)) (invTimeHorizon dt : T),
     let dir := fst (constraintVectors agent other invTimeHorizon dt) in
     exists line : OrcaLine T,
       appendAgentConstraint agent other lines invTimeHorizon dt
       = lines ++ [line]
       /\ ((absSq dir <=? EPSILON)%num = true ->
           direction line = mkVector2 (nofZ 1) (nofZ 0))
       /\ ((absSq dir <=? EPSILON)%num = false ->
           direction line = Vector2.normalize dir))
  /\ (forall (agent other : RVOAgent R) (lines : list (OrcaLine R))
             (invTimeHorizon dt : R),
        let dir := fst (constraintVectors agent other invTimeHorizon dt) in
        exists line : OrcaLine R,
          appendAgentConstraint agent other lines invTimeHorizon dt
          = lines ++ [line]
          /\ absSq (direction line) = 1
          /\ (absSq dir <= EPSILON -> direction line = mkVector2 1 0)
          /\ (EPSILON < absSq dir ->
              direction line = Vector2.normalize dir)
          /\ (position other = position agent ->
              Vector2.mag (Vector2.sub (velocity agent) (velocity other))
              <= EPSILON ->
              direction line = mkVector2 1 0)).
Proof.
split.
- intros T N agent other lines invTimeHorizon dt dir.
  unfold appendAgentConstraint. subst dir.
  destruct (constraintVectors agent other invTimeHorizon dt) as [dir u].
  eexists. split; [reflexivity|]. cbn [direction fst].
  unfold ensureDirection. split; intros ->; reflexivity.
- intros agent other lines invTimeHorizon dt dir.
  unfold appendAgentConstraint. subst dir.
  destruct (constraintVectors agent other invTimeHorizon dt) as [dir u]
    eqn:Hdu.
  eexists. split; [reflexivity|]. cbn [direction fst].
  split; [apply ensureDirection_spec|].
  split; [apply ensureDirection_spec|].
  split; [apply ensureDirection_spec|].
  intros Hpos Hvel. revert Hdu. unfold constraintVectors.
  rewrite Hpos, sub_self. rnum. rcase.
  + exfalso.
    match goal with
    | Hlt : ?c * ?c < absSq Vector2.zero |- _ =>
        rewrite absSq_zero in Hlt; pose proof (Rle_0_sqr c) as Hsq;
        unfold Rsqr in Hsq; lra
    end.
  + rewrite mult_zero, sub_zero.
    change (sqrt (x (Vector2.sub (velocity agent) (velocity other))
                  * x (Vector2.sub (velocity agent) (velocity other))
                  + y (Vector2.sub (velocity agent) (velocity other))
                    * y (Vector2.sub (velocity agent) (velocity other))))
      with (Vector2.mag (Vector2.sub (velocity agent) (velocity other))).
    rcase; [lra|].
    rewrite normalize_zero. intros [= <- _].
    apply ensureDirection_perp_zero.
Qed.

Lemma mag_zero : Vector2.mag (T := R) Vector2.zero = 0.
Proof.
unfold Vector2.mag, Vector2.zero. cbn [x y]. rnum.
replace (0 * 0 + 0 * 0) with 0 by ring. apply sqrt_0.
Qed.

(** An agent paired with an agent at the same place and velocity, in real
    arithmetic; and the pair at rest at (0, 0) and (30, 40) in binary64,
    whose computed direction is not degenerate. *)
Lemma appendAgentConstraint_unit_direction_witness :
  (exists line : OrcaLine R,
     appendAgentConstraint Sample.agentA Sample.agentA [] (dec 4 10)
       (dec 5 100) = [line]
     /\ direction line = mkVector2 1 0
     /\ absSq (direction line) = 1)
  /\ (exists line : OrcaLine PrimFloat.float,
        appendAgentConstraint (Sample.agentAtPoint 0 0)
          (Sample.agentAtPoint 30 40) [] (dec 4 10) (dec 5 100) = [line]
        /\ direction line
           = Vector2.normalize
               (fst (constraintVectors (Sample.agentAtPoint 0 0)
                       (Sample.agentAtPoint 30 40) (dec 4 10) (dec 5 100)))).
Proof.
split.
- destruct (proj2 appendAgentConstraint_unit_direction Sample.agentA
              Sample.agentA [] (dec 4 10) (dec 5 100))
    as (line & Heq & Hunit & _ & _ & Hzero).
  exists line. split; [exact Heq|]. split; [|exact Hunit].
  apply Hzero; [reflexivity|].
  rewrite sub_self, mag_zero. apply Rlt_le, EPSILON_pos.
- destruct (proj1 appendAgentConstraint_unit_direction PrimFloat.float _
              (Sample.agentAtPoint 0 0) (Sample.agentAtPoint 30 40) []
              (dec 4 10) (dec 5 100))
    as (line & Heq & _ & Hnormal).
  exists line. split; [exact Heq|].
  apply Hnormal. vm_compute. reflexivity.
Defined.

(** The zero-displacement pair in binary64: the builder returns, with the
    fallback direction. *)
Example appendAgentConstraint_zero_displacement_float :
  map direction
    (appendAgentConstraint (T := PrimFloat.float) Sample.agentA Sample.agentA
       [] (dec 4 10) (dec 5 100))
  = [mkVector2 (nofZ 1) (nofZ 0)].
Proof. vm_compute. reflexivity. Qed.

(** C6, as stated, fails in binary64: the direction of a line can be a
    normalised vector whose squared length is not 1.  Two agents at rest at
    (0, 0) and (30, 40), with the radius 15.4 of the scenario, are 50 apart
    and do not overlap; with [invTimeHorizon = 0.4] the cut-off branch has
    [w = (-12, -16)] of length 20, and [unitW = w * (1 / 20)] is
    (-0.6000000000000001, -0.8), because the double nearest to 1/20 lies
    above it and 12 times it rounds up.  The direction computed is
    [perp(unitW)] = (0.8, -0.6000000000000001); its squared length is above
    1e-5 and its magnitude rounds to 1, so [ensureDirection] returns it
    unchanged.  The squared length of the direction of the line is
    1 + 2^-52. *)
Lemma appendAgentConstraint_direction_not_unit :
  let agent := Sample.agentAtPoint (T := PrimFloat.float) 0 0 in
  let other := Sample.agentAtPoint (T := PrimFloat.float) 30 40 in
  let dir := fst (constraintVectors agent other (dec 4 10) (dec 5 100)) in
  exists line : OrcaLine PrimFloat.float,
    appendAgentConstraint agent other [] (dec 4 10) (dec 5 100) = [line]
    /\ (absSq dir <=? EPSILON)%num = false
    /\ direction line
       = mkVector2 (dec 8 10) (- (nofZ 3 * dec 2 10))%num
    /\ absSq (direction line)
       = (nofZ 1 + dec 1 4503599627370496)%num
    /\ (absSq (direction line) =? nofZ 1)%num = false
    /\ (nofZ 1 <? absSq (direction line))%num = true.
Proof.
intros agent other dir. eexists. split; [reflexivity|].
repeat split; vm_compute; reflexivity.
Qed.

(* ------------------------------------------------------------------ *)
(** ** The projection of lines in [linearProgram3] *)

(** C7, as amended: for a violated line [line], each earlier line [other]
    is projected as follows.  When the two are parallel (the absolute cross
    product of the directions is at most 1e-5) and point the same way
    (positive dot product), [other] contributes nothing.  When they are
    parallel and opposed, the new point is the midpoint of the two points.
    Otherwise the new point is the intersection of the two lines, by the
    two-line formula.  The new direction is the normalised difference of the
    directions, and the inner solve is [linearProgram2] on the projected
    lines, in direction mode, along the perpendicular of [line]. *)
Theorem lp3_projection (line other : OrcaLine R)
    (others projLines : list (OrcaLine R)) :
  let determinant := det (direction line) (direction other) in
  let dir :=
    Vector2.normalize (Vector2.sub (direction other) (direction line)) in
  (Rabs determinant <= EPSILON ->
   0 < Vector2.dot (direction line) (direction other) ->
   lp3Project line (other :: others) projLines
   = lp3Project line others projLines)
  /\ (Rabs determinant <= EPSILON ->
      Vector2.dot (direction line) (direction other) <= 0 ->
      lp3Project line (other :: others) projLines
      = lp3Project line others
          (projLines
           ++ [mkOrcaLine
                 (Vector2.mult (Vector2.add (point line) (point other))
                    (dec 5 10)) dir]))
  /\ (EPSILON < Rabs determinant ->
      let P :=
        pointAt line
          (det (direction other) (Vector2.sub (point line) (point other))
           / determinant) in
      lp3Project line (other :: others) projLines
      = lp3Project line others (projLines ++ [mkOrcaLine P dir])
      /\ det (direction line) (Vector2.sub P (point line)) = 0
      /\ det (direction other) (Vector2.sub P (point other)) = 0)
  /\ (forall (lines rest : list (OrcaLine R)) (numObstLines i : nat)
             (radius distance : R) (result : Vector2 R),
        distance < det (direction line) (Vector2.sub (point line) result) ->
        let projected :=
          lp3Project line (slice numObstLines i lines)
            (slice 0 numObstLines lines) in
        lp3Loop lines numObstLines radius (line :: rest) i result distance
        = (lp2 <- linearProgram2 projected radius (perp (direction line))
                    true ;;
           let result' :=
             if (lineFail lp2 <? length projected)%nat then result
             else result2 lp2 in
           lp3Loop lines numObstLines radius rest (S i) result'
             (det (direction line) (Vector2.sub (point line) result')))).
Proof.
intros determinant dir.
split; [|split; [|split]].
- intros Hpar Hdot. cbn [lp3Project]. rnum. fold determinant.
  repeat rcase; first [reflexivity | lra].
- intros Hpar Hdot. cbn [lp3Project]. rnum. fold determinant.
  repeat rcase; first [reflexivity | lra].
- intros Hnpar P. split; [|split].
  + cbn [lp3Project]. rnum. fold determinant.
    repeat rcase; first [reflexivity | lra].
  + unfold P, pointAt. destruct line as [[px py] [dx dy]].
    unfold det, Vector2.sub, Vector2.add, Vector2.mult. cbn. rnum. ring.
  + assert (Hnz : determinant <> 0).
    { intros Hz. rewrite Hz, Rabs_R0 in Hnpar.
      pose proof EPSILON_pos. lra. }
    revert Hnz. unfold P, pointAt, determinant.
    destruct line as [[px py] [dx dy]], other as [[qx qy] [ex ey]].
    unfold det, Vector2.sub, Vector2.add, Vector2.mult. cbn. rnum.
    intros Hnz. field. exact Hnz.
- intros lines rest numObstLines i radius distance result Hviol projected.
  cbn [lp3Loop]. rnum. rcase; [|lra]. reflexivity.
Qed.

(** Two lines along the x axis, one through the origin and one through
    (0, 2): parallel and pointing the same way. *)
Lemma lp3_projection_witness :
  let line := mkOrcaLine (mkVector2 0 0) (mkVector2 1 0) in
  let other := mkOrcaLine (mkVector2 0 2) (mkVector2 1 0) in
  lp3Project line [other] [] = [].
Proof.
intros line other.
apply (proj1 (lp3_projection line other [] [])).
- cbn. rnum. replace (1 * 0 - 0 * 1) with 0 by ring. rewrite Rabs_R0.
  apply Rlt_le, EPSILON_pos.
- cbn. rnum. lra.
Defined.

(** C7, as stated, fails: two parallel lines that do not oppose each other
    (here they have the same direction) are not merged into their midpoint
    (0, 1); the pair is skipped and no projected line is produced. *)
Lemma lp3_same_direction_not_merged :
  let line := mkOrcaLine (mkVector2 0 0) (mkVector2 1 0) in
  let other := mkOrcaLine (mkVector2 0 2) (mkVector2 1 0) in
  Rabs (det (direction line) (direction other)) <= EPSILON
  /\ 0 < Vector2.dot (direction line) (direction other)
  /\ ~ (exists dir : Vector2 R,
          lp3Project line [other] []
          = [mkOrcaLine
               (Vector2.mult (Vector2.add (point line) (point other))
                  (dec 5 10)) dir]).
Proof.
intros line other.
assert (Hpar : Rabs (det (direction line) (direction other)) <= EPSILON).
{ cbn. rnum. replace (1 * 0 - 0 * 1) with 0 by ring. rewrite Rabs_R0.
  apply Rlt_le, EPSILON_pos. }
assert (Hdot : 0 < Vector2.dot (direction line) (direction other)).
{ cbn. rnum. lra. }
split; [exact Hpar|]. split; [exact Hdot|].
intros (dir & Hrun). revert Hrun.
cbn [lp3Project]. rnum.
repeat rcase; first [discriminate | lra].
Qed.

(* ------------------------------------------------------------------ *)
(** ** The full solve: what [lineFail] and the returned velocity are *)

Section FullSolve.
Context {T : Type} `{Number T}.

Lemma skipn_cons_nth {A} (l : list A) :
  forall (i : nat) (a : A) (rest : list A),
  skipn i l = a :: rest ->
  nth_error l i = Some a /\ skipn (S i) l = rest.
Proof.
induction l as [|b l IH]; intros [|i] a rest; cbn; try discriminate.
- intros [= -> ->]. split; reflexivity.
- intros Hs. apply IH. exact Hs.
Qed.

Lemma skipn_nil_length {A} (l : list A) :
  forall i : nat, (i <= length l)%nat -> skipn i l = [] -> i = length l.
Proof.
induction l as [|b l IH]; intros [|i]; cbn; try discriminate; auto.
- intros Hle. lia.
- intros Hle Hs. f_equal. apply IH; [lia|exact Hs].
Qed.

(** A failed single-line solve hands back the candidate it was given. *)
Lemma linearProgram1_failure (lines : list (OrcaLine T)) (lineNo : nat)
    (radius : T) (optVelocity : Vector2 T) (directionOpt : bool)
    (result : Vector2 T) (s : Solved1 T) :
  linearProgram1 lines lineNo radius optVelocity directionOpt result = Some s ->
  success s = false -> s = mkSolved1 false result.
Proof.
unfold linearProgram1.
destruct (nth_error lines lineNo) as [line|]; cbn [bind]; [|discriminate].
destruct (nltb _ _); [intros [= <-]; reflexivity|].
destruct (lp1Clip _ _ _ _); intros [= <-]; [reflexivity|discriminate].
Qed.

Lemma lp2Loop_run (lines : list (OrcaLine T)) (radius : T)
    (optVelocity : Vector2 T) (directionOpt : bool) :
  forall (rest : list (OrcaLine T)) (i : nat) (c : Vector2 T),
  (i <= length lines)%nat -> skipn i lines = rest ->
  Lp2Run lines radius optVelocity directionOpt i c ->
  exists s,
    lp2Loop lines radius optVelocity directionOpt rest i c = Some s
    /\ ((lineFail s = length lines
         /\ Lp2Run lines radius optVelocity directionOpt (length lines)
              (result2 s))
        \/ ((lineFail s < length lines)%nat
            /\ Lp2Run lines radius optVelocity directionOpt (lineFail s)
                 (result2 s)
            /\ exists li,
                 nth_error lines (lineFail s) = Some li
                 /\ violates li (result2 s) = true
                 /\ linearProgram1 lines (lineFail s) radius optVelocity
                      directionOpt (result2 s)
                    = Some (mkSolved1 false (result2 s)))).
Proof.
induction rest as [|li rest IH]; intros i c Hle Hskip Hrun; cbn [lp2Loop].
- eexists. split; [reflexivity|]. left. cbn.
  rewrite <- (skipn_nil_length lines i Hle Hskip). split; [reflexivity|].
  exact Hrun.
- destruct (skipn_cons_nth lines i li rest Hskip) as (Hnth & Hskip').
  assert (Hlt : (i < length lines)%nat).
  { apply nth_error_Some. rewrite Hnth. discriminate. }
  change (nltb (nofZ 0)
            (det (direction li) (Vector2.sub (point li) c)))
    with (violates li c).
  destruct (violates li c) eqn:Hviol.
  + destruct (linearProgram1_total lines i radius optVelocity directionOpt
                c Hlt) as (s1 & Hs1).
    rewrite Hs1. cbn [bind].
    destruct (success s1) eqn:Hok; cbn [negb].
    * apply IH; [lia|exact Hskip'|].
      eapply Lp2Solve; [exact Hrun|exact Hnth|exact Hviol|].
      rewrite Hs1. destruct s1 as [ok r]. cbn in Hok. subst ok. reflexivity.
    * eexists. split; [reflexivity|]. right. cbn [lineFail result2].
      split; [exact Hlt|]. split; [exact Hrun|].
      exists li. split; [exact Hnth|]. split; [exact Hviol|].
      rewrite Hs1. f_equal.
      apply (linearProgram1_failure _ _ _ _ _ _ _ Hs1 Hok).
  + apply IH; [lia|exact Hskip'|].
    eapply Lp2Keep; [exact Hrun|exact Hnth|exact Hviol].
Qed.

Lemma linearProgram2_run (lines : list (OrcaLine T)) (radius : T)
    (optVelocity : Vector2 T) (directionOpt : bool) :
  exists s,
    linearProgram2 lines radius optVelocity directionOpt = Some s
    /\ ((lineFail s = length lines
         /\ Lp2Run lines radius optVelocity directionOpt (length lines)
              (result2 s))
        \/ ((lineFail s < length lines)%nat
            /\ Lp2Run lines radius optVelocity directionOpt (lineFail s)
                 (result2 s)
            /\ exists li,
                 nth_error lines (lineFail s) = Some li
                 /\ violates li (result2 s) = true
                 /\ linearProgram1 lines (lineFail s) radius optVelocity
                      directionOpt (result2 s)
                    = Some (mkSolved1 false (result2 s)))).
Proof.
unfold linearProgram2.
apply lp2Loop_run; [lia|reflexivity|]. apply Lp2Start.
Qed.

End FullSolve.

(* ------------------------------------------------------------------ *)
(** ** Feasibility of the velocity of a full solve *)







Lemma firstn_incl {A} (l : list A) :
  forall (k : nat) (a : A), In a (firstn k l) -> In a l.
Proof.
induction l as [|b l IH]; intros [|k] a; cbn; try contradiction.
intros [-> | Hin]; [left; reflexivity|right; eapply IH; eassumption].
Qed.

Lemma inDisk_initial (radius : R) (optVelocity : Vector2 R)
    (directionOpt : bool) :
  (directionOpt = true -> absSq optVelocity <= 1) ->
  inDisk radius (lp2Initial radius optVelocity directionOpt).
Proof.
intros Hopt. unfold inDisk, lp2Initial.
pose proof (Rle_0_sqr radius) as Hr. unfold Rsqr in Hr.
destruct directionOpt.
- rewrite absSq_mult. specialize (Hopt eq_refl).
  assert (0 <= radius * radius * (1 - absSq optVelocity))
    by (apply Rmult_le_pos; lra).
  lra.
- rnum. rcase; [|assumption].
  rewrite absSq_mult, absSq_normalize; [lra|].
  intros Hz. pose proof (mag_sq optVelocity) as Hsq. rewrite Hz in Hsq. lra.
Qed.


(* ------------------------------------------------------------------ *)
(** ** Evaluating the code on concrete reals *)

Lemma sqrt_eval (a b : R) : 0 <= b -> a = b * b -> sqrt a = b.
Proof. intros Hb ->. apply sqrt_square. exact Hb. Qed.

Lemma Rltb_true (a b : R) : a < b -> RealNum.ltb a b = true.
Proof. intros Hab. destruct (Rltb_spec a b); [reflexivity|lra]. Qed.

Lemma Rltb_false (a b : R) : b <= a -> RealNum.ltb a b = false.
Proof. intros Hab. destruct (Rltb_spec a b); [lra|reflexivity]. Qed.

Lemma Rleb_true (a b : R) : a <= b -> RealNum.leb a b = true.
Proof. intros Hab. destruct (Rleb_spec a b); [reflexivity|lra]. Qed.

Lemma Rleb_false (a b : R) : b < a -> RealNum.leb a b = false.
Proof. intros Hab. destruct (Rleb_spec a b); [lra|reflexivity]. Qed.

Lemma Reqb_true (a b : R) : a = b -> RealNum.eqb a b = true.
Proof. intros Hab. destruct (Reqb_spec a b); [reflexivity|lra]. Qed.

Lemma Reqb_false (a b : R) : a < b \/ b < a -> RealNum.eqb a b = false.
Proof. intros Hab. destruct (Reqb_spec a b); [lra|reflexivity]. Qed.

(** Unfold the program down to real arithmetic on a concrete input. *)
Ltac runfold :=
  cbv [linearProgram2 lp2Loop linearProgram1 lp1Clip linearProgram3 lp3Loop
       lp3Project slice skipn bind nth_error firstn length app
       Vector2.add Vector2.sub Vector2.mult Vector2.dot Vector2.mag
       Vector2.normalize Vector2.limit Vector2.dist Vector2.zero
       det absSq perp ensureDirection EPSILON dec hypot
       x y point direction success result1 lineFail result2 negb
       nofZ nadd nsub nmul ndiv nopp nsqrt nabs nmin nmax nltb nleb neqb
       R_Number].

(** An expression the comparisons can be decided on: arithmetic without a
    pending square root, branch, absolute value, minimum or maximum. *)
Ltac closed_arith a :=
  lazymatch a with
  | context [sqrt _] => fail
  | context [if _ then _ else _] => fail
  | context [Rabs _] => fail
  | context [Rmin _ _] => fail
  | context [Rmax _ _] => fail
  | _ => idtac
  end.

Ltac rsqrt_as a v :=
  let H := fresh in
  assert (H : a = v * v) by lra;
  rewrite (sqrt_eval a v ltac:(lra) H); clear H.

(** Evaluate one comparison, absolute value, minimum, maximum or square root
    of the goal whose arguments are closed arithmetic.  The square roots are
    those of the sample inputs. *)
Ltac rstep :=
  match goal with
  | |- context [RealNum.ltb ?a ?b] =>
      closed_arith a; closed_arith b;
      first [ (let H := fresh in
               assert (H : a < b) by lra;
               rewrite (Rltb_true a b H); clear H)
            | (let H := fresh in
               assert (H : b <= a) by lra;
               rewrite (Rltb_false a b H); clear H) ]
  | |- context [RealNum.leb ?a ?b] =>
      closed_arith a; closed_arith b;
      first [ (let H := fresh in
               assert (H : a <= b) by lra;
               rewrite (Rleb_true a b H); clear H)
            | (let H := fresh in
               assert (H : b < a) by lra;
               rewrite (Rleb_false a b H); clear H) ]
  | |- context [RealNum.eqb ?a ?b] =>
      closed_arith a; closed_arith b;
      first [ (let H := fresh in
               assert (H : a = b) by lra;
               rewrite (Reqb_true a b H); clear H)
            | (let H := fresh in
               assert (H : a < b \/ b < a) by lra;
               rewrite (Reqb_false a b H); clear H) ]
  | |- context [Rabs ?a] =>
      closed_arith a;
      first [ (let H := fresh in
               assert (H : 0 <= a) by lra;
               rewrite (Rabs_pos_eq a H); clear H)
            | (let H := fresh in
               assert (H : a <= 0) by lra;
               rewrite (Rabs_left1 a H); clear H) ]
  | |- context [Rmin ?a ?b] =>
      closed_arith a; closed_arith b;
      first [ (let H := fresh in
               assert (H : a <= b) by lra;
               rewrite (Rmin_left a b H); clear H)
            | (let H := fresh in
               assert (H : b <= a) by lra;
               rewrite (Rmin_right a b H); clear H) ]
  | |- context [Rmax ?a ?b] =>
      closed_arith a; closed_arith b;
      first [ (let H := fresh in
               assert (H : b <= a) by lra;
               rewrite (Rmax_left a b H); clear H)
            | (let H := fresh in
               assert (H : a <= b) by lra;
               rewrite (Rmax_right a b H); clear H) ]
  | |- context [sqrt ?a] =>
      closed_arith a;
      first [ rsqrt_as a 0 | rsqrt_as a 1 | rsqrt_as a 33 | rsqrt_as a 200
            | rsqrt_as a (825 / 10) | rsqrt_as a (132 / 10)
            | rsqrt_as a (2475 / 100) ]
  end; cbv beta iota delta [andb orb negb].

Ltac rdecide := repeat rstep.





(* ------------------------------------------------------------------ *)
(** ** Stable sorting by a real key *)

Section SortByKey.
Context {A : Type} (key : A -> R).

Local Abbreviation before := (keyBefore key).
Local Abbreviation le := (keyLe key).

Lemma before_spec (a b : A) :
  BoolSpec (key a < key b) (key b <= key a) (before a b).
Proof.
unfold keyBefore. destruct (Rltb_spec (key a - key b) 0); constructor; lra.
Qed.

Lemma sortInsert_In (a e : A) (l : list A) :
  In e (sortInsert before a l) <-> e = a \/ In e l.
Proof.
induction l as [|b l IH]; cbn.
- intuition.
- destruct (before b a); cbn; rewrite ?IH; intuition.
Qed.

Lemma sortBy_In (e : A) (l : list A) : In e (sortBy before l) <-> In e l.
Proof.
induction l as [|a l IH]; cbn; [tauto|].
rewrite sortInsert_In, IH. intuition.
Qed.

Lemma sortInsert_length (a : A) (l : list A) :
  length (sortInsert before a l) = S (length l).
Proof.
induction l as [|b l IH]; cbn; [reflexivity|].
destruct (before b a); cbn; [rewrite IH|]; reflexivity.
Qed.

Lemma sortBy_length (l : list A) : length (sortBy before l) = length l.
Proof.
induction l as [|a l IH]; cbn; [reflexivity|].
rewrite sortInsert_length, IH. reflexivity.
Qed.

Lemma sortInsert_sorted (a : A) (l : list A) :
  StronglySorted le l -> StronglySorted le (sortInsert before a l).
Proof.
induction 1 as [|b l Hl IH Hb]; cbn.
- constructor; [constructor|constructor].
- destruct (before_spec b a) as [Hlt | Hge].
  + constructor; [exact IH|].
    apply Forall_forall. intros e He. apply sortInsert_In in He.
    destruct He as [-> | He]; [unfold keyLe; lra|].
    rewrite Forall_forall in Hb. apply Hb. exact He.
  + constructor; [constructor; assumption|].
    constructor; [exact Hge|].
    apply Forall_forall. intros e He. rewrite Forall_forall in Hb.
    specialize (Hb e He). unfold keyLe in *. lra.
Qed.

Lemma sortBy_sorted (l : list A) : StronglySorted le (sortBy before l).
Proof.
induction l as [|a l IH]; cbn; [constructor|].
apply sortInsert_sorted. exact IH.
Qed.

Lemma sortBy_id (l : list A) : StronglySorted le l -> sortBy before l = l.
Proof.
induction 1 as [|a l Hl IH Ha]; cbn; [reflexivity|].
rewrite IH. destruct l as [|b l]; cbn; [reflexivity|].
inversion Ha as [|? ? Hab _]; subst.
destruct (before_spec b a) as [Hlt | Hge]; [unfold keyLe in Hab; lra|].
reflexivity.
Qed.

(** Inserting at the front of the equal keys and placing behind them
    commute. *)
Lemma sortInsert_placeLast (a x : A) (l : list A) :
  sortInsert before a (placeLast before x l)
  = placeLast before x (sortInsert before a l).
Proof.
induction l as [|e l IH]; cbn.
- destruct (before_spec x a); reflexivity.
- destruct (before_spec x e) as [Hxe | Hxe],
           (before_spec e a) as [Hea | Hea]; cbn.
  + destruct (before_spec x a); [|lra].
    destruct (before_spec e a); [|lra].
    destruct (before_spec x e); [|lra]. reflexivity.
  + destruct (before_spec x a) as [Hxa | Hxa]; cbn.
    * destruct (before_spec e a); [lra|]. reflexivity.
    * destruct (before_spec x e); [|lra]. reflexivity.
  + destruct (before_spec e a); [|lra].
    destruct (before_spec x e); [lra|]. rewrite IH. reflexivity.
  + destruct (before_spec e a); [lra|].
    destruct (before_spec x a); [lra|].
    destruct (before_spec x e); [lra|]. reflexivity.
Qed.

(** Sorting after a push places the pushed element. *)
Lemma sortBy_snoc (x : A) (l : list A) :
  sortBy before (l ++ [x]) = placeLast before x (sortBy before l).
Proof.
induction l as [|a l IH]; cbn; [reflexivity|].
rewrite IH. apply sortInsert_placeLast.
Qed.

Lemma placeLast_length (x : A) (l : list A) :
  length (placeLast before x l) = S (length l).
Proof.
induction l as [|e l IH]; cbn; [reflexivity|].
destruct (before x e); cbn; [|rewrite IH]; reflexivity.
Qed.

(** Only the first [k] elements decide the first [k] after a placement. *)
Lemma firstn_placeLast (x : A) (k : nat) :
  forall l : list A,
  firstn k (placeLast before x (firstn k l))
  = firstn k (placeLast before x l).
Proof.
induction k as [|k IH]; intros l; [reflexivity|].
destruct l as [|e l]; [reflexivity|]. cbn [firstn placeLast].
destruct (before x e).
- cbn [firstn]. f_equal.
  change (e :: firstn k l) with (firstn (S k) (e :: l)).
  rewrite firstn_firstn. f_equal. lia.
- cbn [firstn]. f_equal. apply IH.
Qed.

Lemma firstn_sorted (k : nat) :
  forall l : list A, StronglySorted le l -> StronglySorted le (firstn k l).
Proof.
induction k as [|k IH]; intros l Hl; [constructor|].
destruct Hl as [|a l Hl Ha]; [constructor|]. cbn.
constructor; [apply IH; exact Hl|].
apply Forall_forall. intros e He. rewrite Forall_forall in Ha. apply Ha.
eapply firstn_incl. exact He.
Qed.

Lemma sorted_app_le (l1 l2 : list A) :
  StronglySorted le (l1 ++ l2) ->
  forall a b, In a l1 -> In b l2 -> key a <= key b.
Proof.
induction l1 as [|e l1 IH]; cbn; intros Hs a b Ha Hb; [contradiction|].
inversion Hs as [|? ? Hs' He]; subst.
destruct Ha as [-> | Ha].
- rewrite Forall_forall in He. apply He. apply in_or_app. right. exact Hb.
- apply IH; assumption.
Qed.

Lemma removelast_firstn_length (l : list A) :
  removelast l = firstn (length l - 1) l.
Proof.
induction l as [|a l IH]; [reflexivity|].
cbn [length]. replace (S (length l) - 1)%nat with (length l) by lia.
destruct l as [|b l]; [reflexivity|].
cbn [removelast] in *. cbn [length firstn]. f_equal.
rewrite IH. cbn [length]. f_equal. lia.
Qed.

End SortByKey.

(* ------------------------------------------------------------------ *)
(** ** The neighbor table *)

Lemma byDistSq_key : @byDistSq R _ = keyBefore distSq.
Proof. reflexivity. Qed.

(** [insertNeighbor] keeps the [maxNeighbors] first of the sorted pushes. *)
Lemma insertNeighbor_spec (l : list (NeighborRef R)) (x : NeighborRef R) :
  insertNeighbor (firstn maxNeighbors (sortBy byDistSq l)) x
  = firstn maxNeighbors (sortBy byDistSq (l ++ [x])).
Proof.
unfold insertNeighbor.
change (fun a b : NeighborRef R => (distSq a - distSq b <? nofZ 0)%num)
  with (@byDistSq R _).
rewrite byDistSq_key.
set (before := keyBefore (distSq (T := R))).
set (L := firstn maxNeighbors (sortBy before l)).
assert (HL : StronglySorted (keyLe distSq) L).
{ apply (firstn_sorted distSq). apply (sortBy_sorted distSq). }
assert (Hlen : (length L <= maxNeighbors)%nat) by apply firstn_le_length.
assert (Hsorted : sortBy before (L ++ [x]) = placeLast before x L).
{ unfold before. rewrite (sortBy_snoc distSq), (sortBy_id distSq _ HL).
  reflexivity. }
rewrite Hsorted.
assert (Hgoal : firstn maxNeighbors (placeLast before x L)
                = firstn maxNeighbors (sortBy before (l ++ [x]))).
{ unfold L, before.
  rewrite (firstn_placeLast distSq), (sortBy_snoc distSq). reflexivity. }
rewrite <- Hgoal.
pose proof (placeLast_length distSq x L) as Hpl. fold before in Hpl.
destruct (Nat.ltb_spec maxNeighbors (length (placeLast before x L)))
  as [Hlt | Hge].
- rewrite removelast_firstn_length, Hpl. f_equal. lia.
- rewrite firstn_all2 by exact Hge. reflexivity.
Qed.

Lemma tableIs_ext (n : nat) (table : list (list (NeighborRef R)))
    (p q : nat -> list (NeighborRef R)) :
  (forall a, p a = q a) -> tableIs n table p -> tableIs n table q.
Proof.
intros Hpq [Hlen Hall]. split; [exact Hlen|].
intros a Ha. rewrite <- Hpq. apply Hall. exact Ha.
Qed.

(** One pair of the loops. *)
Lemma neighborPair_spec (agents : list (RVOAgent R)) (radiusSq : R)
    (table : list (list (NeighborRef R)))
    (pushed : nat -> list (NeighborRef R)) (i j : nat) :
  tableIs (length agents) table pushed ->
  (i < length agents)%nat -> (j < length agents)%nat -> i <> j ->
  exists table',
    neighborPair agents radiusSq i table j = Some table'
    /\ tableIs (length agents) table'
         (fun a => pushed a ++ pushedBy agents radiusSq a i j).
Proof.
intros [Hlen Hall] Hi Hj Hij.
unfold neighborPair, pushedBy, pairDistSq.
destruct (nth_error_some_lt agents i Hi) as (ai & ->).
destruct (nth_error_some_lt agents j Hj) as (aj & ->).
cbn [bind].
set (d := absSq (Vector2.sub (position ai) (position aj))).
destruct (nltb radiusSq d).
- exists table. split; [reflexivity|]. split; [exact Hlen|].
  intros a Ha. rewrite app_nil_r. apply Hall. exact Ha.
- unfold insertInto. rewrite (Hall i Hi). cbn [bind].
  rewrite insertNeighbor_spec. rewrite nth_error_setNth.
  destruct (Nat.eqb_spec i j) as [Heq | _]; [contradiction|].
  rewrite (Hall j Hj). cbn [bind]. rewrite insertNeighbor_spec.
  eexists. split; [reflexivity|]. split.
  + rewrite !setNth_length. exact Hlen.
  + intros a Ha. rewrite !nth_error_setNth.
    destruct (Nat.eqb_spec j a) as [<- | Hja].
    * destruct (Nat.eqb_spec i j) as [Heq | _]; [contradiction|].
      rewrite (Hall j Hj). cbn [option_map].
      destruct (Nat.eqb_spec j i) as [Heq | _]; [congruence|].
      rewrite Nat.eqb_refl. reflexivity.
    * destruct (Nat.eqb_spec i a) as [<- | Hia].
      -- rewrite (Hall i Hi). cbn [option_map].
         rewrite Nat.eqb_refl. reflexivity.
      -- rewrite (Hall a Ha).
         destruct (Nat.eqb_spec a i) as [Heq | _]; [congruence|].
         destruct (Nat.eqb_spec a j) as [Heq | _]; [congruence|].
         rewrite app_nil_r. reflexivity.
Qed.

(** The inner loop, for a fixed [i]. *)
Lemma neighborRow_spec (agents : list (RVOAgent R)) (radiusSq : R)
    (i : nat) :
  (i < length agents)%nat ->
  forall (js : list nat) (table : list (list (NeighborRef R)))
         (pushed : nat -> list (NeighborRef R)),
  Forall (fun j => (j < length agents)%nat /\ i <> j) js ->
  tableIs (length agents) table pushed ->
  exists table',
    forM js table (neighborPair agents radiusSq i) = Some table'
    /\ tableIs (length agents) table'
         (fun a => pushed a ++ flat_map (pushedBy agents radiusSq a i) js).
Proof.
intros Hi. induction js as [|j js IH]; intros table pushed Hjs Htable;
  cbn [forM flat_map].
- exists table. split; [reflexivity|].
  apply (tableIs_ext _ _ pushed); [|exact Htable].
  intros a. rewrite app_nil_r. reflexivity.
- inversion Hjs as [|? ? [Hj Hij] Hjs']; subst.
  destruct (neighborPair_spec agents radiusSq table pushed i j Htable Hi Hj
              Hij) as (table1 & -> & Htable1).
  cbn [bind].
  destruct (IH table1 _ Hjs' Htable1) as (table2 & Hrun & Htable2).
  exists table2. split; [exact Hrun|].
  apply (tableIs_ext _ _ _ _ (fun a => eq_sym (app_assoc _ _ _)) Htable2).
Qed.

(** The outer loop. *)
Lemma neighborRows_spec (agents : list (RVOAgent R)) (radiusSq : R) :
  forall (rows : list nat) (table : list (list (NeighborRef R)))
         (pushed : nat -> list (NeighborRef R)),
  Forall (fun i => (i < length agents)%nat) rows ->
  tableIs (length agents) table pushed ->
  exists table',
    forM rows table
      (fun table i =>
         forM (seq (i + 1) (length agents - (i + 1))) table
           (neighborPair agents radiusSq i))
    = Some table'
    /\ tableIs (length agents) table'
         (fun a =>
            pushed a
            ++ flat_map
                 (fun i =>
                    flat_map (pushedBy agents radiusSq a i)
                      (seq (i + 1) (length agents - (i + 1))))
                 rows).
Proof.
induction rows as [|i rows IH]; intros table pushed Hrows Htable;
  cbn [forM flat_map].
- exists table. split; [reflexivity|].
  apply (tableIs_ext _ _ pushed); [|exact Htable].
  intros a. rewrite app_nil_r. reflexivity.
- inversion Hrows as [|? ? Hi Hrows']; subst.
  destruct (neighborRow_spec agents radiusSq i Hi
              (seq (i + 1) (length agents - (i + 1))) table pushed)
    as (table1 & -> & Htable1); [|exact Htable|].
  { apply Forall_forall. intros j Hj. apply in_seq in Hj. lia. }
  cbn [bind].
  destruct (IH table1 _ Hrows' Htable1) as (table2 & Hrun & Htable2).
  exists table2. split; [exact Hrun|].
  apply (tableIs_ext _ _ _ _ (fun a => eq_sym (app_assoc _ _ _)) Htable2).
Qed.

(** The table is, for every agent, the [maxNeighbors] first of its stably
    sorted pushes. *)
Lemma buildNeighborTable_pushed (agents : list (RVOAgent R)) (radiusSq : R) :
  exists table,
    buildNeighborTable agents radiusSq = Some table
    /\ tableIs (length agents) table (pushedAll agents radiusSq).
Proof.
unfold buildNeighborTable.
destruct (neighborRows_spec agents radiusSq (seq 0 (length agents))
            (repeat [] (length agents)) (fun _ => []))
  as (table & Hrun & Htable).
- apply Forall_forall. intros i Hi. apply in_seq in Hi. lia.
- split; [apply repeat_length|]. intros a Ha.
  cbn [sortBy]. rewrite firstn_nil.
  apply nth_error_repeat. exact Ha.
- exists table. split; [exact Hrun|]. exact Htable.
Qed.

Lemma pairDistSq_sym (agents : list (RVOAgent R)) (i j : nat) :
  pairDistSq agents i j = pairDistSq agents j i.
Proof.
unfold pairDistSq.
destruct (nth_error agents i) as [[? [px py] ? ? ? ? ? ? ? ?]|],
         (nth_error agents j) as [[? [qx qy] ? ? ? ? ? ? ? ?]|];
  try reflexivity.
unfold absSq, Vector2.sub. cbn. rnum. ring.
Qed.

(** The pushes on the list of agent [a]: one for every other agent within
    the radius, boundary included. *)
Lemma pushedAll_In (agents : list (RVOAgent R)) (radiusSq : R) (a : nat)
    (e : NeighborRef R) :
  (a < length agents)%nat ->
  (In e (pushedAll agents radiusSq a)
   <-> exists j, (j < length agents)%nat /\ j <> a
                 /\ pairDistSq agents a j <= radiusSq
                 /\ e = mkNeighborRef j (pairDistSq agents a j)).
Proof.
intros Ha. unfold pushedAll. split.
- intros Hin. apply in_flat_map in Hin as (i & Hi & Hin).
  apply in_flat_map in Hin as (j & Hj & Hin).
  apply in_seq in Hi. apply in_seq in Hj.
  unfold pushedBy in Hin. revert Hin. rnum.
  destruct (Rltb_spec radiusSq (pairDistSq agents i j)) as [Hfar | Hnear];
    [intros []|].
  destruct (Nat.eqb_spec a i) as [-> | Hai].
  + intros [<- | []]. exists j. repeat split; try lia; exact Hnear.
  + destruct (Nat.eqb_spec a j) as [-> | Haj]; [|intros []].
    intros [<- | []]. exists i. rewrite (pairDistSq_sym agents j i).
    repeat split; try lia; exact Hnear.
- intros (j & Hj & Hja & Hnear & ->).
  destruct (Nat.lt_ge_cases a j) as [Hlt | Hge].
  + apply in_flat_map. exists a. split; [apply in_seq; lia|].
    apply in_flat_map. exists j. split; [apply in_seq; lia|].
    unfold pushedBy. rnum.
    destruct (Rltb_spec radiusSq (pairDistSq agents a j)); [lra|].
    rewrite Nat.eqb_refl. left. reflexivity.
  + apply in_flat_map. exists j. split; [apply in_seq; lia|].
    apply in_flat_map. exists a. split; [apply in_seq; lia|].
    unfold pushedBy. rnum. rewrite (pairDistSq_sym agents j a).
    destruct (Rltb_spec radiusSq (pairDistSq agents a j)); [lra|].
    destruct (Nat.eqb_spec a j) as [Heq | _]; [lia|].
    rewrite Nat.eqb_refl. left. reflexivity.
Qed.

(** C5, as amended: the neighbor table has one list per agent.  The list of
    agent [i] is sorted ascending by squared distance, has at most
    [maxNeighbors] entries, and every entry refers to another agent at a
    squared distance of at most [radiusSq] (the boundary included), with
    that distance recorded.  Every other agent [j] within that distance is
    in the list, unless the list is full and holds entries that are all at
    most as far as [j]; so a list that is not full holds exactly the other
    agents within the radius.  With no agents the table is empty. *)
Theorem buildNeighborTable_spec (agents : list (RVOAgent R)) (radiusSq : R) :
  exists table : list (list (NeighborRef R)),
    buildNeighborTable agents radiusSq = Some table
    /\ length table = length agents
    /\ (agents = [] -> table = [])
    /\ forall (i : nat) (lst : list (NeighborRef R)),
         nth_error table i = Some lst ->
         Sorted (fun a b => distSq a <= distSq b) lst
         /\ (length lst <= maxNeighbors)%nat
         /\ (forall e, In e lst ->
               index e <> i /\ (index e < length agents)%nat
               /\ distSq e = pairDistSq agents i (index e)
               /\ distSq e <= radiusSq)
         /\ (forall j, (j < length agents)%nat -> j <> i ->
               pairDistSq agents i j <= radiusSq ->
               In (mkNeighborRef j (pairDistSq agents i j)) lst
               \/ (length lst = maxNeighbors
                   /\ forall e, In e lst ->
                        distSq e <= pairDistSq agents i j))
         /\ ((length lst < maxNeighbors)%nat ->
             forall j, (j < length agents)%nat -> j <> i ->
               (pairDistSq agents i j <= radiusSq
                <-> exists e, In e lst /\ index e = j)).
Proof.
destruct (buildNeighborTable_pushed agents radiusSq)
  as (table & Hrun & Hlen & Hall).
exists table. split; [exact Hrun|]. split; [exact Hlen|]. split.
- intros ->. destruct table; [reflexivity|discriminate].
- intros i lst Hnth.
  assert (Hi : (i < length agents)%nat).
  { rewrite <- Hlen. apply nth_error_Some. rewrite Hnth. discriminate. }
  assert (Hlst : lst = firstn maxNeighbors
                          (sortBy byDistSq (pushedAll agents radiusSq i))).
  { rewrite (Hall i Hi) in Hnth. congruence. }
  subst lst. clear Hnth.
  rewrite byDistSq_key.
  set (before := keyBefore (distSq (T := R))).
  set (S := sortBy before (pushedAll agents radiusSq i)).
  assert (HS : StronglySorted (keyLe distSq) S)
    by apply (sortBy_sorted distSq).
  assert (Hmem : forall e, In e S <-> In e (pushedAll agents radiusSq i))
    by (intros e; apply (sortBy_In distSq)).
  assert (Hentries : forall e, In e (firstn maxNeighbors S) ->
            index e <> i /\ (index e < length agents)%nat
            /\ distSq e = pairDistSq agents i (index e)
            /\ distSq e <= radiusSq).
  { intros e He. apply firstn_incl in He. apply Hmem in He.
    apply (pushedAll_In agents radiusSq i e Hi) in He
      as (j & Hj & Hji & Hnear & ->).
    cbn [index distSq]. repeat split; assumption. }
  assert (Hnearest : forall j, (j < length agents)%nat -> j <> i ->
            pairDistSq agents i j <= radiusSq ->
            In (mkNeighborRef j (pairDistSq agents i j))
              (firstn maxNeighbors S)
            \/ (length (firstn maxNeighbors S) = maxNeighbors
                /\ forall e, In e (firstn maxNeighbors S) ->
                     distSq e <= pairDistSq agents i j)).
  { intros j Hj Hji Hnear.
    assert (Hin : In (mkNeighborRef j (pairDistSq agents i j)) S).
    { apply Hmem. apply (pushedAll_In agents radiusSq i _ Hi).
      exists j. repeat split; assumption. }
    rewrite <- (firstn_skipn maxNeighbors S) in Hin, HS.
    apply in_app_or in Hin as [Hin | Hin]; [left; exact Hin|].
    right. split.
    - apply firstn_length_le.
      destruct (Nat.le_gt_cases maxNeighbors (length S)) as [Hle | Hgt];
        [exact Hle|].
      rewrite skipn_all2 in Hin by lia. contradiction.
    - intros e He.
      apply (sorted_app_le distSq _ _ HS e
               (mkNeighborRef j (pairDistSq agents i j)) He Hin). }
  split; [|split; [|split; [|split]]].
  + apply StronglySorted_Sorted. apply (firstn_sorted distSq). exact HS.
  + apply firstn_le_length.
  + exact Hentries.
  + exact Hnearest.
  + intros Hroom j Hj Hji. split.
    * intros Hnear.
      destruct (Hnearest j Hj Hji Hnear) as [Hin | (Hfull & _)]; [|lia].
      eexists. split; [exact Hin|reflexivity].
    * intros (e & He & <-).
      destruct (Hentries e He) as (_ & _ & Hd & Hle).
      rewrite <- Hd. exact Hle.
Qed.

(** Unfold the neighbor table code down to real arithmetic. *)
Ltac runfold_table :=
  cbv [buildNeighborTable forM seq repeat neighborPair insertInto
       insertNeighbor sortBy sortInsert setNth removelast maxNeighbors
       pairDistSq bind nth_error length app Nat.ltb Nat.leb Nat.add Nat.sub
       Sample.boundaryPair Sample.agentAt Sample.vec position
       Vector2.sub absSq x y index distSq
       nofZ nadd nsub nmul ndiv nopp nltb nleb neqb R_Number].

(** The two agents of [Sample.boundaryPair], with the neighbor radius 3. *)
Lemma buildNeighborTable_spec_witness :
  exists table : list (list (NeighborRef R)),
    buildNeighborTable Sample.boundaryPair 9 = Some table
    /\ forall lst, nth_error table 0 = Some lst ->
         In (mkNeighborRef 1 (pairDistSq Sample.boundaryPair 0 1)) lst
         \/ length lst = maxNeighbors.
Proof.
destruct (buildNeighborTable_spec Sample.boundaryPair 9)
  as (table & Hrun & _ & _ & Hall).
exists table. split; [exact Hrun|]. intros lst Hlst.
destruct (Hall 0%nat lst Hlst) as (_ & _ & _ & Hnear & _).
destruct (Hnear 1%nat) as [Hin | (Hfull & _)].
- cbn. lia.
- discriminate.
- runfold_table. lra.
- left. exact Hin.
- right. exact Hfull.
Defined.

(** C5, as stated, fails.  Two agents at a squared distance equal to the
    squared radius, not strictly less, are in each other's list; and of
    twelve agents well within the radius of each other (in binary64, 10
    pixels apart for a radius of 220), agent 11 is not in the list of agent 0,
    which holds the ten nearest. *)
Lemma buildNeighborTable_boundary_and_eviction :
  (~ pairDistSq (T := R) Sample.boundaryPair 0 1 < 9
   /\ buildNeighborTable (T := R) Sample.boundaryPair 9
      = Some [[mkNeighborRef 1 9]; [mkNeighborRef 0 9]])
  /\ ((pairDistSq (T := PrimFloat.float) Sample.row12 0 11
       <? nofZ 220 * nofZ 220)%num = true
      /\ option_map (fun table => map index (nth 0 table []))
           (buildNeighborTable (T := PrimFloat.float) Sample.row12
              (nofZ 220 * nofZ 220)%num)
         = Some [1; 2; 3; 4; 5; 6; 7; 8; 9; 10]%nat).
Proof.
split; [split|split].
- runfold_table. lra.
- runfold_table. rdecide. repeat f_equal; lra.
- vm_compute. reflexivity.
- vm_compute. reflexivity.
Qed.

(* ------------------------------------------------------------------ *)
(** ** Two agents head-on *)

(** Equalities of evaluated results, component by component. *)
Ltac req :=
  repeat match goal with
         | |- Some _ = Some _ => apply f_equal
         | |- _ :: _ = _ :: _ => apply f_equal2
         | |- mkOrcaLine _ _ = mkOrcaLine _ _ => apply f_equal2
         | |- mkVector2 _ _ = mkVector2 _ _ => apply f_equal2
         | |- mkSolved2 _ _ = mkSolved2 _ _ => apply f_equal2
         | |- mkNeighborRef _ _ = mkNeighborRef _ _ => apply f_equal2
         end;
  try reflexivity; try lra; try (field; lra).

(** Unfold the per-agent code down to real arithmetic. *)
Ltac runfold_agent :=
  cbv [swapGoalIfNeeded computePreferredVelocity anchorAt
       appendAgentConstraint constraintVectors fst snd
       pixelsPerMeter agentRadiusMeters
       set_position set_velocity set_preferredVelocity set_headingIndex
       id position velocity preferredVelocity radius preferredSpeed maxSpeed
       anchors headingIndex color
       Sample.agentA Sample.agentB Sample.vec
       Vector2.add Vector2.sub Vector2.mult Vector2.dot Vector2.mag
       Vector2.normalize Vector2.limit Vector2.dist Vector2.zero
       det absSq perp ensureDirection EPSILON dec hypot app
       x y point direction
       nofZ nadd nsub nmul ndiv nopp nsqrt nabs nmin nmax nltb nleb neqb
       R_Number].

Lemma swap_agentA : swapGoalIfNeeded (T := R) Sample.agentA = Sample.agentA.
Proof. runfold_agent. rdecide. req. Qed.

Lemma swap_agentB : swapGoalIfNeeded (T := R) Sample.agentB = Sample.agentB.
Proof. runfold_agent. rdecide. req. Qed.

Lemma preferred_agentA :
  computePreferredVelocity (T := R) Sample.agentA = mkVector2 (825 / 10) 0.
Proof. runfold_agent. rdecide. req. Qed.

Lemma preferred_agentB :
  computePreferredVelocity (T := R) Sample.agentB = mkVector2 (- (825 / 10)) 0.
Proof. runfold_agent. rdecide. req. Qed.

Lemma constraint_agentA :
  appendAgentConstraint (T := R) Sample.agentA Sample.agentB [] (4 / 10)
    (5 / 100)
  = [mkOrcaLine (mkVector2 (44 / 100) 0) (mkVector2 0 (-1))].
Proof. runfold_agent. rdecide. req. Qed.

Lemma constraint_agentB :
  appendAgentConstraint (T := R) Sample.agentB Sample.agentA [] (4 / 10)
    (5 / 100)
  = [mkOrcaLine (mkVector2 (- (44 / 100)) 0) (mkVector2 0 1)].
Proof. runfold_agent. rdecide. req. Qed.

Lemma solve_agentA :
  solveVelocity [mkOrcaLine (mkVector2 (44 / 100) 0) (mkVector2 0 (-1))]
    Sample.agentA (mkVector2 (825 / 10) 0)
  = Some (mkVector2 (825 / 10) 0).
Proof.
unfold solveVelocity. cbv [maxSpeed Sample.agentA]. runfold.
rdecide. cbv [Nat.ltb Nat.leb]. rdecide. req.
Qed.

Lemma solve_agentB :
  solveVelocity [mkOrcaLine (mkVector2 (- (44 / 100)) 0) (mkVector2 0 1)]
    Sample.agentB (mkVector2 (- (825 / 10)) 0)
  = Some (mkVector2 (- (825 / 10)) 0).
Proof.
unfold solveVelocity. cbv [maxSpeed Sample.agentB]. runfold.
rdecide. cbv [Nat.ltb Nat.leb]. rdecide. req.
Qed.

Lemma step_headOn : stepOf (T := R) (dec 5 100) = 5 / 100.
Proof. unfold stepOf. runfold. cbv [nmin R_Number]. rdecide. lra. Qed.

Lemma horizon_headOn : invTimeHorizonOf (T := R) Sample.headOn = 4 / 10.
Proof.
unfold invTimeHorizonOf.
cbv [params Sample.headOn getParam orElse DEFAULTS_timeHorizon]. runfold.
rdecide. field.
Qed.

Ltac runfold_headOn_table :=
  cbv [neighborRadiusSqOf params Sample.headOn getParam orElse
       DEFAULTS_neighborRadius pixelsPerMeter
       buildNeighborTable forM seq repeat neighborPair insertInto
       insertNeighbor sortBy sortInsert setNth removelast maxNeighbors
       bind nth_error length app Nat.ltb Nat.leb Nat.add Nat.sub
       Sample.agentA Sample.agentB Sample.vec position
       Vector2.sub absSq x y index distSq
       nofZ nadd nsub nmul ndiv nopp nltb nleb neqb R_Number].

Lemma table_headOn :
  buildNeighborTable (T := R) [Sample.agentA; Sample.agentB]
    (neighborRadiusSqOf Sample.headOn)
  = Some [[mkNeighborRef 1 1089]; [mkNeighborRef 0 1089]].
Proof. runfold_headOn_table. rdecide. req. Qed.

Lemma newVelocity_agentA :
  newVelocity (T := R) [Sample.agentA; Sample.agentB]
    [[mkNeighborRef 1 1089]; [mkNeighborRef 0 1089]]
    (invTimeHorizonOf Sample.headOn) (stepOf (dec 5 100)) 0
  = Some (mkVector2 (825 / 10) 0).
Proof.
unfold newVelocity, collectLines.
cbn [nth_error bind forM index].
rewrite step_headOn, horizon_headOn, constraint_agentA, preferred_agentA.
apply solve_agentA.
Qed.

Lemma newVelocity_agentB :
  newVelocity (T := R) [Sample.agentA; Sample.agentB]
    [[mkNeighborRef 1 1089]; [mkNeighborRef 0 1089]]
    (invTimeHorizonOf Sample.headOn) (stepOf (dec 5 100)) 1
  = Some (mkVector2 (- (825 / 10)) 0).
Proof.
unfold newVelocity, collectLines.
cbn [nth_error bind forM index].
rewrite step_headOn, horizon_headOn, constraint_agentB, preferred_agentB.
apply solve_agentB.
Qed.

(** C1 fails on the code: the two agents of [Sample.headOn] start at rest,
    33 apart, more than the sum of their radii (30.8), each heading for a
    goal behind the other.  One call [update(0.05)] leaves them 24.75 apart:
    they overlap.  The constraint each builds for the other is the one of
    the cut-off circle, whose direction [perp(unitW)] makes the solver keep
    the velocities that approach the other agent by at least 0.44 and
    forbid the ones that do not. *)
Theorem head_on_collision_real :
  let this := Sample.headOn (T := R) in
  Sample.separation this = Some 33
  /\ radius Sample.agentA + radius Sample.agentB < 33
  /\ exists this',
       update (dec 5 100) this = Some this'
       /\ Sample.separation this' = Some (2475 / 100)
       /\ 2475 / 100
          < radius (T := R) Sample.agentA + radius Sample.agentB - EPSILON.
Proof.
intros this. split; [|split].
- unfold this. cbv [Sample.separation agents Sample.headOn]. runfold_agent.
  rdecide. req.
- runfold_agent. lra.
- assert (Hdt : (dec 5 100 <=? nofZ 0)%num = false).
  { runfold. rdecide. reflexivity. }
  assert (Hne : agents this <> []) by discriminate.
  destruct (update_advance (dec 5 100) this Hdt Hne)
    as (table & vels & Htable & _ & Hvels & Hup).
  cbv zeta in Htable, Hvels, Hup.
  change (agents this) with [Sample.agentA (T := R); Sample.agentB]
    in Htable, Hvels, Hup.
  cbn [map length seq mapM] in Htable, Hvels, Hup.
  rewrite swap_agentA, swap_agentB in Htable, Hvels, Hup.
  unfold this in Htable, Hvels. rewrite table_headOn in Htable.
  injection Htable as <-.
  rewrite newVelocity_agentA, newVelocity_agentB in Hvels.
  cbn [bind] in Hvels. injection Hvels as <-.
  eexists. split; [exact Hup|].
  rewrite step_headOn.
  split.
  + cbv [Sample.separation agents combine map integrate withPreferred].
    runfold_agent. rdecide. req.
  + runfold_agent. lra.
Qed.

(** The same tick in binary64. *)
Example head_on_collision_float :
  (this' <- update (dec 5 100) (Sample.headOn (T := PrimFloat.float)) ;;
   d <- Sample.separation this' ;;
   Some (d, (d <? radius (T := PrimFloat.float) Sample.agentA
                  + radius Sample.agentB - EPSILON)%num))
  = Some ((nofZ 2475 / nofZ 100)%num, true).
Proof. vm_compute. reflexivity. Qed.

(** Two agents that start 300 apart, as the scenario places them (each
    at its first anchor, heading for the other's), with the preferred speeds
    of the draws 0 and 0.5: after 263 calls of [update(0.05)], in binary64
    with [Math.hypot] as the rounded square root of the sum of squares,
    their centres are less than 2 pixels apart. *)
Example approach_collision_float :
  (this' <- Sample.ticks 263 (dec 5 100)
              (Sample.approach (T := PrimFloat.float)) ;;
   d <- Sample.separation this' ;;
   Some (d <? nofZ 2)%num)
  = Some true.
Proof. vm_compute. reflexivity. Qed.

(** The constraint agent A builds for agent B in that tick forbids A to
    stay at rest and permits its full preferred velocity towards B. *)
Lemma head_on_constraint_orientation :
  let line := mkOrcaLine (mkVector2 (44 / 100) 0) (mkVector2 0 (-1)) in
  appendAgentConstraint (T := R) Sample.agentA Sample.agentB [] (4 / 10)
    (5 / 100) = [line]
  /\ violates line Vector2.zero = true
  /\ violates line (mkVector2 (825 / 10) 0) = false.
Proof.
intros line. split; [apply constraint_agentA|].
unfold line, violates. split; runfold; rdecide; reflexivity.
Qed.

(* ------------------------------------------------------------------ *)
(** ** Further properties, in any arithmetic *)

Local Close Scope R_scope.

Section Frame.
Context {T : Type} `{Number T}.

Lemma map_integrate_identity (dt : T) (snapshot : list (RVOAgent T)) :
  forall vels : list (Vector2 T),
  length vels = length snapshot ->
  map identityOf
    (map (fun '(a, v) => integrate dt (withPreferred a) v)
       (combine snapshot vels))
  = map identityOf snapshot.
Proof.
  induction snapshot as [|a l IH]; intros [|v vels] Hlen; cbn in *;
    try discriminate; [reflexivity|].
  rewrite IH by lia. reflexivity.
Qed.

Lemma swapGoalIfNeeded_identity (a : RVOAgent T) :
  identityOf (swapGoalIfNeeded a) = identityOf a.
Proof. unfold swapGoalIfNeeded. destruct (_ <? _)%num; reflexivity. Qed.

(** [update] returns for every model and every [deltaTime], and what it
    returns has the size and the parameters of the model and agents with
    the [id], [radius], [preferredSpeed], [maxSpeed], [anchors] and
    [color] they had, in the same order: a tick assigns no other field than
    [position], [velocity], [preferredVelocity] and [headingIndex]. *)
Theorem update_frame (deltaTime : T) (this : RVOModel T) :
  exists this',
    update deltaTime this = Some this'
    /\ width this' = width this
    /\ height this' = height this
    /\ params this' = params this
    /\ map identityOf (agents this') = map identityOf (agents this).
Proof.
  destruct (deltaTime <=? nofZ 0)%num eqn:Hdt.
  { exists this. unfold update. rewrite Hdt. cbn. auto. }
  destruct (agents this) as [|a0 l0] eqn:Hags.
  { exists this. unfold update. rewrite Hdt, Hags. cbn. auto. }
  destruct (update_advance deltaTime this Hdt) as (table & vels & _ & _ & Hvels & Hup).
  { rewrite Hags; discriminate. }
  eexists. split; [exact Hup|]. cbn [width height params agents].
  repeat split.
  rewrite map_integrate_identity.
  - rewrite map_map, <- Hags. apply map_ext. intros a.
    apply swapGoalIfNeeded_identity.
  - rewrite (mapM_length _ _ _ Hvels). apply length_seq.
Qed.

Lemma getParam_app (p q : SimulationParameterValues T) (key : String.string) :
  getParam (p ++ q) key
  = match getParam p key with
    | Some v => Some v
    | None => getParam q key
    end.
Proof.
  induction p as [|[k v] p IH]; cbn; [reflexivity|].
  destruct (String.eqb k key); auto.
Qed.

(** [configure] merges the parameters: a key of [nextParams] reads as
    [nextParams] has it, every other key as before; the size and the agents
    are left alone. *)
Theorem configure_lookup (nextParams : SimulationParameterValues T)
    (this : RVOModel T) (key : String.string) :
  getParam (params (configure nextParams this)) key
  = match getParam nextParams key with
    | Some v => Some v
    | None => getParam (params this) key
    end
  /\ agents (configure nextParams this) = agents this
  /\ width (configure nextParams this) = width this
  /\ height (configure nextParams this) = height this.
Proof. split; [apply getParam_app|auto]. Qed.

(** Parameters other than [neighborRadius] and [timeHorizon] have no effect
    on a tick: configuring them before [update] or after it gives the same
    model. *)
Theorem update_configure_commute (nextParams : SimulationParameterValues T)
    (deltaTime : T) (this : RVOModel T) :
  getParam nextParams "neighborRadius" = None ->
  getParam nextParams "timeHorizon" = None ->
  update deltaTime (configure nextParams this)
  = option_map (configure nextParams) (update deltaTime this).
Proof.
  intros Hr Hh. unfold update, configure.
  cbn [agents params width height].
  rewrite !getParam_app, Hr, Hh.
  destruct (_ || _); [reflexivity|].
  cbv zeta.
  destruct (buildNeighborTable _ _) as [table|]; cbn [bind option_map];
    [|reflexivity].
  destruct (forM _ _ _) as [[ags vs]|]; cbn [bind option_map]; [|reflexivity].
  destruct (applyVelocities _ _ _); reflexivity.
Qed.


End Frame.

Lemma update_configure_commute_witness :
  update (T := PrimFloat.float) (dec 16 1000)
    (configure [("agentCount"%string, nofZ 64)] Sample.headOn)
  = option_map (configure [("agentCount"%string, nofZ 64)])
      (update (dec 16 1000) Sample.headOn).
Proof.
  apply (update_configure_commute (T := PrimFloat.float)); reflexivity.
Defined.

Section Unviolated.
Context {T : Type} `{Number T}.

Lemma lp2Loop_unviolated (lines : list (OrcaLine T)) (radius : T)
    (optVelocity : Vector2 T) (directionOpt : bool) (c : Vector2 T) :
  forall (rest : list (OrcaLine T)) (i : nat),
  Forall (fun line => violates line c = false) rest ->
  lp2Loop lines radius optVelocity directionOpt rest i c
  = Some (mkSolved2 (length lines) c).
Proof.
  induction rest as [|li rest IH]; intros i Hall; cbn [lp2Loop];
    [reflexivity|].
  inversion Hall as [|? ? Hli Hrest]; subst.
  unfold violates in Hli. rewrite Hli. apply IH, Hrest.
Qed.

(** A starting candidate that no line forbids is what [linearProgram2]
    returns, with [lineFail] the number of lines: no single-line solve
    runs. *)
Theorem linearProgram2_unviolated (lines : list (OrcaLine T)) (radius : T)
    (optVelocity : Vector2 T) (directionOpt : bool) :
  Forall
    (fun line =>
       violates line (lp2Initial radius optVelocity directionOpt) = false)
    lines ->
  linearProgram2 lines radius optVelocity directionOpt
  = Some (mkSolved2 (length lines)
            (lp2Initial radius optVelocity directionOpt)).
Proof.
  intros Hall. unfold linearProgram2.
  apply (lp2Loop_unviolated lines radius optVelocity directionOpt
           (lp2Initial radius optVelocity directionOpt) lines 0 Hall).
Qed.


Lemma lp3Loop_unviolated (lines : list (OrcaLine T)) (numObstLines : nat)
    (radius : T) (c : Vector2 T) :
  forall (rest : list (OrcaLine T)) (i : nat),
  Forall (fun line => violates line c = false) rest ->
  lp3Loop lines numObstLines radius rest i c (nofZ 0) = Some c.
Proof.
  induction rest as [|li rest IH]; intros i Hall; cbn [lp3Loop];
    [reflexivity|].
  inversion Hall as [|? ? Hli Hrest]; subst.
  unfold violates in Hli. rewrite Hli. apply IH, Hrest.
Qed.

(** [linearProgram3] returns [initialResult] itself when none of the lines
    from [beginLine] on forbids it, and so whenever [beginLine] is not
    below the number of lines. *)
Theorem linearProgram3_unviolated (lines : list (OrcaLine T))
    (numObstLines beginLine : nat) (radius : T) (initialResult : Vector2 T) :
  Forall (fun line => violates line initialResult = false)
    (skipn beginLine lines) ->
  linearProgram3 lines numObstLines beginLine radius initialResult
  = Some initialResult.
Proof.
  intros Hall. unfold linearProgram3. apply lp3Loop_unviolated, Hall.
Qed.


End Unviolated.

Lemma linearProgram2_unviolated_witness :
  linearProgram2 (T := PrimFloat.float)
    [mkOrcaLine (Sample.vec 0 1) (Sample.vec 1 0)] (nofZ 2)
    (Sample.vec 1 3) false
  = Some (mkSolved2 1
            (lp2Initial (nofZ 2) (Sample.vec 1 3) false)).
Proof.
  apply (linearProgram2_unviolated (T := PrimFloat.float)).
  repeat constructor.
Defined.

Lemma linearProgram3_unviolated_witness :
  linearProgram3 (T := PrimFloat.float)
    [mkOrcaLine (Sample.vec 0 (-1)) (Sample.vec 1 0);
     mkOrcaLine (Sample.vec 0 1) (Sample.vec 1 0)] 0 1 (nofZ 2)
    (Sample.vec 0 3)
  = Some (Sample.vec 0 3).
Proof.
  apply (linearProgram3_unviolated (T := PrimFloat.float)).
  repeat constructor.
Defined.

(* ------------------------------------------------------------------ *)
(** ** Further properties, in real arithmetic: Vector2 *)

Local Open Scope R_scope.

Lemma vec_eq (v w : Vector2 R) : x v = x w -> y v = y w -> v = w.
Proof. destruct v, w; cbn; intros -> ->; reflexivity. Qed.

Lemma absSq_eq0 (v : Vector2 R) : absSq v = 0 -> v = Vector2.zero.
Proof.
intros Hz. unfold absSq in Hz. rnum.
apply vec_eq; cbn; rnum; nra.
Qed.

Lemma mag_eq0 (v : Vector2 R) : Vector2.mag v = 0 -> v = Vector2.zero.
Proof. intros Hz. apply absSq_eq0. rewrite <- mag_sq, Hz. ring. Qed.

Lemma normalize_nonzero (v : Vector2 R) :
  Vector2.mag v <> 0 ->
  Vector2.normalize v = Vector2.mult v (1 / Vector2.mag v).
Proof.
intros Hm. unfold Vector2.normalize. rnum. rcase; [contradiction|reflexivity].
Qed.

Lemma normalize_of_zero_mag (v : Vector2 R) :
  Vector2.mag v = 0 -> Vector2.normalize v = Vector2.zero.
Proof.
intros Hm. unfold Vector2.normalize. rnum. rcase; [reflexivity|contradiction].
Qed.

Lemma mult_mult (v : Vector2 R) (a b : R) :
  Vector2.mult (Vector2.mult v a) b = Vector2.mult v (a * b).
Proof. apply vec_eq; cbn; rnum; ring. Qed.

Lemma mult_one (v : Vector2 R) : Vector2.mult v 1 = v.
Proof. apply vec_eq; cbn; rnum; ring. Qed.

Lemma mag_mult (v : Vector2 R) (s : R) :
  0 <= s -> Vector2.mag (Vector2.mult v s) = s * Vector2.mag v.
Proof.
intros Hs. apply mag_of_absSq.
- apply Rmult_le_pos; [assumption|apply mag_nonneg].
- rewrite absSq_mult, <- mag_sq. ring.
Qed.

Lemma limit_small (v : Vector2 R) (max : R) :
  Vector2.mag v <= max -> Vector2.limit v max = v.
Proof.
intros Hm. unfold Vector2.limit. rnum. rcase; [reflexivity|lra].
Qed.

Lemma limit_big (v : Vector2 R) (max : R) :
  max < Vector2.mag v ->
  Vector2.limit v max = Vector2.mult (Vector2.normalize v) max.
Proof.
intros Hm. unfold Vector2.limit. rnum. rcase; [lra|reflexivity].
Qed.

Lemma mag_normalize (v : Vector2 R) :
  Vector2.mag v <> 0 -> Vector2.mag (Vector2.normalize v) = 1.
Proof.
intros Hm. apply mag_of_absSq; [lra|].
rewrite (absSq_normalize v Hm). ring.
Qed.

(** [limit] with a non-negative bound: the magnitude becomes the smaller
    of the magnitude and the bound, the result is the vector scaled by a
    factor between 0 and 1, and limiting again changes nothing. *)
Theorem limit_spec (v : Vector2 R) (max : R) :
  0 <= max ->
  Vector2.mag (Vector2.limit v max) = Rmin (Vector2.mag v) max
  /\ Vector2.limit (Vector2.limit v max) max = Vector2.limit v max
  /\ exists k : R,
       0 <= k <= 1 /\ Vector2.limit v max = Vector2.mult v k.
Proof.
intros Hmax.
destruct (Rle_lt_dec (Vector2.mag v) max) as [Hle | Hlt].
- rewrite !(limit_small v max Hle), (Rmin_left _ _ Hle).
  split; [reflexivity|]. split; [reflexivity|].
  exists 1. split; [lra|]. symmetry. apply mult_one.
- pose proof (mag_nonneg v) as Hpos.
  assert (Hnz : Vector2.mag v <> 0) by lra.
  rewrite (limit_big v max Hlt), (Rmin_right _ _ (Rlt_le _ _ Hlt)).
  assert (Hmag : Vector2.mag (Vector2.mult (Vector2.normalize v) max) = max).
  { rewrite (mag_mult _ max Hmax), (mag_normalize v Hnz). ring. }
  split; [exact Hmag|]. split.
  + apply limit_small. rewrite Hmag. lra.
  + exists (max / Vector2.mag v). split.
    * split.
      -- apply Rmult_le_pos; [assumption|].
         apply Rlt_le, Rinv_0_lt_compat. lra.
      -- apply (Rmult_le_reg_r (Vector2.mag v)); [lra|].
         replace (max / Vector2.mag v * Vector2.mag v) with max
           by (field; assumption).
         lra.
    * rewrite (normalize_nonzero v Hnz), mult_mult. f_equal.
      field. assumption.
Qed.

Lemma limit_spec_witness :
  Vector2.mag (Vector2.limit (mkVector2 3 4) 1) = Rmin (Vector2.mag (mkVector2 3 4)) 1
  /\ Vector2.limit (Vector2.limit (mkVector2 3 4) 1) 1
     = Vector2.limit (mkVector2 3 4) 1
  /\ exists k : R,
       0 <= k <= 1
       /\ Vector2.limit (mkVector2 3 4) 1 = Vector2.mult (mkVector2 3 4) k.
Proof. apply (limit_spec (mkVector2 3 4) 1). lra. Defined.

(** [normalize] returns a unit vector, or the origin for the origin; it is
    idempotent, and scaling its result by the magnitude gives the vector
    back. *)
Theorem normalize_spec (v : Vector2 R) :
  (Vector2.mag (Vector2.normalize v) = 1
   \/ (v = Vector2.zero /\ Vector2.normalize v = Vector2.zero))
  /\ Vector2.normalize (Vector2.normalize v) = Vector2.normalize v
  /\ Vector2.mult (Vector2.normalize v) (Vector2.mag v) = v.
Proof.
destruct (Req_dec_T (Vector2.mag v) 0) as [Hz | Hnz].
- pose proof (mag_eq0 v Hz) as Hv.
  rewrite (normalize_of_zero_mag v Hz). split; [right; auto|].
  split; [apply normalize_zero|].
  rewrite mult_zero. symmetry. exact Hv.
- pose proof (mag_normalize v Hnz) as Hone. split; [left; exact Hone|]. split.
  + rewrite (normalize_nonzero (Vector2.normalize v)) by lra.
    rewrite Hone. replace (1 / 1) with 1 by field. apply mult_one.
  + rewrite (normalize_nonzero v Hnz), mult_mult.
    replace (1 / Vector2.mag v * Vector2.mag v) with 1 by (field; assumption).
    apply mult_one.
Qed.

Lemma absSq_sub_sym (a b : Vector2 R) :
  absSq (Vector2.sub a b) = absSq (Vector2.sub b a).
Proof. unfold absSq, Vector2.sub. cbn. rnum. ring. Qed.

Lemma mag_absSq_eq (v w : Vector2 R) :
  absSq v = absSq w -> Vector2.mag v = Vector2.mag w.
Proof.
intros Heq. apply mag_of_absSq; [apply mag_nonneg|].
rewrite Heq, mag_sq. reflexivity.
Qed.

(** Cauchy-Schwarz for [dot] and [mag]. *)
Lemma dot_le_mag (u v : Vector2 R) :
  Vector2.dot u v <= Vector2.mag u * Vector2.mag v.
Proof.
apply Rsqr_incr_0_var.
- unfold Rsqr.
  replace (Vector2.mag u * Vector2.mag v * (Vector2.mag u * Vector2.mag v))
    with ((Vector2.mag u * Vector2.mag u) * (Vector2.mag v * Vector2.mag v))
    by ring.
  rewrite !mag_sq. unfold absSq, Vector2.dot. rnum.
  pose proof (Rle_0_sqr (x u * y v - y u * x v)) as Hsq. unfold Rsqr in Hsq.
  lra.
- apply Rmult_le_pos; apply mag_nonneg.
Qed.

Lemma dist_sym (a b : Vector2 R) : Vector2.dist a b = Vector2.dist b a.
Proof. unfold Vector2.dist. apply mag_absSq_eq, absSq_sub_sym. Qed.

Lemma dist_triangle (a b c : Vector2 R) :
  Vector2.dist a c <= Vector2.dist a b + Vector2.dist b c.
Proof.
unfold Vector2.dist.
set (u := Vector2.sub a b). set (v := Vector2.sub b c).
apply Rsqr_incr_0_var.
- unfold Rsqr.
  replace ((Vector2.mag u + Vector2.mag v) * (Vector2.mag u + Vector2.mag v))
    with (Vector2.mag u * Vector2.mag u + Vector2.mag v * Vector2.mag v
          + 2 * (Vector2.mag u * Vector2.mag v)) by ring.
  rewrite !mag_sq.
  pose proof (dot_le_mag u v) as Hcs.
  assert (Hexp : absSq (Vector2.sub a c)
                 = absSq u + absSq v + 2 * Vector2.dot u v).
  { unfold u, v, absSq, Vector2.dot, Vector2.sub. cbn. rnum. ring. }
  lra.
- pose proof (mag_nonneg u). pose proof (mag_nonneg v). lra.
Qed.

(** [dist] is a metric: symmetric, zero exactly between equal points, and
    it satisfies the triangle inequality; [add] and [sub] undo each
    other. *)
Theorem dist_metric (a b c : Vector2 R) :
  Vector2.dist a b = Vector2.dist b a
  /\ 0 <= Vector2.dist a b
  /\ (Vector2.dist a b = 0 <-> a = b)
  /\ Vector2.dist a c <= Vector2.dist a b + Vector2.dist b c
  /\ Vector2.sub (Vector2.add a b) b = a
  /\ Vector2.add (Vector2.sub a b) b = a.
Proof.
split; [apply dist_sym|].
split; [apply mag_nonneg|].
split; [unfold Vector2.dist; split|].
- intros Hz. apply mag_eq0 in Hz.
  unfold Vector2.sub, Vector2.zero in Hz. rnum.
  injection Hz as Hx Hy. apply vec_eq; lra.
- intros ->. rewrite sub_self. apply mag_zero.
- split; [apply dist_triangle|split; apply vec_eq; cbn; rnum; ring].
Qed.

(* ------------------------------------------------------------------ *)
(** ** The preferred velocity, and an agent on its own *)

(** An agent less than one unit from its goal prefers to stand still.
    Otherwise its preferred velocity points at the goal, with the smaller
    of [preferredSpeed] and [maxSpeed] as its magnitude. *)
Theorem computePreferredVelocity_spec (agent : RVOAgent R) :
  0 <= preferredSpeed agent -> 0 <= maxSpeed agent ->
  let toGoal :=
    Vector2.sub (anchorAt agent (headingIndex agent)) (position agent) in
  let distance := Vector2.mag toGoal in
  let speed := Rmin (preferredSpeed agent) (maxSpeed agent) in
  (distance < 1 -> computePreferredVelocity agent = Vector2.zero)
  /\ (1 <= distance ->
      computePreferredVelocity agent = Vector2.mult toGoal (speed / distance)
      /\ Vector2.mag (computePreferredVelocity agent) = speed).
Proof.
intros Hps Hmax toGoal distance speed.
unfold computePreferredVelocity. fold toGoal. cbv zeta. fold distance.
rnum. rcase.
- split; [reflexivity|lra].
- split; [lra|]. intros _.
  assert (Hd : distance <> 0) by lra.
  assert (Hk : 0 <= 1 / distance * preferredSpeed agent).
  { apply Rmult_le_pos; [|assumption].
    unfold Rdiv. rewrite Rmult_1_l. apply Rlt_le, Rinv_0_lt_compat. lra. }
  rewrite mult_mult.
  set (w := Vector2.mult toGoal (1 / distance * preferredSpeed agent)).
  assert (Hw : Vector2.mag w = preferredSpeed agent).
  { unfold w. rewrite (mag_mult _ _ Hk). fold distance. field. assumption. }
  destruct (Rle_lt_dec (preferredSpeed agent) (maxSpeed agent)) as [Hle|Hlt].
  + rewrite (limit_small w (maxSpeed agent)) by lra.
    unfold speed. rewrite (Rmin_left _ _ Hle). split; [|exact Hw].
    unfold w. f_equal. field. assumption.
  + rewrite (limit_big w (maxSpeed agent)) by lra.
    unfold speed. rewrite (Rmin_right _ _ (Rlt_le _ _ Hlt)).
    assert (Hnz : Vector2.mag w <> 0) by lra.
    split.
    * rewrite (normalize_nonzero w Hnz), Hw. unfold w.
      rewrite !mult_mult. f_equal. field. split; lra.
    * rewrite (mag_mult _ _ Hmax), (mag_normalize w Hnz). ring.
Qed.

Lemma mag_vec_x (a : R) : 0 <= a -> Vector2.mag (mkVector2 a 0) = a.
Proof.
intros Ha. apply mag_of_absSq; [assumption|].
unfold absSq. cbn. rnum. ring.
Qed.

Lemma computePreferredVelocity_spec_witness :
  computePreferredVelocity (T := R) Sample.agentA
  = Vector2.mult (mkVector2 200 0) (825 / 10 / 200)
  /\ Vector2.mag (computePreferredVelocity (T := R) Sample.agentA) = 825 / 10.
Proof.
assert (Hps : 0 <= preferredSpeed (T := R) Sample.agentA).
{ cbn. rnum. lra. }
assert (Hmax : 0 <= maxSpeed (T := R) Sample.agentA).
{ cbn. rnum. lra. }
pose proof (computePreferredVelocity_spec Sample.agentA Hps Hmax) as Hspec.
cbv zeta in Hspec. destruct Hspec as [_ Hfar].
assert (Hgoal :
  Vector2.sub (anchorAt (T := R) Sample.agentA (headingIndex (T := R) Sample.agentA))
    (position (T := R) Sample.agentA) = mkVector2 200 0).
{ cbn. unfold Vector2.sub, Sample.vec. cbn. rnum. f_equal; ring. }
rewrite Hgoal, (mag_vec_x 200) in Hfar by lra.
assert (Hmin : Rmin (preferredSpeed (T := R) Sample.agentA)
                 (maxSpeed (T := R) Sample.agentA) = 825 / 10).
{ cbn. rnum. apply Rmin_left. lra. }
rewrite Hmin in Hfar. apply Hfar. lra.
Defined.

Lemma computePreferredVelocity_bounded (a : RVOAgent R) :
  0 <= maxSpeed a ->
  Vector2.mag (computePreferredVelocity a) <= maxSpeed a.
Proof.
intros Hmax. unfold computePreferredVelocity. rnum. rcase.
- rewrite mag_zero. assumption.
- apply mag_limit. assumption.
Qed.

Lemma swapGoalIfNeeded_fields (a : RVOAgent R) :
  position (swapGoalIfNeeded a) = position a
  /\ maxSpeed (swapGoalIfNeeded a) = maxSpeed a.
Proof. unfold swapGoalIfNeeded. destruct (_ <? _)%num; auto. Qed.

Lemma pairDistSq_swapGoal (agents : list (RVOAgent R)) (i j : nat) :
  pairDistSq (map swapGoalIfNeeded agents) i j = pairDistSq agents i j.
Proof.
unfold pairDistSq. rewrite !nth_error_map.
destruct (nth_error agents i) as [ai|], (nth_error agents j) as [aj|];
  cbn [option_map]; try reflexivity.
rewrite (proj1 (swapGoalIfNeeded_fields ai)),
        (proj1 (swapGoalIfNeeded_fields aj)).
reflexivity.
Qed.

Lemma nth_error_map_combine {A B C} (f : A * B -> C) (l1 : list A) :
  forall (l2 : list B) (i : nat) (a : A) (b : B),
  nth_error l1 i = Some a -> nth_error l2 i = Some b ->
  nth_error (map f (combine l1 l2)) i = Some (f (a, b)).
Proof.
induction l1 as [|a1 l1 IH]; intros [|b2 l2] [|i] a b Ha Hb; cbn in *;
  try discriminate.
- congruence.
- eapply IH; eassumption.
Qed.

(** The velocity the solver returns when there is no constraint: the
    preferred velocity, cut to [maxSpeed]. *)
Lemma solveVelocity_nil (a : RVOAgent R) (preferred : Vector2 R) :
  Vector2.mag preferred <= maxSpeed a ->
  solveVelocity [] a preferred = Some preferred.
Proof.
intros Hm. pose proof (mag_nonneg preferred) as Hpos.
unfold solveVelocity, linearProgram2. cbn [lp2Loop bind length lineFail
  result2 Nat.ltb Nat.leb].
rnum. rcase.
- exfalso. rewrite <- mag_sq in *.
  pose proof (Rmult_le_compat _ _ _ _ Hpos Hpos Hm Hm). lra.
- rewrite (limit_small preferred (maxSpeed a) Hm). reflexivity.
Qed.

(** An agent with no other agent within the neighbor radius is not
    constrained: a tick gives it its preferred velocity (computed after
    the goal swap), and moves it by that velocity times the clamped time
    step. *)
Theorem update_isolated_agent (deltaTime : R) (this : RVOModel R) (i : nat)
    (a : RVOAgent R) :
  0 < deltaTime ->
  nth_error (agents this) i = Some a ->
  0 <= maxSpeed a ->
  (forall j, (j < length (agents this))%nat -> j <> i ->
     neighborRadiusSqOf this < pairDistSq (agents this) i j) ->
  exists this' a',
    update deltaTime this = Some this'
    /\ nth_error (agents this') i = Some a'
    /\ velocity a' = computePreferredVelocity (swapGoalIfNeeded a)
    /\ preferredVelocity a' = velocity a'
    /\ position a'
       = Vector2.add (position a)
           (Vector2.mult (velocity a') (stepOf deltaTime))
    /\ headingIndex a' = headingIndex (swapGoalIfNeeded a).
Proof.
intros Hdt Ha Hmax Hfar.
assert (Hi : (i < length (agents this))%nat).
{ apply nth_error_Some. rewrite Ha. discriminate. }
assert (Hne : agents this <> []).
{ intros Hnil. rewrite Hnil in Hi. cbn in Hi. lia. }
assert (Hdt' : (deltaTime <=? nofZ 0)%num = false).
{ rnum. apply Rleb_false. assumption. }
destruct (update_advance deltaTime this Hdt' Hne)
  as (table & vels & Htable & _ & Hvels & Hup).
set (snapshot := map swapGoalIfNeeded (agents this)) in *.
assert (Hlen : length snapshot = length (agents this))
  by apply length_map.
destruct (buildNeighborTable_pushed snapshot (neighborRadiusSqOf this))
  as (table' & Htable' & _ & Hrows).
assert (table' = table) by congruence. subst table'.
specialize (Hrows i ltac:(lia)).
assert (Hnone : pushedAll snapshot (neighborRadiusSqOf this) i = []).
{ destruct (pushedAll snapshot (neighborRadiusSqOf this) i) as [|e l] eqn:He;
    [reflexivity|exfalso].
  assert (Hin : In e (pushedAll snapshot (neighborRadiusSqOf this) i))
    by (rewrite He; left; reflexivity).
  apply pushedAll_In in Hin; [|lia].
  destruct Hin as (j & Hj & Hji & Hclose & _).
  unfold snapshot in Hclose. rewrite pairDistSq_swapGoal in Hclose.
  specialize (Hfar j ltac:(lia) Hji). lra. }
rewrite Hnone in Hrows. cbn in Hrows.
set (b := swapGoalIfNeeded a).
assert (Hb : nth_error snapshot i = Some b).
{ unfold snapshot. rewrite nth_error_map, Ha. reflexivity. }
destruct (mapM_nth _ _ _ i i Hvels) as (v & Hv & Hnew).
{ apply nth_error_seq_lt. lia. }
unfold newVelocity in Hnew. rewrite Hb, Hrows in Hnew.
cbn [bind collectLines forM] in Hnew.
rewrite solveVelocity_nil in Hnew.
2:{ apply computePreferredVelocity_bounded. unfold b.
    rewrite (proj2 (swapGoalIfNeeded_fields a)). assumption. }
assert (v = computePreferredVelocity b) by congruence. subst v.
eexists. eexists. split; [exact Hup|]. cbn [agents].
split; [apply (nth_error_map_combine _ snapshot vels i b _ Hb Hv)|].
cbn. repeat split.
unfold b. rewrite (proj1 (swapGoalIfNeeded_fields a)). reflexivity.
Qed.

Lemma update_isolated_agent_witness :
  exists this' a',
    update (T := R) (dec 16 1000) Sample.approach = Some this'
    /\ nth_error (agents this') 0 = Some a'
    /\ velocity a' = mkVector2 66 0.
Proof.
assert (Ha : nth_error (agents (T := R) Sample.approach) 0
             = Some (mkRVOAgent "rvo-0" (Sample.vec 0 0) (Sample.vec 0 0)
                       (Sample.vec 0 0)
                       (agentRadiusMeters * pixelsPerMeter)%num
                       (nofZ 66) (nofZ 66 * dec 125 100)%num
                       (Sample.vec 0 0, Sample.vec 300 0) H1
                       "hsl(180, 70%, 60%)")) by reflexivity.
assert (Hdt : 0 < dec (T := R) 16 1000) by (rnum; lra).
destruct (update_isolated_agent (dec 16 1000) Sample.approach 0 _ Hdt Ha)
  as (this' & a' & Hup & Hnth & Hvel & _).
- cbn. rnum. lra.
- intros j Hj Hji. cbn in Hj.
  assert (j = 1%nat) by lia. subst j.
  cbv [neighborRadiusSqOf Sample.approach params getParam orElse
       DEFAULTS_neighborRadius pixelsPerMeter pairDistSq agents nth_error
       position Sample.vec Vector2.sub absSq x y].
  rnum. lra.
- exists this', a'. split; [exact Hup|]. split; [exact Hnth|].
  rewrite Hvel.
  cbv [swapGoalIfNeeded computePreferredVelocity anchorAt anchors
       headingIndex position radius preferredSpeed maxSpeed snd fst
       set_headingIndex Sample.vec agentRadiusMeters pixelsPerMeter
       Vector2.dist Vector2.sub Vector2.mag Vector2.limit Vector2.mult
       Vector2.normalize Vector2.zero x y].
  rnum.
  replace ((0 - 300) * (0 - 300) + (0 - 0) * (0 - 0)) with (300 * 300)
    by ring.
  rewrite (sqrt_square 300) by lra.
  rdecide.
  replace ((300 - 0) * (300 - 0) + (0 - 0) * (0 - 0)) with (300 * 300)
    by ring.
  rewrite (sqrt_square 300) by lra.
  rdecide.
  replace ((300 - 0) * (1 / 300) * 66 * ((300 - 0) * (1 / 300) * 66)
           + (0 - 0) * (1 / 300) * 66 * ((0 - 0) * (1 / 300) * 66))
    with (66 * 66) by field.
  rewrite (sqrt_square 66) by lra.
  rdecide. req.
Defined.

(* ------------------------------------------------------------------ *)
(** ** The solver never leaves the speed disk *)

(** The interval the clipping loop ends with lies in the one it started
    from, whatever the lines. *)
Lemma lp1Clip_within (line : OrcaLine R) (previous : list (OrcaLine R)) :
  forall tLeft tRight tLeft' tRight' : R,
  lp1Clip line previous tLeft tRight = Interval tLeft' tRight' ->
  tLeft <= tRight ->
  tLeft <= tLeft' /\ tLeft' <= tRight' /\ tRight' <= tRight.
Proof.
induction previous as [|li previous IH]; intros tLeft tRight tLeft' tRight';
  cbn [lp1Clip].
- intros [= <- <-] Hle. lra.
- rnum.
  set (den := det (direction line) (direction li)).
  set (num := det (direction li) (Vector2.sub (point line) (point li))).
  destruct (Rleb_spec (Rabs den) EPSILON) as [Hnear | Hfar].
  + destruct (Rltb_spec num 0) as [Hneg | Hpos]; [discriminate|].
    apply IH.
  + set (q := num / den).
    destruct (Rleb_spec 0 den) as [Hden | Hden].
    * destruct (Rltb_spec (Rmin tRight q) tLeft) as [Hempty | Hok];
        [discriminate|].
      intros Hclip Hle.
      destruct (IH _ _ _ _ Hclip Hok) as (H1 & H2 & H3).
      pose proof (Rmin_l tRight q). lra.
    * destruct (Rltb_spec tRight (Rmax tLeft q)) as [Hempty | Hok];
        [discriminate|].
      intros Hclip Hle.
      destruct (IH _ _ _ _ Hclip Hok) as (H1 & H2 & H3).
      pose proof (Rmax_l tLeft q). lra.
Qed.

Lemma linearProgram1_inDisk (lines : list (OrcaLine R)) (lineNo : nat)
    (line : OrcaLine R) (radius : R) (optVelocity : Vector2 R)
    (directionOpt : bool) (c c' : Vector2 R) :
  nth_error lines lineNo = Some line ->
  absSq (direction line) = 1 ->
  linearProgram1 lines lineNo radius optVelocity directionOpt c
  = Some (mkSolved1 true c') ->
  inDisk radius c'.
Proof.
intros Hnth Hunit. unfold linearProgram1. rewrite Hnth. cbn [bind].
rnum.
set (dp := Vector2.dot (point line) (direction line)).
set (disc := dp * dp + radius * radius - absSq (point line)).
destruct (Rltb_spec disc 0) as [Hneg | Hdisc]; [discriminate|].
destruct (lp1Clip line (firstn lineNo lines) (- dp - sqrt disc)
            (- dp + sqrt disc)) as [|tL tR] eqn:Hclip; [discriminate|].
assert (Hle : - dp - sqrt disc <= - dp + sqrt disc).
{ pose proof (sqrt_pos disc). lra. }
destruct (lp1Clip_within line (firstn lineNo lines) _ _ _ _ Hclip Hle)
  as (H1 & H2 & H3).
assert (Hany : forall t, tL <= t <= tR -> inDisk radius (pointAt line t)).
{ intros t Ht. apply (pointAt_in_disk line radius t Hunit Hdisc).
  fold dp disc. lra. }
fold (pointAt line tL) (pointAt line tR).
destruct directionOpt.
- rcase; intros [= <-]; apply Hany; lra.
- set (t0 := Vector2.dot (direction line)
               (Vector2.sub optVelocity (point line))).
  fold (pointAt line t0).
  repeat rcase; intros [= <-]; apply Hany; lra.
Qed.

Lemma Lp2Run_inDisk (lines : list (OrcaLine R)) (radius : R)
    (optVelocity : Vector2 R) (directionOpt : bool) :
  unitDirections lines ->
  (directionOpt = true -> absSq optVelocity <= 1) ->
  forall (k : nat) (c : Vector2 R),
  Lp2Run lines radius optVelocity directionOpt k c -> inDisk radius c.
Proof.
intros Hunit Hopt k c Hrun.
induction Hrun as [|k c li Hrun IH Hnth Hviol
                   |k c c' li Hrun IH Hnth Hviol Hsolve].
- apply inDisk_initial. exact Hopt.
- exact IH.
- apply (linearProgram1_inDisk lines k li radius optVelocity directionOpt
           c c' Hnth); [|exact Hsolve].
  unfold unitDirections in Hunit. rewrite Forall_forall in Hunit.
  apply Hunit. eapply nth_error_In; eassumption.
Qed.

Lemma linearProgram2_result_inDisk (lines : list (OrcaLine R)) (radius : R)
    (optVelocity : Vector2 R) (directionOpt : bool) :
  unitDirections lines ->
  (directionOpt = true -> absSq optVelocity <= 1) ->
  exists s : Solved2 R,
    linearProgram2 lines radius optVelocity directionOpt = Some s
    /\ (lineFail s <= length lines)%nat
    /\ inDisk radius (result2 s).
Proof.
intros Hunit Hopt.
destruct (linearProgram2_run lines radius optVelocity directionOpt)
  as (s & Hs & [(Hlen & Hrun) | (Hlt & Hrun & _)]);
  exists s; (split; [exact Hs|]); (split; [lia|]);
  eapply Lp2Run_inDisk; eassumption.
Qed.



Lemma absSq_perp (v : Vector2 R) : absSq (perp v) = absSq v.
Proof. unfold absSq, perp. cbn. rnum. ring. Qed.

Lemma sub_nonzero (a b : Vector2 R) :
  a <> b -> Vector2.mag (Vector2.sub a b) <> 0.
Proof.
intros Hab Hz. apply Hab. apply mag_eq0 in Hz.
unfold Vector2.sub, Vector2.zero in Hz. rnum.
injection Hz as Hx Hy. apply vec_eq; lra.
Qed.

(** The lines [linearProgram3] projects have unit directions. *)
Lemma lp3Project_unit (line : OrcaLine R) (others : list (OrcaLine R)) :
  absSq (direction line) = 1 ->
  forall projLines : list (OrcaLine R),
  unitDirections projLines ->
  unitDirections (lp3Project line others projLines).
Proof.
intros Hunit. pose proof EPSILON_pos as Heps.
induction others as [|other others IH]; intros projLines Hproj;
  cbn [lp3Project]; [exact Hproj|].
rnum.
assert (Hadd : direction other <> direction line ->
          unitDirections
            (projLines ++
             [mkOrcaLine
                (Vector2.mult (Vector2.add (point line) (point other))
                   (5 / 10))
                (Vector2.normalize
                   (Vector2.sub (direction other) (direction line)))])
          /\ forall p,
             unitDirections
               (projLines ++
                [mkOrcaLine p
                   (Vector2.normalize
                      (Vector2.sub (direction other) (direction line)))])).
{ intros Hne. split; [|intros p]; apply Forall_app; (split; [exact Hproj|]);
    constructor; [|constructor| |constructor]; cbn [direction];
    apply absSq_normalize, sub_nonzero, Hne. }
destruct (Rleb_spec (Rabs (det (direction line) (direction other))) EPSILON)
  as [Hnear | Hfar].
- destruct (Rltb_spec 0 (Vector2.dot (direction line) (direction other)))
    as [Hsame | Hopp]; [apply IH, Hproj|].
  apply IH, Hadd. intros Heq. rewrite Heq in Hopp.
  unfold absSq in Hunit. unfold Vector2.dot in Hopp. rnum. lra.
- apply IH, Hadd. intros Heq. rewrite Heq in Hfar.
  unfold det in Hfar. rnum.
  replace (x (direction line) * y (direction line)
           - y (direction line) * x (direction line)) with 0 in Hfar by ring.
  rewrite Rabs_R0 in Hfar. lra.
Qed.

Lemma unitDirections_firstn (lines : list (OrcaLine R)) (k : nat) :
  unitDirections lines -> unitDirections (firstn k lines).
Proof.
unfold unitDirections. rewrite !Forall_forall. intros Hall l Hl.
apply Hall. eapply firstn_incl; eassumption.
Qed.

Lemma lp3Loop_inDisk (lines : list (OrcaLine R)) (numObstLines : nat)
    (radius : R) :
  unitDirections lines ->
  forall (rest : list (OrcaLine R)) (i : nat) (result : Vector2 R)
         (distance : R),
  unitDirections rest -> inDisk radius result ->
  exists v,
    lp3Loop lines numObstLines radius rest i result distance = Some v
    /\ inDisk radius v.
Proof.
intros Hunit.
induction rest as [|line rest IH]; intros i result distance Hrest Hdisk;
  cbn [lp3Loop]; [eauto|].
inversion Hrest as [|? ? Hline Hrest']; subst.
destruct (_ <? _)%num; [|apply IH; assumption].
match goal with
| |- context [linearProgram2 ?l ?r ?o ?d] =>
    destruct (linearProgram2_result_inDisk l r o d) as (s & -> & _ & Hs)
end.
- apply lp3Project_unit; [exact Hline|].
  unfold slice. rewrite Nat.sub_0_r. cbn [skipn].
  apply unitDirections_firstn, Hunit.
- intros _. rewrite absSq_perp, Hline. lra.
- cbn [bind]. apply IH; [exact Hrest'|].
  destruct (_ <? _)%nat; assumption.
Qed.

Lemma unitDirections_skipn (lines : list (OrcaLine R)) (k : nat) :
  unitDirections lines -> unitDirections (skipn k lines).
Proof.
unfold unitDirections. rewrite !Forall_forall. intros Hall l Hl.
apply Hall. rewrite <- (firstn_skipn k lines). apply in_or_app. right.
exact Hl.
Qed.

Lemma linearProgram3_result_inDisk (lines : list (OrcaLine R))
    (numObstLines beginLine : nat) (radius : R) (initialResult : Vector2 R) :
  unitDirections lines -> inDisk radius initialResult ->
  exists v,
    linearProgram3 lines numObstLines beginLine radius initialResult = Some v
    /\ inDisk radius v.
Proof.
intros Hunit Hdisk. unfold linearProgram3.
apply lp3Loop_inDisk; [exact Hunit| |exact Hdisk].
apply unitDirections_skipn, Hunit.
Qed.

Lemma inDisk_mag (radius : R) (v : Vector2 R) :
  0 <= radius -> inDisk radius v -> Vector2.mag v <= radius.
Proof.
intros Hr Hdisk. unfold inDisk in Hdisk. rewrite <- mag_sq in Hdisk.
pose proof (mag_nonneg v). nra.
Qed.

(** [linearProgram3], started in the speed disk on lines with unit
    directions, returns a velocity of the speed disk. *)
Theorem linearProgram3_in_disk (lines : list (OrcaLine R))
    (numObstLines beginLine : nat) (radius : R) (initialResult : Vector2 R) :
  unitDirections lines -> 0 <= radius ->
  Vector2.mag initialResult <= radius ->
  exists v,
    linearProgram3 lines numObstLines beginLine radius initialResult = Some v
    /\ Vector2.mag v <= radius.
Proof.
intros Hunit Hr Hinit.
destruct (linearProgram3_result_inDisk lines numObstLines beginLine radius
            initialResult Hunit) as (v & Hv & Hdisk).
- unfold inDisk. rewrite <- mag_sq.
  pose proof (mag_nonneg initialResult). nra.
- exists v. split; [exact Hv|]. apply inDisk_mag; assumption.
Qed.

Lemma linearProgram3_in_disk_witness :
  exists v,
    linearProgram3 NearParallel.lines 0 0 1 Vector2.zero = Some v
    /\ Vector2.mag v <= 1.
Proof.
apply (linearProgram3_in_disk NearParallel.lines 0 0 1 Vector2.zero).
- repeat constructor; unfold absSq; cbn; rnum;
    unfold NearParallel.c, NearParallel.s; field.
- lra.
- rewrite mag_zero. lra.
Defined.

(** With lines of unit directions and a non-negative [maxSpeed], the
    [limit] that ends the velocity solve changes nothing: the velocity
    returned is the one [linearProgram2] found, or the one
    [linearProgram3] found when [linearProgram2] failed. *)
Theorem solveVelocity_limit_redundant (lines : list (OrcaLine R))
    (agent : RVOAgent R) (preferred : Vector2 R) :
  unitDirections lines -> 0 <= maxSpeed agent ->
  exists s : Solved2 R,
    linearProgram2 lines (maxSpeed agent) preferred false = Some s
    /\ solveVelocity lines agent preferred
       = if (lineFail s <? length lines)%nat
         then linearProgram3 lines 0 (lineFail s) (maxSpeed agent) (result2 s)
         else Some (result2 s).
Proof.
intros Hunit Hmax.
destruct (linearProgram2_result_inDisk lines (maxSpeed agent) preferred false
            Hunit) as (s & Hs & _ & Hdisk); [discriminate|].
exists s. split; [exact Hs|]. unfold solveVelocity. rewrite Hs. cbn [bind].
destruct (_ <? _)%nat.
- destruct (linearProgram3_result_inDisk lines 0 (lineFail s)
              (maxSpeed agent) (result2 s) Hunit Hdisk) as (v & -> & Hv).
  cbn [bind]. rewrite limit_small; [reflexivity|].
  apply inDisk_mag; assumption.
- rewrite limit_small; [reflexivity|]. apply inDisk_mag; assumption.
Qed.

Lemma solveVelocity_limit_redundant_witness :
  exists s : Solved2 R,
    linearProgram2 NearParallel.lines (maxSpeed (T := R) Sample.agentA)
      NearParallel.optVelocity false = Some s
    /\ solveVelocity NearParallel.lines Sample.agentA NearParallel.optVelocity
       = if (lineFail s <? length NearParallel.lines)%nat
         then linearProgram3 NearParallel.lines 0 (lineFail s)
                (maxSpeed (T := R) Sample.agentA) (result2 s)
         else Some (result2 s).
Proof.
apply (solveVelocity_limit_redundant NearParallel.lines Sample.agentA
         NearParallel.optVelocity).
- repeat constructor; unfold absSq; cbn; rnum;
    unfold NearParallel.c, NearParallel.s; field.
- cbn. rnum. lra.
Defined.

(* ------------------------------------------------------------------ *)
(** ** The circle scenario, [reset] and [resize] *)

Lemma Reqb_refl_true (a : R) : RealNum.eqb a a = true.
Proof. apply Reqb_true. reflexivity. Qed.

Lemma circle_point (cx cy c s r : R) :
  s * s + c * c = 1 ->
  (cx + c * r - cx) * (cx + c * r - cx)
  + (cy + s * r - cy) * (cy + s * r - cy) = r * r.
Proof.
intros Hcirc.
replace ((cx + c * r - cx) * (cx + c * r - cx)
         + (cy + s * r - cy) * (cy + s * r - cy))
  with (r * r * (s * s + c * c)) by ring.
rewrite Hcirc. ring.
Qed.

(** The scenario [createCircleScenario] builds, for draws of
    [Math.random()] in [0, 1): no agent when the width or the height is 0,
    and 32 agents otherwise.  Every agent is at rest at its first anchor
    and heads for its second; the first anchor lies on the circle around
    the center of the canvas whose radius is 0.35 times the smaller side,
    the second is its mirror image in the center; the radius is 15.4, the
    preferred speed is at least 66 and below 99, and the maximal speed is
    1.25 times the preferred speed. *)
Theorem createCircleScenario_geometry (random : nat -> R)
    (this : RVOModel R) :
  (forall i, 0 <= random i < 1) ->
  let scene := createCircleScenario random this in
  let center := mkVector2 (width this / 2) (height this / 2) in
  let circleRadius := Rmin (width this) (height this) * (35 / 100) in
  width scene = width this /\ height scene = height this
  /\ params scene = params this
  /\ (length (agents scene)
      = if RealNum.eqb (width this) 0 || RealNum.eqb (height this) 0
        then 0%nat else 32%nat)
  /\ Forall
       (fun a =>
          velocity a = Vector2.zero /\ preferredVelocity a = Vector2.zero
          /\ headingIndex a = H1
          /\ position a = fst (anchors a)
          /\ absSq (Vector2.sub (fst (anchors a)) center)
             = circleRadius * circleRadius
          /\ Vector2.add (fst (anchors a)) (snd (anchors a))
             = Vector2.mult center 2
          /\ radius a = 154 / 10
          /\ 66 <= preferredSpeed a < 99
          /\ maxSpeed a = preferredSpeed a * (125 / 100))
       (agents scene).
Proof.
intros Hrandom scene center circleRadius. unfold scene, createCircleScenario.
rnum.
destruct (RealNum.eqb (width this) 0 || RealNum.eqb (height this) 0);
  cbn [width height params agents].
- repeat split. constructor.
- repeat split. rewrite Forall_forall. intros a Ha.
  apply in_map_iff in Ha. destruct Ha as (i & <- & _).
  specialize (Hrandom i).
  unfold circleAgent.
  cbn [velocity preferredVelocity headingIndex position anchors fst snd
       radius preferredSpeed maxSpeed].
  rnum. unfold agentRadiusMeters, pixelsPerMeter. rnum.
  set (angle := IZR (Z.of_nat i) / IZR (Z.of_nat DEFAULTS_agentCount) * PI * 2).
  pose proof (sin2_cos2 angle) as Hcirc. unfold Rsqr in Hcirc.
  repeat split; try lra.
  + unfold absSq, Vector2.sub, Vector2.add, Vector2.mult, center,
      circleRadius. cbn [x y]. rnum.
    apply circle_point. exact Hcirc.
  + apply vec_eq; unfold Vector2.add, Vector2.mult, center; cbn [x y];
      rnum; field.
Qed.

Lemma createCircleScenario_geometry_witness :
  length
    (agents
       (createCircleScenario (fun _ => 1 / 2)
          (mkRVOModel 800 600 [] [])))
  = 32%nat.
Proof.
assert (Hrandom : forall i : nat, 0 <= (fun _ : nat => 1 / 2) i < 1).
{ intros _. lra. }
destruct (createCircleScenario_geometry (fun _ => 1 / 2)
            (mkRVOModel 800 600 [] []) Hrandom)
  as (_ & _ & _ & Hlen & _).
rewrite Hlen. cbn [width height].
rewrite (Reqb_false 800 0), (Reqb_false 600 0) by lra. reflexivity.
Defined.

Lemma circleAgent_size (random : nat -> R) (this other : RVOModel R)
    (i : nat) :
  width other = width this -> height other = height this ->
  circleAgent other random i = circleAgent this random i.
Proof. intros Hw Hh. unfold circleAgent. rewrite Hw, Hh. reflexivity. Qed.

(** [reset] and [resize] forget the agents there were: the agents they
    leave depend on the size and the draws only, all are at rest, and an
    [update(0)] after either changes nothing. *)
Theorem reset_forgets (random : nat -> R) (this : RVOModel R)
    (params' : SimulationParameterValues R) (agents' : list (RVOAgent R))
    (w h : R) :
  agents (reset random
            (mkRVOModel (width this) (height this) params' agents'))
  = agents (reset random this)
  /\ agents (resize random w h this)
     = agents (reset random (mkRVOModel w h params' agents'))
  /\ Forall (fun a => velocity a = Vector2.zero)
       (agents (reset random this))
  /\ update 0 (reset random this) = Some (reset random this)
  /\ update 0 (resize random w h this) = Some (resize random w h this).
Proof.
assert (Hzero : forall m : RVOModel R, update 0 m = Some m).
{ intros m. unfold update. rnum. rewrite (Rleb_true 0 0) by lra.
  reflexivity. }
split; [|split; [|split; [|split; apply Hzero]]].
- unfold reset, createCircleScenario. cbn [width height].
  destruct (_ || _); [reflexivity|]. cbn [agents].
  apply map_ext. intros i. apply circleAgent_size; reflexivity.
- unfold resize, reset, createCircleScenario. cbn [width height].
  destruct (_ || _); [reflexivity|]. cbn [agents].
  apply map_ext. intros i. apply circleAgent_size; reflexivity.
- unfold reset, createCircleScenario.
  destruct (_ || _); cbn [agents]; [constructor|].
  rewrite Forall_forall. intros a Ha.
  apply in_map_iff in Ha. destruct Ha as (i & <- & _). reflexivity.
Qed.

(* ------------------------------------------------------------------ *)
(** ** Reciprocity of the constraint *)

Lemma negate_sub (a b : Vector2 R) :
  Vector2.sub b a = negate (Vector2.sub a b).
Proof. apply vec_eq; cbn; rnum; ring. Qed.

Lemma absSq_negate (v : Vector2 R) : absSq (negate v) = absSq v.
Proof. unfold absSq, negate. cbn. rnum. ring. Qed.

Lemma mag_negate (v : Vector2 R) : Vector2.mag (negate v) = Vector2.mag v.
Proof. apply mag_absSq_eq, absSq_negate. Qed.

Lemma mult_negate (v : Vector2 R) (s : R) :
  Vector2.mult (negate v) s = negate (Vector2.mult v s).
Proof. apply vec_eq; cbn; rnum; ring. Qed.

Lemma sub_negate (a b : Vector2 R) :
  Vector2.sub (negate a) (negate b) = negate (Vector2.sub a b).
Proof. apply vec_eq; cbn; rnum; ring. Qed.

Lemma dot_negate (a b : Vector2 R) :
  Vector2.dot (negate a) (negate b) = Vector2.dot a b.
Proof. unfold Vector2.dot, negate. cbn. rnum. ring. Qed.

Lemma det_negate (a b : Vector2 R) : det (negate a) (negate b) = det a b.
Proof. unfold det, negate. cbn. rnum. ring. Qed.

Lemma perp_negate (v : Vector2 R) : perp (negate v) = negate (perp v).
Proof. apply vec_eq; cbn; rnum; ring. Qed.

Lemma negate_zero : negate (T := R) Vector2.zero = Vector2.zero.
Proof. apply vec_eq; cbn; rnum; ring. Qed.

Lemma normalize_negate (v : Vector2 R) :
  Vector2.normalize (negate v) = negate (Vector2.normalize v).
Proof.
unfold Vector2.normalize. rewrite mag_negate. rnum. rcase.
- symmetry. apply negate_zero.
- apply mult_negate.
Qed.

(** The body of [constraintVectors] on opposite relative position and
    relative velocity. *)
Lemma constraintVectors_opposite (agent other agent' other' : RVOAgent R)
    (invTimeHorizon dt : R) :
  Vector2.sub (position other') (position agent')
  = negate (Vector2.sub (position other) (position agent)) ->
  Vector2.sub (velocity agent') (velocity other')
  = negate (Vector2.sub (velocity agent) (velocity other)) ->
  radius agent' + radius other' = radius agent + radius other ->
  constraintVectors agent' other' invTimeHorizon dt
  = (negate (fst (constraintVectors agent other invTimeHorizon dt)),
     negate (snd (constraintVectors agent other invTimeHorizon dt))).
Proof.
intros Hrp Hrv Hcr. unfold constraintVectors. cbv zeta. rnum.
rewrite Hrp, Hrv, Hcr.
set (rp := Vector2.sub (position other) (position agent)).
set (rv := Vector2.sub (velocity agent) (velocity other)).
set (cr := radius agent + radius other).
repeat first [ rewrite mult_negate | rewrite sub_negate
             | rewrite absSq_negate | rewrite dot_negate
             | rewrite det_negate | rewrite normalize_negate ].
assert (Hunit : forall (c : bool) (a b : Vector2 R),
          (if c then negate a else negate b)
          = negate (if c then a else b)).
{ intros [|] a b; reflexivity. }
destruct (RealNum.ltb (cr * cr) (absSq rp)).
- set (w := Vector2.sub rv (Vector2.mult rp invTimeHorizon)).
  destruct (RealNum.ltb (Vector2.dot w rp) 0
            && RealNum.ltb (cr * cr * absSq w)
                 (Vector2.dot w rp * Vector2.dot w rp)).
  + rewrite Hunit. cbn [fst snd].
    rewrite perp_negate, mult_negate. reflexivity.
  + set (leg := sqrt (Rmax 0 (absSq rp - cr * cr))).
    cbn [negate x y].
    match goal with
    | |- (Vector2.normalize ?d', _) = (negate (fst (Vector2.normalize ?d, _)), _) =>
        replace d' with (negate d)
    end.
    * cbn [fst snd]. rewrite normalize_negate.
      f_equal. apply vec_eq; cbn; rnum; ring.
    * destruct (RealNum.ltb 0 (det rp w)); apply vec_eq; cbn; rnum; ring.
- repeat match goal with
         | |- context [sqrt (x ?v * x ?v + y ?v * y ?v)] =>
             change (sqrt (x v * x v + y v * y v)) with (Vector2.mag v)
         end.
  rewrite !mag_negate, Hunit. cbn [fst snd].
  rewrite perp_negate, mult_negate. reflexivity.
Qed.

(** The constraint is reciprocal: the direction and the correction [u]
    computed for a pair of agents are the opposites of those computed for
    the pair the other way round. *)
Theorem constraintVectors_reciprocal (agent other : RVOAgent R)
    (invTimeHorizon dt : R) :
  constraintVectors other agent invTimeHorizon dt
  = (negate (fst (constraintVectors agent other invTimeHorizon dt)),
     negate (snd (constraintVectors agent other invTimeHorizon dt))).
Proof.
apply constraintVectors_opposite.
- apply negate_sub.
- apply negate_sub.
- apply Rplus_comm.
Qed.

(* ------------------------------------------------------------------ *)
(** ** One insertion into a neighbor list *)

(** [insertNeighbor] on a list sorted by squared distance that holds at
    most [maxNeighbors] entries: the list stays sorted, it grows by one
    entry up to [maxNeighbors], it holds no other entries than the old ones
    and the new one, it keeps every old entry while there is room, and it
    drops the new entry only when it is full of entries that are not
    farther. *)
Theorem insertNeighbor_sorted_bounded (lst : list (NeighborRef R))
    (neighbor : NeighborRef R) :
  StronglySorted (keyLe distSq) lst ->
  (length lst <= maxNeighbors)%nat ->
  StronglySorted (keyLe distSq) (insertNeighbor lst neighbor)
  /\ length (insertNeighbor lst neighbor)
     = Nat.min maxNeighbors (S (length lst))
  /\ (forall e, In e (insertNeighbor lst neighbor) ->
        e = neighbor \/ In e lst)
  /\ ((length lst < maxNeighbors)%nat ->
      forall e, In e lst -> In e (insertNeighbor lst neighbor))
  /\ (In neighbor (insertNeighbor lst neighbor)
      \/ (length lst = maxNeighbors
          /\ forall e, In e lst -> distSq e <= distSq neighbor)).
Proof.
intros Hsorted Hlen.
assert (Hlst : firstn maxNeighbors (sortBy byDistSq lst) = lst).
{ rewrite byDistSq_key, (sortBy_id distSq lst Hsorted).
  apply firstn_all2. exact Hlen. }
assert (Heq : insertNeighbor lst neighbor
              = firstn maxNeighbors
                  (sortBy (keyBefore distSq) (lst ++ [neighbor]))).
{ rewrite <- Hlst at 1. rewrite insertNeighbor_spec, byDistSq_key.
  reflexivity. }
rewrite Heq. clear Hlst Heq.
set (S' := sortBy (keyBefore distSq) (lst ++ [neighbor])).
assert (HS : StronglySorted (keyLe distSq) S')
  by apply (sortBy_sorted distSq).
assert (HlenS : length S' = S (length lst)).
{ unfold S'. rewrite (sortBy_length distSq), length_app. cbn. lia. }
assert (HinS : forall e, In e S' <-> In e lst \/ e = neighbor).
{ intros e. unfold S'. rewrite (sortBy_In distSq), in_app_iff. cbn.
  intuition auto. }
split; [apply (firstn_sorted distSq), HS|].
split; [rewrite length_firstn, HlenS; reflexivity|].
split.
{ intros e He. apply firstn_incl, HinS in He. tauto. }
split.
{ intros Hroom e He. rewrite firstn_all2 by lia. apply HinS. auto. }
assert (Hn : In neighbor S') by (apply HinS; auto).
rewrite <- (firstn_skipn maxNeighbors S') in Hn, HS.
apply in_app_or in Hn. destruct Hn as [Hn | Hn]; [left; exact Hn|right].
assert (Hskip : length (skipn maxNeighbors S') = (S (length lst) - maxNeighbors)%nat)
  by (rewrite length_skipn, HlenS; reflexivity).
assert (Hfull : length lst = maxNeighbors).
{ destruct (skipn maxNeighbors S'); [contradiction|].
  cbn [length] in Hskip. lia. }
split; [exact Hfull|]. intros e He.
assert (HeS : In e S') by (apply HinS; auto).
rewrite <- (firstn_skipn maxNeighbors S') in HeS.
apply in_app_or in HeS. destruct HeS as [HeS | HeS].
- apply (sorted_app_le distSq _ _ HS e neighbor HeS Hn).
- destruct (skipn maxNeighbors S') as [|e1 [|e2 rest]];
    cbn [length] in Hskip; try lia; try contradiction.
  destruct Hn as [<- | []], HeS as [<- | []]. lra.
Qed.

Lemma insertNeighbor_sorted_bounded_witness :
  In (mkNeighborRef 1 9)
    (insertNeighbor [mkNeighborRef 2 4] (mkNeighborRef (T := R) 1 9)).
Proof.
destruct (insertNeighbor_sorted_bounded [mkNeighborRef 2 4]
            (mkNeighborRef 1 9)) as (_ & _ & _ & _ & [Hin | [Hfull _]]).
- repeat constructor.
- cbn. unfold maxNeighbors. lia.
- exact Hin.
- cbn in Hfull. unfold maxNeighbors in Hfull. discriminate.
Defined.

(** Neighborhood is mutual while there is room: when agent [j] is in the
    list of agent [i], agent [i] is in the list of agent [j], at the same
    squared distance, unless that list is full. *)
Theorem buildNeighborTable_mutual (agents : list (RVOAgent R)) (radiusSq : R)
    (table : list (list (NeighborRef R))) (i j : nat)
    (li lj : list (NeighborRef R)) (d : R) :
  buildNeighborTable agents radiusSq = Some table ->
  nth_error table i = Some li -> nth_error table j = Some lj ->
  (length lj < maxNeighbors)%nat ->
  In (mkNeighborRef j d) li -> In (mkNeighborRef i d) lj.
Proof.
intros Hrun Hli Hlj Hroom Hin.
destruct (buildNeighborTable_pushed agents radiusSq)
  as (table' & Hrun' & Hlen & Hall).
assert (table' = table) by congruence. subst table'.
assert (Hi : (i < length agents)%nat).
{ rewrite <- Hlen. apply nth_error_Some. rewrite Hli. discriminate. }
assert (Hj : (j < length agents)%nat).
{ rewrite <- Hlen. apply nth_error_Some. rewrite Hlj. discriminate. }
rewrite (Hall i Hi) in Hli. rewrite (Hall j Hj) in Hlj.
assert (Hli' : li = firstn maxNeighbors
                       (sortBy byDistSq (pushedAll agents radiusSq i)))
  by congruence.
assert (Hlj' : lj = firstn maxNeighbors
                       (sortBy byDistSq (pushedAll agents radiusSq j)))
  by congruence.
clear Hli Hlj. subst li. rewrite byDistSq_key in *.
apply firstn_incl, (sortBy_In distSq), pushedAll_In in Hin; [|exact Hi].
destruct Hin as (j' & _ & Hne & Hclose & Heq).
assert (j' = j) by congruence. subst j'.
assert (Hd : d = pairDistSq agents i j) by congruence. subst d.
assert (Hall_j : lj = sortBy (keyBefore distSq)
                        (pushedAll agents radiusSq j)).
{ rewrite Hlj'. apply firstn_all2.
  rewrite Hlj', length_firstn in Hroom. lia. }
rewrite Hall_j. apply (sortBy_In distSq), pushedAll_In; [exact Hj|].
exists i. split; [exact Hi|]. split; [congruence|].
rewrite (pairDistSq_sym agents j i). split; [exact Hclose|reflexivity].
Qed.

Lemma buildNeighborTable_mutual_witness :
  In (mkNeighborRef (T := R) 0 9) [mkNeighborRef 0 9].
Proof.
apply (buildNeighborTable_mutual Sample.boundaryPair 9
         [[mkNeighborRef 1 9]; [mkNeighborRef 0 9]] 0 1
         [mkNeighborRef 1 9] [mkNeighborRef 0 9] 9).
- runfold_table. rdecide. repeat f_equal; lra.
- reflexivity.
- reflexivity.
- cbn. unfold maxNeighbors. lia.
- left. reflexivity.
Defined.

(* ------------------------------------------------------------------ *)
(** ** The goal swap, and the constraints of one agent *)

Lemma swapGoalIfNeeded_cases (a : RVOAgent R) :
  let target := anchorAt a (headingIndex a) in
  let threshold := Rmax (radius a * (8 / 10)) 6 in
  (Vector2.dist (position a) target < threshold
   /\ swapGoalIfNeeded a
      = set_headingIndex a
          (match headingIndex a with H0 => H1 | H1 => H0 end))
  \/ (threshold <= Vector2.dist (position a) target
      /\ swapGoalIfNeeded a = a).
Proof.
unfold swapGoalIfNeeded. rnum. rcase; [left|right]; auto.
Qed.

(** An agent heads for the other anchor as soon as it is within the larger
    of 0.8 radius and 6 of its goal, and for the same anchor otherwise.
    When the anchors are at least twice that far apart, the swap settles:
    an agent that has just swapped is not within reach of its new goal, so
    a second swap at the same place changes nothing. *)
Theorem swapGoalIfNeeded_settles (a : RVOAgent R) :
  2 * Rmax (radius a * (8 / 10)) 6
  <= Vector2.dist (fst (anchors a)) (snd (anchors a)) ->
  swapGoalIfNeeded (swapGoalIfNeeded a) = swapGoalIfNeeded a.
Proof.
intros Hfar.
destruct (swapGoalIfNeeded_cases a) as [[Hnear ->] | [Hstay ->]].
- set (b := set_headingIndex a
              (match headingIndex a with H0 => H1 | H1 => H0 end)).
  destruct (swapGoalIfNeeded_cases b) as [[Hnear' _] | [_ ->]];
    [exfalso|reflexivity].
  unfold b in Hnear'.
  cbn [position radius anchorAt headingIndex set_headingIndex anchors]
    in Hnear'.
  set (thr := Rmax (radius a * (8 / 10)) 6) in *.
  pose proof (dist_triangle (fst (anchors a)) (position a) (snd (anchors a)))
    as Htri.
  pose proof (dist_sym (fst (anchors a)) (position a)) as Hs1.
  pose proof (dist_sym (snd (anchors a)) (position a)) as Hs2.
  pose proof (dist_sym (fst (anchors a)) (snd (anchors a))) as Hs3.
  destruct (headingIndex a); cbn [anchorAt] in Hnear, Hnear';
    unfold set_headingIndex in Hnear'; cbn [anchors] in Hnear'; lra.
- destruct (swapGoalIfNeeded_cases a) as [[Hnear _] | [_ ->]];
    [lra|reflexivity].
Qed.

Lemma swapGoalIfNeeded_settles_witness :
  swapGoalIfNeeded (swapGoalIfNeeded (T := R) Sample.agentA)
  = swapGoalIfNeeded Sample.agentA.
Proof.
apply (swapGoalIfNeeded_settles Sample.agentA).
cbn [radius anchors fst snd Sample.agentA].
unfold Vector2.dist, Sample.vec, agentRadiusMeters, pixelsPerMeter. rnum.
replace (Vector2.sub (mkVector2 0 0) (mkVector2 200 0))
  with (negate (mkVector2 200 0))
  by (apply vec_eq; cbn; rnum; ring).
rewrite mag_negate, (mag_vec_x 200) by lra.
apply Rmult_le_reg_l with (r := / 2); [lra|].
rewrite <- Rmult_assoc, Rinv_l, Rmult_1_l by lra.
apply Rmax_lub; lra.
Defined.

(** The line [appendAgentConstraint] pushes for a pair. *)
Lemma appendAgentConstraint_last (agent other : RVOAgent R)
    (lines : list (OrcaLine R)) (invTimeHorizon dt : R) :
  appendAgentConstraint agent other lines invTimeHorizon dt
  = lines ++ appendAgentConstraint agent other [] invTimeHorizon dt.
Proof.
unfold appendAgentConstraint.
destruct (constraintVectors agent other invTimeHorizon dt) as [dir u].
reflexivity.
Qed.

Lemma appendAgentConstraint_nil_unit (agent other : RVOAgent R)
    (invTimeHorizon dt : R) :
  exists line,
    appendAgentConstraint agent other [] invTimeHorizon dt = [line]
    /\ absSq (direction line) = 1.
Proof.
unfold appendAgentConstraint.
destruct (constraintVectors agent other invTimeHorizon dt) as [dir u].
eexists. split; [reflexivity|]. cbn [direction].
apply ensureDirection_spec.
Qed.

Lemma collectLines_from (agents : list (RVOAgent R)) (agent : RVOAgent R)
    (invTimeHorizon dt : R) :
  forall (neighbors : list (NeighborRef R)) (lines0 : list (OrcaLine R)),
  Forall (fun n => (index n < length agents)%nat) neighbors ->
  exists lines,
    forM neighbors lines0
      (fun lines n =>
         other <- nth_error agents (index n) ;;
         Some (appendAgentConstraint agent other lines invTimeHorizon dt))
    = Some (lines0 ++ lines)
    /\ Forall2
         (fun n line =>
            exists other,
              nth_error agents (index n) = Some other
              /\ appendAgentConstraint agent other [] invTimeHorizon dt
                 = [line])
         neighbors lines
    /\ unitDirections lines.
Proof.
induction neighbors as [|n neighbors IH]; intros lines0 Hall; cbn [forM].
- exists []. rewrite app_nil_r. repeat constructor.
- inversion Hall as [|? ? Hn Hrest]; subst.
  destruct (nth_error_some_lt agents (index n) Hn) as (other & Hother).
  rewrite Hother. cbn [bind].
  destruct (appendAgentConstraint_nil_unit agent other invTimeHorizon dt)
    as (line & Hline & Hunit).
  rewrite appendAgentConstraint_last, Hline.
  destruct (IH (lines0 ++ [line]) Hrest) as (lines & -> & Hpairs & Hunits).
  exists (line :: lines). rewrite <- app_assoc. split; [reflexivity|].
  split.
  + constructor; [exists other; auto|exact Hpairs].
  + constructor; assumption.
Qed.

(** The constraints of one agent: one line per neighbor, in the order of
    the neighbor list, each the line [appendAgentConstraint] gives for the
    agent and that neighbor alone, and each with a unit direction. *)
Theorem collectLines_spec (agents : list (RVOAgent R)) (agent : RVOAgent R)
    (neighbors : list (NeighborRef R)) (invTimeHorizon dt : R) :
  Forall (fun n => (index n < length agents)%nat) neighbors ->
  exists lines,
    collectLines agents agent neighbors invTimeHorizon dt = Some lines
    /\ Forall2
         (fun n line =>
            exists other,
              nth_error agents (index n) = Some other
              /\ appendAgentConstraint agent other [] invTimeHorizon dt
                 = [line])
         neighbors lines
    /\ unitDirections lines.
Proof.
intros Hall. unfold collectLines.
apply (collectLines_from agents agent invTimeHorizon dt neighbors [] Hall).
Qed.

Lemma collectLines_spec_witness :
  exists lines,
    collectLines (T := R) [Sample.agentA; Sample.agentB] Sample.agentA
      [mkNeighborRef 1 1089] (1 / 2) (1 / 20) = Some lines
    /\ length lines = 1%nat.
Proof.
destruct (collectLines_spec [Sample.agentA; Sample.agentB] Sample.agentA
            [mkNeighborRef 1 1089] (1 / 2) (1 / 20))
  as (lines & Hrun & Hpairs & _).
- repeat constructor.
- exists lines. split; [exact Hrun|].
  apply Forall2_length in Hpairs. symmetry. exact Hpairs.
Defined.

(* ------------------------------------------------------------------ *)
(** ** CAModel: the shuffle *)

Lemma setNth_swap_head {A} (a b : A) :
  forall (l : list A) (j : nat),
  nth_error l j = Some b -> Permutation (a :: l) (b :: setNth j a l).
Proof.
induction l as [|c l IH]; intros [|j] Hj; cbn in *; try discriminate.
- injection Hj as ->. apply perm_swap.
- eapply perm_trans; [apply perm_swap|].
  eapply perm_trans; [apply perm_skip, (IH j Hj)|]. apply perm_swap.
Qed.

Lemma swap_Permutation {A} :
  forall (l : list A) (i j : nat) (a b : A),
  nth_error l i = Some a -> nth_error l j = Some b ->
  Permutation l (setNth j a (setNth i b l)).
Proof.
induction l as [|c l IH]; intros [|i] [|j] a b Hi Hj; cbn in *;
  try discriminate.
- injection Hi as ->. injection Hj as ->. apply Permutation_refl.
- injection Hi as ->. apply setNth_swap_head. exact Hj.
- injection Hj as ->. apply setNth_swap_head. exact Hi.
- apply perm_skip. apply IH; assumption.
Qed.

Lemma swap_spec {A} (array : list A) (i : nat) (j : Z) :
  (i < length array)%nat -> (0 <= j)%Z -> (Z.to_nat j < length array)%nat ->
  exists out,
    CA.swap array i j = Some out
    /\ Permutation array out /\ length out = length array.
Proof.
intros Hi Hj0 Hj. unfold CA.swap.
destruct (Z.ltb_spec j 0) as [|_]; [lia|].
destruct (nth_error_some_lt array i Hi) as (ai & Hai).
destruct (nth_error_some_lt array (Z.to_nat j) Hj) as (aj & Haj).
rewrite Hai, Haj. cbn [bind]. eexists. split; [reflexivity|]. split.
- apply swap_Permutation; assumption.
- rewrite !setNth_length. reflexivity.
Qed.

(** The index a draw in [0, 1) selects among [n] is one of [0, ..., n-1]. *)
Lemma draw_index (r : R) (n : Z) :
  0 <= r < 1 -> (0 < n)%Z -> (0 <= Zfloor (r * IZR n) < n)%Z.
Proof.
intros Hr Hn. apply IZR_lt in Hn.
pose proof (Zfloor_bound (r * IZR n)) as [Hlo Hhi].
split.
- apply Zfloor_lub. apply Rmult_le_pos; lra.
- apply lt_IZR.
  assert (r * IZR n < IZR n) by nra. lra.
Qed.

Lemma shuffleLoop_spec {A} (random : nat -> R) :
  (forall n, 0 <= random n < 1) ->
  forall (i : nat) (array : list A) (k : nat),
  (i < length array \/ i = 0)%nat ->
  exists out,
    CA.shuffleLoop random i array k = Some (out, (k + i)%nat)
    /\ Permutation array out.
Proof.
intros Hrandom.
induction i as [|i IH]; intros array k Hi; cbn [CA.shuffleLoop].
- exists array. rewrite Nat.add_0_r. split; [reflexivity|].
  apply Permutation_refl.
- assert (Hlen : (S i < length array)%nat) by lia.
  cbn [nfloor R_Floor nofZ nmul R_Number].
  pose proof (draw_index (random k) (Z.of_nat (S i) + 1) (Hrandom k)
                ltac:(lia)) as Hj.
  destruct (swap_spec array (S i)
              (Zfloor (random k * IZR (Z.of_nat (S i) + 1))))
    as (out1 & -> & Hperm1 & Hlen1); [lia|lia|lia|].
  cbn [bind].
  destruct (IH out1 (S k)) as (out & Hrun & Hperm); [lia|].
  exists out. rewrite Hrun. split; [f_equal; f_equal; lia|].
  eapply perm_trans; eassumption.
Qed.

(** [shuffle] with draws of [Math.random()] in [0, 1): it returns a
    permutation of its argument, and calls [Math.random()] once for every
    element but one. *)
Theorem ca_shuffle_permutation {A : Type} (random : nat -> R)
    (source : list A) (k : nat) :
  (forall n, 0 <= random n < 1) ->
  exists out,
    CA.shuffle random source k = Some (out, (k + (length source - 1))%nat)
    /\ Permutation source out.
Proof.
intros Hrandom. unfold CA.shuffle.
apply shuffleLoop_spec; [exact Hrandom|].
destruct source; cbn [length]; lia.
Qed.

Lemma ca_shuffle_permutation_witness :
  exists out,
    CA.shuffle (fun _ : nat => 1 / 2) [1%nat; 2%nat; 3%nat] 0
    = Some (out, 2%nat)
    /\ Permutation [1%nat; 2%nat; 3%nat] out.
Proof.
apply (ca_shuffle_permutation (fun _ : nat => 1 / 2)
         [1%nat; 2%nat; 3%nat] 0).
intros _. lra.
Defined.

(* ------------------------------------------------------------------ *)
(** ** CAModel: one agent's step, in any arithmetic *)

Local Close Scope R_scope.

Lemma cell_eq (a b : CA.GridCell) :
  CA.x a = CA.x b -> CA.y a = CA.y b -> a = b.
Proof. destruct a, b; cbn; intros -> ->; reflexivity. Qed.

Lemma cell_eq_dec (a b : CA.GridCell) : {a = b} + {a <> b}.
Proof.
destruct (Z.eq_dec (CA.x a) (CA.x b)) as [Hx | Hx];
  [destruct (Z.eq_dec (CA.y a) (CA.y b)) as [Hy | Hy]|].
- left. apply cell_eq; assumption.
- right. intros ->. apply Hy. reflexivity.
- right. intros ->. apply Hx. reflexivity.
Qed.

Lemma moved_iff (a b : CA.GridCell) :
  negb (CA.x a =? CA.x b)%Z || negb (CA.y a =? CA.y b)%Z = false <-> a = b.
Proof.
destruct (Z.eqb_spec (CA.x a) (CA.x b)) as [Hx | Hx],
         (Z.eqb_spec (CA.y a) (CA.y b)) as [Hy | Hy]; cbn;
  split; intros Heq; try discriminate; try reflexivity;
  try (apply cell_eq; assumption); subst; contradiction.
Qed.

Lemma at_cell_iff (a b : CA.GridCell) :
  (CA.x a =? CA.x b)%Z && (CA.y a =? CA.y b)%Z = true <-> a = b.
Proof.
destruct (Z.eqb_spec (CA.x a) (CA.x b)) as [Hx | Hx],
         (Z.eqb_spec (CA.y a) (CA.y b)) as [Hy | Hy]; cbn;
  split; intros Heq; try discriminate; try reflexivity;
  try (apply cell_eq; assumption); subst; contradiction.
Qed.

Lemma Forall_setNth {A} (Q : A -> Prop) (v : A) (l : list A) :
  Q v -> Forall Q l -> forall i, Forall Q (setNth i v l).
Proof.
intros Hv Hl. induction Hl as [|a l Ha Hl IH]; intros [|i]; cbn;
  constructor; auto.
Qed.

Lemma map_setNth {A B} (f : A -> B) (v : A) :
  forall (l : list A) (i : nat),
  map f (setNth i v l) = setNth i (f v) (map f l).
Proof.
induction l as [|a l IH]; intros [|i]; cbn; try reflexivity.
now rewrite IH.
Qed.

Lemma In_setNth {A} (b c0 : A) :
  forall (l : list A) (i : nat),
  NoDup l -> nth_error l i = Some c0 ->
  forall c, In c (setNth i b l) <-> c = b \/ (In c l /\ c <> c0).
Proof.
induction l as [|a l IH]; intros [|i] Hnd Hi c; cbn in *; try discriminate;
  inversion Hnd as [|? ? Hnotin Hnd']; subst.
- injection Hi as ->. split.
  + intros [<- | Hc]; [left; reflexivity|right].
    split; [right; exact Hc|]. intros ->. contradiction.
  + intros [-> | [[<- | Hc] Hne]]; [left; reflexivity|contradiction|].
    right. exact Hc.
- rewrite (IH i Hnd' Hi c). split.
  + intros [<- | [-> | [Hc Hne]]].
    * right. split; [left; reflexivity|].
      intros ->. apply Hnotin. eapply nth_error_In; eassumption.
    * left. reflexivity.
    * right. split; [right; exact Hc|exact Hne].
  + intros [-> | [[<- | Hc] Hne]].
    * right. left. reflexivity.
    * left. reflexivity.
    * right. right. split; assumption.
Qed.

Lemma NoDup_setNth {A} (b c0 : A) :
  forall (l : list A) (i : nat),
  NoDup l -> nth_error l i = Some c0 -> ~ In b l -> NoDup (setNth i b l).
Proof.
induction l as [|a l IH]; intros [|i] Hnd Hi Hb; cbn in *; try discriminate;
  inversion Hnd as [|? ? Hnotin Hnd']; subst.
- constructor; [|exact Hnd']. intros Hin. apply Hb. right. exact Hin.
- constructor.
  + intros Hin. apply (In_setNth b c0 l i Hnd' Hi a) in Hin.
    destruct Hin as [-> | [Hin _]]; [apply Hb; left; reflexivity|].
    contradiction.
  + apply IH; [exact Hnd'|exact Hi|]. intros Hin. apply Hb. right.
    exact Hin.
Qed.

Lemma gridLookup_notNull (grid : CA.Grid) (c : CA.GridCell)
    (e : option String.string) :
  gridLookup grid c = Some e ->
  CA.gridNotNull grid c
  = Some (match e with None => false | Some _ => true end).
Proof.
unfold gridLookup, CA.gridNotNull.
destruct (CA.x c <? 0)%Z, (CA.y c <? 0)%Z; cbn [orb]; try discriminate.
destruct (nth_error grid (Z.to_nat (CA.y c))) as [row|]; cbn [bind];
  [|discriminate].
intros ->. destruct e; reflexivity.
Qed.

(** An assignment to an element the grid has: it succeeds, and changes
    that element only. *)
Lemma gridSet_lookup (grid : CA.Grid) (c : CA.GridCell)
    (e v : option String.string) :
  gridLookup grid c = Some e ->
  exists grid',
    CA.gridSet grid c v = Some grid'
    /\ gridLookup grid' c = Some v
    /\ forall c', c' <> c -> gridLookup grid' c' = gridLookup grid c'.
Proof.
unfold gridLookup, CA.gridSet.
destruct (Z.ltb_spec (CA.x c) 0) as [|Hx], (Z.ltb_spec (CA.y c) 0) as [|Hy];
  cbn [orb]; try discriminate.
destruct (nth_error grid (Z.to_nat (CA.y c))) as [row|] eqn:Hrow;
  cbn [bind]; [|discriminate].
intros He.
assert (Hlen : (Z.to_nat (CA.x c) < length row)%nat).
{ apply nth_error_Some. rewrite He. discriminate. }
destruct (Z.leb_spec (Z.of_nat (length row)) (CA.x c)) as [|_]; [lia|].
eexists. split; [reflexivity|]. split.
- rewrite nth_error_setNth, Nat.eqb_refl, Hrow. cbn [option_map bind].
  rewrite nth_error_setNth, Nat.eqb_refl, He. reflexivity.
- intros c' Hne.
  destruct (Z.ltb_spec (CA.x c') 0) as [|Hx'],
           (Z.ltb_spec (CA.y c') 0) as [|Hy']; cbn [orb]; try reflexivity.
  rewrite nth_error_setNth.
  destruct (Nat.eqb_spec (Z.to_nat (CA.y c)) (Z.to_nat (CA.y c')))
    as [Hys | Hys]; [|reflexivity].
  rewrite <- Hys, Hrow. cbn [option_map bind].
  rewrite nth_error_setNth.
  destruct (Nat.eqb_spec (Z.to_nat (CA.x c)) (Z.to_nat (CA.x c')))
    as [Hxs | Hxs]; [|reflexivity].
  exfalso. apply Hne. apply cell_eq; lia.
Qed.

Section CAStep.
Context {T : Type} `{Number T}.

(** The loop over the neighbors ends on the cell it started with or on a
    neighbor that is on the grid and free. *)
Lemma considerNeighbors_spec (this : CA.CAModel T) (target : CA.GridCell)
    (allowDrift : bool) :
  (forall c, CA.isInside this (CA.x c) (CA.y c) = true ->
     exists e, gridLookup (CA.grid this) c = Some e) ->
  forall (neighbors : list CA.GridCell) (st : CA.GridCell * T),
  exists best,
    forM neighbors st (CA.considerNeighbor this target allowDrift)
    = Some best
    /\ (fst best = fst st
        \/ (In (fst best) neighbors
            /\ CA.isInside this (CA.x (fst best)) (CA.y (fst best)) = true
            /\ gridLookup (CA.grid this) (fst best) = Some None)).
Proof.
intros Hgrid.
induction neighbors as [|n neighbors IH]; intros [bestCell bestDistance];
  cbn [forM].
- eexists. split; [reflexivity|]. left. reflexivity.
- unfold CA.considerNeighbor at 1.
  assert (Hskip :
    exists best,
      forM neighbors (bestCell, bestDistance)
        (CA.considerNeighbor this target allowDrift) = Some best
      /\ (fst best = fst (bestCell, bestDistance)
          \/ (In (fst best) (n :: neighbors)
              /\ CA.isInside this (CA.x (fst best)) (CA.y (fst best)) = true
              /\ gridLookup (CA.grid this) (fst best) = Some None))).
  { destruct (IH (bestCell, bestDistance))
      as (best & Hrun & [Hsame | (Hin & Hins & Hfree)]);
      exists best; (split; [exact Hrun|]); [left; exact Hsame|].
    right. split; [right; exact Hin|]. split; assumption. }
  destruct (CA.isInside this (CA.x n) (CA.y n)) eqn:Hinside;
    cbn [negb bind]; [|exact Hskip].
  destruct (Hgrid n Hinside) as (e & He).
  rewrite (gridLookup_notNull _ _ _ He). cbn [bind].
  destruct e as [s|]; [exact Hskip|].
  destruct (_ || _); [|exact Hskip].
  destruct (IH (n, CA.cellDistance n target))
    as (best & Hrun & [Hsame | (Hin & Hins & Hfree)]).
  + exists best. split; [exact Hrun|]. right. cbn [fst] in Hsame.
    rewrite Hsame. split; [left; reflexivity|]. split; assumption.
  + exists best. split; [exact Hrun|]. right.
    split; [right; exact Hin|]. split; assumption.
Qed.

(** The agent a step leaves: on the cell [c], with the bookkeeping of
    [stuckSteps] and [targetIndex] done. *)
Lemma stepAgent_run (this : CA.CAModel T) (index : nat) (a : CA.CAAgent) :
  wellFormed this ->
  nth_error (CA.agents this) index = Some a ->
  exists (best : CA.GridCell * T) (grid' : CA.Grid) (a' : CA.CAAgent),
    forM (CA.getNeighbors (CA.cell a))
      (CA.cell a, CA.cellDistance (CA.cell a)
                    (CA.anchorAt a (CA.targetIndex a)))
      (CA.considerNeighbor this (CA.anchorAt a (CA.targetIndex a))
         (4 <=? CA.stuckSteps a)%nat) = Some best
    /\ CA.stepAgent this index
       = Some (CA.set_grid
                 (CA.set_agents this (setNth index a' (CA.agents this)))
                 grid')
    /\ CA.cell a' = fst best
    /\ identityOfCA a' = identityOfCA a
    /\ (fst best = CA.cell a \/
        (In (fst best) (CA.getNeighbors (CA.cell a))
         /\ CA.isInside this (CA.x (fst best)) (CA.y (fst best)) = true
         /\ gridLookup (CA.grid this) (fst best) = Some None))
    /\ (fst best = CA.cell a -> grid' = CA.grid this)
    /\ (fst best <> CA.cell a ->
        gridLookup grid' (fst best) = Some (Some (CA.id a))
        /\ gridLookup grid' (CA.cell a) = Some None
        /\ forall c, c <> fst best -> c <> CA.cell a ->
             gridLookup grid' c = gridLookup (CA.grid this) c)
    /\ CA.stuckSteps a'
       = (if cell_eq_dec (fst best) (CA.anchorAt a (CA.targetIndex a))
          then 0
          else if cell_eq_dec (fst best) (CA.cell a)
               then S (CA.stuckSteps a) else 0)%nat
    /\ CA.targetIndex a'
       = (if cell_eq_dec (fst best) (CA.anchorAt a (CA.targetIndex a))
          then match CA.targetIndex a with H0 => H1 | H1 => H0 end
          else CA.targetIndex a).
Proof.
intros (Hin & Hnodup & Hgrid) Ha.
assert (Hlook : forall c, CA.isInside this (CA.x c) (CA.y c) = true ->
          exists e, gridLookup (CA.grid this) c = Some e).
{ intros c Hc. destruct (Hgrid c Hc) as (e & He & _). eauto. }
set (target := CA.anchorAt a (CA.targetIndex a)).
destruct (considerNeighbors_spec this target (4 <=? CA.stuckSteps a)%nat
            Hlook (CA.getNeighbors (CA.cell a))
            (CA.cell a, CA.cellDistance (CA.cell a) target))
  as (best & Hrun & Hbest).
cbn [fst] in Hbest.
assert (Hinside : CA.isInside this (CA.x (CA.cell a)) (CA.y (CA.cell a))
                  = true).
{ rewrite Forall_forall in Hin. apply Hin.
  eapply nth_error_In; eassumption. }
exists best.
unfold CA.stepAgent. rewrite Ha. cbn [bind]. fold target. rewrite Hrun.
cbn [bind].
destruct (cell_eq_dec (fst best) (CA.cell a)) as [Hstay | Hmove].
- assert (Hmoved : negb (CA.x (CA.cell a) =? CA.x (fst best))%Z
                   || negb (CA.y (CA.cell a) =? CA.y (fst best))%Z = false).
  { apply moved_iff. symmetry. exact Hstay. }
  rewrite Hmoved. cbn [bind fst snd].
  exists (CA.grid this).
  cbn [CA.set_stuckSteps CA.cell].
  destruct (cell_eq_dec (fst best) target) as [Hat | Hnot].
  + assert (Htest : (CA.x (CA.cell a) =? CA.x target)%Z
                    && (CA.y (CA.cell a) =? CA.y target)%Z = true).
    { apply at_cell_iff. congruence. }
    rewrite Htest. eexists. split; [reflexivity|].
    cbn. repeat split; auto; try congruence.
  + assert (Htest : (CA.x (CA.cell a) =? CA.x target)%Z
                    && (CA.y (CA.cell a) =? CA.y target)%Z = false).
    { apply not_true_is_false. intros Ht. apply at_cell_iff in Ht.
      apply Hnot. congruence. }
    rewrite Htest. eexists. split; [reflexivity|].
    cbn. repeat split; auto; try congruence.
    apply Nat.add_1_r.
- assert (Hmoved : negb (CA.x (CA.cell a) =? CA.x (fst best))%Z
                   || negb (CA.y (CA.cell a) =? CA.y (fst best))%Z = true).
  { apply not_false_is_true. intros Hf. apply moved_iff in Hf.
    apply Hmove. symmetry. exact Hf. }
  rewrite Hmoved.
  destruct Hbest as [Hsame | (Hnb & Hins & Hfree)]; [contradiction|].
  destruct (Hlook (CA.cell a) Hinside) as (e0 & He0).
  destruct (gridSet_lookup (CA.grid this) (CA.cell a) e0 None He0)
    as (g1 & Hset1 & Hg1 & Hg1').
  rewrite Hset1. cbn [bind].
  assert (Hfree1 : gridLookup g1 (fst best) = Some None).
  { rewrite Hg1' by exact Hmove. exact Hfree. }
  destruct (gridSet_lookup g1 (fst best) None (Some (CA.id a)) Hfree1)
    as (g2 & Hset2 & Hg2 & Hg2').
  rewrite Hset2. cbn [bind fst snd].
  exists g2.
  assert (Hgrid2 :
    gridLookup g2 (fst best) = Some (Some (CA.id a))
    /\ gridLookup g2 (CA.cell a) = Some None
    /\ forall c, c <> fst best -> c <> CA.cell a ->
         gridLookup g2 c = gridLookup (CA.grid this) c).
  { split; [exact Hg2|]. split.
    - rewrite Hg2' by (intros Heq; apply Hmove; symmetry; exact Heq).
      exact Hg1.
    - intros c Hc1 Hc2. rewrite Hg2' by exact Hc1. apply Hg1'. exact Hc2. }
  cbn [CA.set_stuckSteps CA.set_cell CA.cell].
  destruct (cell_eq_dec (fst best) target) as [Hat | Hnot].
  + assert (Htest : (CA.x (fst best) =? CA.x target)%Z
                    && (CA.y (fst best) =? CA.y target)%Z = true).
    { apply at_cell_iff. exact Hat. }
    rewrite Htest. eexists. split; [reflexivity|].
    cbn. repeat split; auto; try tauto; apply Hgrid2.
  + assert (Htest : (CA.x (fst best) =? CA.x target)%Z
                    && (CA.y (fst best) =? CA.y target)%Z = false).
    { apply not_true_is_false. intros Ht. apply at_cell_iff in Ht.
      contradiction. }
    rewrite Htest. eexists. split; [reflexivity|].
    cbn. repeat split; auto; try tauto; apply Hgrid2.
Qed.

End CAStep.

(* ------------------------------------------------------------------ *)
(** ** CAModel: the automaton keeps its agents apart *)

Lemma setNth_same {A} :
  forall (l : list A) (i : nat) (v : A),
  nth_error l i = Some v -> setNth i v l = l.
Proof.
induction l as [|a l IH]; intros [|i] v Hi; cbn in *; try discriminate.
- congruence.
- f_equal. apply IH. exact Hi.
Qed.

Lemma getNeighbors_adjacent (c n : CA.GridCell) :
  In n (CA.getNeighbors c) -> adjacent n c /\ n <> c.
Proof.
unfold CA.getNeighbors, CA.NEIGHBOR_OFFSETS, adjacent. cbn [map In].
intros Hn.
repeat (destruct Hn as [<- | Hn]; [cbn [CA.x CA.y]; split; [lia|]|]);
  try contradiction;
  intros Heq; apply (f_equal (fun c => (CA.x c, CA.y c))) in Heq;
  cbn in Heq; injection Heq as Hx Hy; lia.
Qed.

Section CASafe.
Context {T : Type} `{Number T}.

(** One agent's step on a well-formed state. *)
Lemma stepAgent_safe (this : CA.CAModel T) (index : nat) (a : CA.CAAgent) :
  wellFormed this ->
  nth_error (CA.agents this) index = Some a ->
  exists (this' : CA.CAModel T) (a' : CA.CAAgent),
    CA.stepAgent this index = Some this'
    /\ wellFormed this'
    /\ domainOf this' = domainOf this
    /\ CA.agents this' = setNth index a' (CA.agents this)
    /\ identityOfCA a' = identityOfCA a
    /\ adjacent (CA.cell a') (CA.cell a)
    /\ (CA.cell a' = CA.cell a
        \/ (CA.cell a' <> CA.cell a
            /\ gridLookup (CA.grid this) (CA.cell a') = Some None
            /\ gridLookup (CA.grid this') (CA.cell a) = Some None)).
Proof.
intros Hwf Ha.
destruct (stepAgent_run this index a Hwf Ha)
  as (best & grid' & a' & _ & Hstep & Hcell & Hid & Hbest & Hstay & Hmove
      & _).
destruct Hwf as (Hin & Hnodup & Hgrid).
assert (Hinside : CA.isInside this (CA.x (CA.cell a)) (CA.y (CA.cell a))
                  = true).
{ rewrite Forall_forall in Hin. apply Hin.
  eapply nth_error_In; eassumption. }
assert (Hcells : nth_error (cellsOf (CA.agents this)) index
                 = Some (CA.cell a)).
{ unfold cellsOf. rewrite nth_error_map, Ha. reflexivity. }
eexists. exists a'. split; [exact Hstep|].
rewrite <- Hcell in *.
assert (Hadj : adjacent (CA.cell a') (CA.cell a)).
{ destruct Hbest as [-> | (Hnb & _)].
  - unfold adjacent. split; rewrite Z.sub_diag; cbn; lia.
  - apply getNeighbors_adjacent. exact Hnb. }
assert (Hins' : CA.isInside this (CA.x (CA.cell a')) (CA.y (CA.cell a'))
                = true).
{ destruct Hbest as [-> | (_ & Hins & _)]; assumption. }
split; [|split; [reflexivity|split; [reflexivity|split; [exact Hid|
  split; [exact Hadj|]]]]].
- (* the state stays well-formed *)
  unfold wellFormed. cbn [CA.agents CA.grid CA.set_grid CA.set_agents].
  change (CA.isInside
            (CA.set_grid
               (CA.set_agents this (setNth index a' (CA.agents this)))
               grid'))
    with (CA.isInside this).
  unfold cellsOf. rewrite map_setNth. fold (cellsOf (CA.agents this)).
  destruct (cell_eq_dec (CA.cell a') (CA.cell a)) as [Heq | Hne].
  + rewrite Heq, (setNth_same _ _ _ Hcells), (Hstay Heq).
    split; [|split; assumption].
    apply Forall_setNth; [|exact Hin]. rewrite Heq. exact Hinside.
  + destruct (Hmove Hne) as (Hg1 & Hg2 & Hg3).
    destruct Hbest as [Hsame | (_ & _ & Hfree)]; [contradiction|].
    assert (Hnotin : ~ In (CA.cell a') (cellsOf (CA.agents this))).
    { destruct (Hgrid (CA.cell a') Hins') as (e & He & Hiff).
      apply Hiff. congruence. }
    split; [apply Forall_setNth; assumption|].
    split; [apply (NoDup_setNth _ (CA.cell a)); assumption|].
    intros c Hc.
    pose proof (In_setNth (CA.cell a') (CA.cell a) _ _ Hnodup Hcells c)
      as Hmem.
    destruct (cell_eq_dec c (CA.cell a')) as [-> | Hc1].
    * eexists. split; [exact Hg1|]. rewrite Hmem. split; [discriminate|].
      intros Hno. exfalso. apply Hno. left. reflexivity.
    * destruct (cell_eq_dec c (CA.cell a)) as [-> | Hc2].
      -- eexists. split; [exact Hg2|]. rewrite Hmem. split; [|reflexivity].
         intros _ [Heq | [_ Hneq]]; [congruence|]. apply Hneq. reflexivity.
      -- destruct (Hgrid c Hc) as (e & He & Hiff).
         exists e. rewrite (Hg3 c Hc1 Hc2). split; [exact He|].
         rewrite Hiff, Hmem. split.
         ++ intros Hno [Heq | [Hy _]]; [contradiction|]. apply Hno, Hy.
         ++ intros Hno Hy. apply Hno. right. split; assumption.
- destruct (cell_eq_dec (CA.cell a') (CA.cell a)) as [Heq | Hne];
    [left; exact Heq|right].
  destruct (Hmove Hne) as (_ & Hg2 & _).
  destruct Hbest as [Hsame | (_ & _ & Hfree)]; [contradiction|].
  split; [exact Hne|]. split; [exact Hfree|exact Hg2].
Qed.

(** In any arithmetic, the step of one agent keeps the state well-formed:
    every agent on the grid, no two agents on one cell, the grid marking
    exactly the cells of the agents.  It changes no other agent and nothing
    of the domain; the agent keeps its id, anchors and color, and it stays
    or moves to a cell next to its own that was free. *)
Theorem ca_stepAgent_safe (this : CA.CAModel T) (index : nat)
    (a : CA.CAAgent) :
  wellFormed this ->
  nth_error (CA.agents this) index = Some a ->
  exists (this' : CA.CAModel T) (a' : CA.CAAgent),
    CA.stepAgent this index = Some this'
    /\ wellFormed this'
    /\ domainOf this' = domainOf this
    /\ nth_error (CA.agents this') index = Some a'
    /\ (forall j, j <> index ->
          nth_error (CA.agents this') j = nth_error (CA.agents this) j)
    /\ identityOfCA a' = identityOfCA a
    /\ adjacent (CA.cell a') (CA.cell a)
    /\ (CA.cell a' = CA.cell a
        \/ gridLookup (CA.grid this) (CA.cell a') = Some None).
Proof.
intros Hwf Ha.
destruct (stepAgent_safe this index a Hwf Ha)
  as (this' & a' & Hstep & Hwf' & Hdom & Hags & Hid & Hadj & Hcell).
exists this', a'. split; [exact Hstep|]. split; [exact Hwf'|].
split; [exact Hdom|]. rewrite Hags. split.
{ rewrite nth_error_setNth, Nat.eqb_refl, Ha. reflexivity. }
split.
{ intros j Hj. rewrite nth_error_setNth.
  destruct (Nat.eqb_spec index j); [congruence|reflexivity]. }
split; [exact Hid|]. split; [exact Hadj|].
destruct Hcell as [Heq | (_ & Hfree & _)]; auto.
Qed.

End CASafe.

Lemma inside_four (c : CA.GridCell) :
  (0 <=? CA.x c)%Z && (CA.x c <? 4)%Z && (0 <=? CA.y c)%Z && (CA.y c <? 4)%Z
  = true ->
  In (CA.x c) [0; 1; 2; 3]%Z /\ In (CA.y c) [0; 1; 2; 3]%Z.
Proof.
intros Hc. apply andb_prop in Hc as [Hc Hy4]. apply andb_prop in Hc as [Hc Hy0].
apply andb_prop in Hc as [Hx0 Hx4].
apply Z.leb_le in Hx0, Hy0. apply Z.ltb_lt in Hx4, Hy4. cbn [In].
split; lia.
Qed.

Lemma wellFormed_two {T : Type} `{Number T} :
  wellFormed (CASample.two (T := T)).
Proof.
unfold wellFormed, CASample.two, cellsOf.
cbn [CA.agents CA.grid map CA.cell CASample.agentA CASample.agentB].
split; [repeat constructor|]. split.
- repeat constructor; cbn [In]; [|tauto].
  intros [Heq | []]. discriminate.
- intros [cx cy] Hc. unfold CA.isInside in Hc. cbn [CA.cols CA.rows] in Hc.
  apply inside_four in Hc. cbn [CA.x CA.y In] in Hc.
  destruct Hc as [Hx Hy].
  destruct Hx as [<- | [<- | [<- | [<- | []]]]];
    destruct Hy as [<- | [<- | [<- | [<- | []]]]];
    eexists; (split; [reflexivity|]); cbn [In];
    split; try discriminate; try reflexivity;
    try (intros _ [Heq | [Heq | []]]; discriminate);
    intros Hno; exfalso; apply Hno; auto.
Qed.

(** The same grid when the first agent has been stuck for [n] rounds. *)
Lemma wellFormed_two_stuck {T : Type} `{Number T} (n : nat) :
  wellFormed
    (CA.set_agents (CASample.two (T := T))
       [CA.set_stuckSteps CASample.agentA n; CASample.agentB]).
Proof.
unfold wellFormed, CA.set_agents, CA.set_stuckSteps, CASample.two, cellsOf.
cbn [CA.agents CA.grid map CA.cell CASample.agentA CASample.agentB].
split; [repeat constructor|]. split.
- repeat constructor; cbn [In]; [|tauto].
  intros [Heq | []]. discriminate.
- intros [cx cy] Hc. unfold CA.isInside in Hc. cbn [CA.cols CA.rows] in Hc.
  apply inside_four in Hc. cbn [CA.x CA.y In] in Hc.
  destruct Hc as [Hx Hy].
  destruct Hx as [<- | [<- | [<- | [<- | []]]]];
    destruct Hy as [<- | [<- | [<- | [<- | []]]]];
    eexists; (split; [reflexivity|]); cbn [In];
    split; try discriminate; try reflexivity;
    try (intros _ [Heq | [Heq | []]]; discriminate);
    intros Hno; exfalso; apply Hno; auto.
Qed.

Lemma ca_stepAgent_safe_witness :
  exists (this' : CA.CAModel PrimFloat.float) (a' : CA.CAAgent),
    CA.stepAgent CASample.two 0 = Some this'
    /\ wellFormed this'
    /\ nth_error (CA.agents this') 0 = Some a'
    /\ adjacent (CA.cell a') (CA.mkGridCell 1 1).
Proof.
destruct (ca_stepAgent_safe (T := PrimFloat.float) CASample.two 0
            CASample.agentA wellFormed_two eq_refl)
  as (this' & a' & Hstep & Hwf & _ & Hnth & _ & _ & Hadj & _).
exists this', a'. auto.
Defined.

(* ------------------------------------------------------------------ *)
(** ** CAModel: one round of the automaton *)

Lemma Forall2_setNth_r {A B} (P : A -> B -> Prop) (a : A) (b' : B) :
  forall (l : list A) (l' : list B) (i : nat),
  Forall2 P l l' -> nth_error l i = Some a -> P a b' ->
  Forall2 P l (setNth i b' l').
Proof.
intros l l' i Hall. revert i.
induction Hall as [|x y l l' Hxy Hall IH]; intros [|i] Hi Hab; cbn in *;
  try discriminate.
- injection Hi as ->. constructor; assumption.
- constructor; [exact Hxy|]. apply IH; assumption.
Qed.

Lemma adjacent_refl (c : CA.GridCell) : adjacent c c.
Proof. unfold adjacent. rewrite !Z.sub_diag. cbn. lia. Qed.

Section CARound.
Context {T : Type} `{Number T}.

Lemma steps_safe (this0 : CA.CAModel T) :
  forall order : list nat,
  NoDup order ->
  Forall (fun i => i < length (CA.agents this0)) order ->
  forall st : CA.CAModel T,
  roundInvariant this0 order st ->
  exists st',
    forM order st CA.stepAgent = Some st' /\ roundInvariant this0 [] st'.
Proof.
induction order as [|i order IH]; intros Hnd Hlt st Hinv; cbn [forM].
- exists st. split; [reflexivity|exact Hinv].
- inversion Hnd as [|? ? Hnotin Hnd']; subst.
  inversion Hlt as [|? ? Hi Hlt']; subst.
  destruct Hinv as (Hwf & Hdom & Hid & Hadj & Htodo).
  destruct (nth_error_some_lt (CA.agents this0) i Hi) as (a & Ha0).
  assert (Ha : nth_error (CA.agents st) i = Some a).
  { rewrite (Htodo i (or_introl eq_refl)). exact Ha0. }
  destruct (stepAgent_safe st i a Hwf Ha)
    as (st1 & a' & -> & Hwf1 & Hdom1 & Hags1 & Hid1 & Hadj1 & _).
  cbn [bind]. apply IH; [exact Hnd'|exact Hlt'|].
  split; [exact Hwf1|]. split; [congruence|]. rewrite Hags1. split.
  { rewrite (setNth_map identityOfCA i a' a _ Ha Hid1). exact Hid. }
  split.
  { apply (Forall2_setNth_r _ a a'); assumption. }
  intros j Hj. rewrite nth_error_setNth.
  destruct (Nat.eqb_spec i j) as [-> | _]; [contradiction|].
  apply Htodo. right. exact Hj.
Qed.

End CARound.

Local Open Scope R_scope.

Lemma advanceAutomata_safe (random : nat -> R) (this : CA.CAModel R)
    (k : nat) :
  (forall n, 0 <= random n < 1) ->
  wellFormed this ->
  exists this',
    CA.advanceAutomata random this k
    = Some (this', (k + (length (CA.agents this) - 1))%nat)
    /\ roundInvariant this [] this'.
Proof.
intros Hrandom Hwf.
assert (Hstart : forall todo, roundInvariant this todo this).
{ intros todo. split; [exact Hwf|]. split; [reflexivity|].
  split; [reflexivity|]. split; [|reflexivity].
  clear. induction (CA.agents this); constructor; auto.
  apply adjacent_refl. }
unfold CA.advanceAutomata.
destruct (Nat.eqb_spec (length (CA.agents this)) 0) as [Hlen | Hlen].
- exists this. rewrite Hlen, Nat.add_0_r. split; [reflexivity|].
  apply Hstart.
- 
  destruct (shuffleLoop_spec random Hrandom
              (length (seq 0 (length (CA.agents this))) - 1)
              (seq 0 (length (CA.agents this))) k)
    as (order & Hrun & Hperm).
  { rewrite length_seq. lia. }
  unfold CA.shuffle. rewrite Hrun. cbn [bind fst snd].
  destruct (steps_safe this order) with (st := this)
    as (this' & -> & Hinv).
  + eapply Permutation_NoDup; [exact Hperm|apply seq_NoDup].
  + apply Forall_forall. intros i Hi.
    apply (Permutation_in _ (Permutation_sym Hperm)), in_seq in Hi. lia.
  + apply Hstart.
  + cbn [bind]. exists this'. rewrite length_seq. split; [reflexivity|].
    exact Hinv.
Qed.

(** A round of the automaton, with draws of [Math.random()] in [0, 1):
    it returns, the state stays well-formed (no two agents on one cell),
    the domain and the identities of the agents are unchanged, and every
    agent is on its cell or on one next to it. *)
Theorem ca_advanceAutomata_safe (random : nat -> R) (this : CA.CAModel R)
    (k : nat) :
  (forall n, 0 <= random n < 1) ->
  wellFormed this ->
  exists this',
    CA.advanceAutomata random this k
    = Some (this', (k + (length (CA.agents this) - 1))%nat)
    /\ wellFormed this'
    /\ domainOf this' = domainOf this
    /\ map identityOfCA (CA.agents this')
       = map identityOfCA (CA.agents this)
    /\ Forall2 (fun a a' => adjacent (CA.cell a') (CA.cell a))
         (CA.agents this) (CA.agents this').
Proof.
intros Hrandom Hwf.
destruct (advanceAutomata_safe random this k Hrandom Hwf)
  as (this' & Hrun & Hwf' & Hdom & Hid & Hadj & _).
exists this'. auto.
Qed.

Lemma ca_advanceAutomata_safe_witness :
  exists this',
    CA.advanceAutomata (fun _ : nat => 1 / 2) CASample.two 0
    = Some (this', 1%nat)
    /\ wellFormed this'.
Proof.
destruct (ca_advanceAutomata_safe (fun _ : nat => 1 / 2) CASample.two 0)
  as (this' & Hrun & Hwf & _).
- intros _. lra.
- apply wellFormed_two.
- exists this'. split; [exact Hrun|exact Hwf].
Defined.

(* ------------------------------------------------------------------ *)
(** ** CAModel: the choice of the next cell, in real arithmetic *)

(** The loop over the neighbors of an agent that may not drift: the
    distance kept is that of the cell kept, every change of cell gains more
    than 0.001, and no free neighbor on the grid is more than 0.001 closer
    than the cell the loop ends on. *)
Lemma considerNeighbors_greedy (this : CA.CAModel R) (target : CA.GridCell) :
  (forall c, CA.isInside this (CA.x c) (CA.y c) = true ->
     exists e, gridLookup (CA.grid this) c = Some e) ->
  forall (neighbors : list CA.GridCell) (st best : CA.GridCell * R),
  snd st = CA.cellDistance (fst st) target ->
  forM neighbors st (CA.considerNeighbor this target false) = Some best ->
  snd best = CA.cellDistance (fst best) target
  /\ (best = st \/ snd best + 1 / 1000 < snd st)
  /\ forall n, In n neighbors ->
       CA.isInside this (CA.x n) (CA.y n) = true ->
       gridLookup (CA.grid this) n = Some None ->
       snd best <= CA.cellDistance n target + 1 / 1000.
Proof.
intros Hgrid.
induction neighbors as [|n neighbors IH]; intros [bestCell bestDistance] best
  Hst; cbn [forM].
- intros [= <-]. split; [exact Hst|]. split; [left; reflexivity|].
  intros n [].
- unfold CA.considerNeighbor at 1. cbn [fst snd] in *.
  assert (Hskip :
    (CA.isInside this (CA.x n) (CA.y n) = true ->
     gridLookup (CA.grid this) n = Some None ->
     bestDistance <= CA.cellDistance n target + 1 / 1000) ->
    forM neighbors (bestCell, bestDistance)
      (CA.considerNeighbor this target false) = Some best ->
    snd best = CA.cellDistance (fst best) target
    /\ (best = (bestCell, bestDistance) \/ snd best + 1 / 1000 < bestDistance)
    /\ forall m, n = m \/ In m neighbors ->
         CA.isInside this (CA.x m) (CA.y m) = true ->
         gridLookup (CA.grid this) m = Some None ->
         snd best <= CA.cellDistance m target + 1 / 1000).
  { intros Hn Hrun.
    destruct (IH (bestCell, bestDistance) best Hst Hrun)
      as (Hd & Hgain & Hall).
    split; [exact Hd|]. split; [exact Hgain|].
    intros m [<- | Hm] Hins Hfree; [|apply Hall; assumption].
    specialize (Hn Hins Hfree).
    destruct Hgain as [-> | Hlt]; cbn [snd] in *; lra. }
  destruct (CA.isInside this (CA.x n) (CA.y n)) eqn:Hinside;
    cbn [negb bind]; [|apply Hskip; discriminate].
  destruct (Hgrid n Hinside) as (e & He).
  rewrite (gridLookup_notNull _ _ _ He). cbn [bind].
  destruct e as [s|]; [apply Hskip; intros _ Hfree; congruence|].
  rewrite andb_false_l, orb_false_r.
  change (dec (T := R) 1 1000) with (1 / 1000).
  cbn [nltb nadd R_Number].
  destruct (Rltb_spec (CA.cellDistance n target + 1 / 1000) bestDistance)
    as [Hlt | Hge]; [|apply Hskip; intros _ _; exact Hge].
  intros Hrun.
  assert (Hst' : snd (n, CA.cellDistance (T := R) n target)
                 = CA.cellDistance (fst (n, CA.cellDistance (T := R) n target))
                     target) by reflexivity.
  destruct (IH (n, CA.cellDistance n target) best Hst' Hrun)
    as (Hd & Hgain & Hall). cbn [fst snd] in *.
  split; [exact Hd|]. split.
  + right. destruct Hgain as [-> | Hlt']; cbn [snd]; lra.
  + intros m [<- | Hm] Hins Hfree; [|apply Hall; assumption].
    destruct Hgain as [-> | Hlt']; cbn [snd]; lra.
Qed.

(** The step of an agent that has been stuck for less than four rounds is
    greedy.  The agent moves exactly when a free neighbor on the grid is
    more than 0.001 closer to its goal than its own cell; the cell it ends
    on is then more than 0.001 closer than the one it left, and no free
    neighbor is more than 0.001 closer than that.  On its goal the agent
    turns round and [stuckSteps] is reset; otherwise [stuckSteps] is reset
    by a move and grows by one without. *)
Theorem ca_stepAgent_greedy (this : CA.CAModel R) (index : nat)
    (a : CA.CAAgent) :
  wellFormed this ->
  nth_error (CA.agents this) index = Some a ->
  (CA.stuckSteps a < 4)%nat ->
  let target := CA.anchorAt a (CA.targetIndex a) in
  let free n :=
    In n (CA.getNeighbors (CA.cell a))
    /\ CA.isInside this (CA.x n) (CA.y n) = true
    /\ gridLookup (CA.grid this) n = Some None in
  exists (this' : CA.CAModel R) (a' : CA.CAAgent),
    CA.stepAgent this index = Some this'
    /\ nth_error (CA.agents this') index = Some a'
    /\ (CA.cell a' <> CA.cell a
        <-> exists n,
              free n
              /\ CA.cellDistance n target + 1 / 1000
                 < CA.cellDistance (CA.cell a) target)
    /\ (CA.cell a' <> CA.cell a ->
        free (CA.cell a')
        /\ CA.cellDistance (CA.cell a') target + 1 / 1000
           < CA.cellDistance (CA.cell a) target)
    /\ (forall n, free n ->
          CA.cellDistance (CA.cell a') target
          <= CA.cellDistance n target + 1 / 1000)
    /\ (CA.cell a' = target ->
        CA.stuckSteps a' = 0%nat
        /\ CA.targetIndex a'
           = match CA.targetIndex a with H0 => H1 | H1 => H0 end)
    /\ (CA.cell a' <> target ->
        CA.targetIndex a' = CA.targetIndex a
        /\ CA.stuckSteps a'
           = if cell_eq_dec (CA.cell a') (CA.cell a)
             then S (CA.stuckSteps a) else 0%nat).
Proof.
intros Hwf Ha Hstuck target free.
destruct (stepAgent_run this index a Hwf Ha)
  as (best & grid' & a' & Hrun & Hstep & Hcell & _ & Hbest & _ & _
      & Hsteps & Hindex).
fold target in Hrun, Hsteps, Hindex.
assert (Hdrift : (4 <=? CA.stuckSteps a)%nat = false).
{ apply Nat.leb_gt. exact Hstuck. }
rewrite Hdrift in Hrun.
assert (Hlook : forall c, CA.isInside this (CA.x c) (CA.y c) = true ->
          exists e, gridLookup (CA.grid this) c = Some e).
{ intros c Hc. destruct Hwf as (_ & _ & Hgrid).
  destruct (Hgrid c Hc) as (e & He & _). eauto. }
assert (Hst : snd (CA.cell a, CA.cellDistance (T := R) (CA.cell a) target)
              = CA.cellDistance
                  (fst (CA.cell a,
                        CA.cellDistance (T := R) (CA.cell a) target))
                  target) by reflexivity.
destruct (considerNeighbors_greedy this target Hlook
            (CA.getNeighbors (CA.cell a))
            (CA.cell a, CA.cellDistance (CA.cell a) target) best
            Hst Hrun)
  as (Hd & Hgain & Hall).
cbn [fst snd] in Hgain.
rewrite <- Hcell in *.
assert (Hmoved : CA.cell a' <> CA.cell a ->
          free (CA.cell a')
          /\ CA.cellDistance (CA.cell a') target + 1 / 1000
             < CA.cellDistance (CA.cell a) target).
{ intros Hne.
  destruct Hbest as [Hsame | Hfree]; [contradiction|].
  split; [exact Hfree|].
  destruct Hgain as [Heq | Hlt]; [|rewrite <- Hd; exact Hlt].
  rewrite Heq in Hcell. cbn [fst] in Hcell. contradiction. }
eexists. exists a'. split; [exact Hstep|]. split.
{ cbn [CA.agents CA.set_grid CA.set_agents].
  rewrite nth_error_setNth, Nat.eqb_refl, Ha. reflexivity. }
split; [split|].
- intros Hne. exists (CA.cell a'). apply Hmoved. exact Hne.
- intros (n & (Hn & Hins & Hfree) & Hcloser) Heq.
  specialize (Hall n Hn Hins Hfree). rewrite Hd, Heq in Hall. lra.
- split; [exact Hmoved|]. split.
  { intros n (Hn & Hins & Hfree). rewrite <- Hd. apply Hall; assumption. }
  split.
  + intros Hat. rewrite Hsteps, Hindex.
    destruct (cell_eq_dec (CA.cell a') target); [auto|contradiction].
  + intros Hnot. rewrite Hsteps, Hindex.
    destruct (cell_eq_dec (CA.cell a') target); [contradiction|].
    split; reflexivity.
Qed.

Lemma ca_stepAgent_greedy_witness :
  exists (this' : CA.CAModel R) (a' : CA.CAAgent),
    CA.stepAgent CASample.two 0 = Some this'
    /\ nth_error (CA.agents this') 0 = Some a'
    /\ CA.cellDistance (T := R) (CA.cell a') (CA.mkGridCell 2 1)
       <= CA.cellDistance (CA.mkGridCell 2 0) (CA.mkGridCell 2 1) + 1 / 1000.
Proof.
destruct (ca_stepAgent_greedy CASample.two 0 CASample.agentA
            wellFormed_two eq_refl)
  as (this' & a' & Hstep & Hnth & _ & _ & Hbest & _).
- cbn. lia.
- exists this', a'. split; [exact Hstep|]. split; [exact Hnth|].
  apply Hbest. split; [|split; reflexivity].
  cbn. tauto.
Defined.

(** The loop over the neighbors of an agent that may drift: without a free
    neighbor that is at most 0.001 farther than the cell kept, nothing
    changes. *)
Lemma considerNeighbors_drift_none (this : CA.CAModel R)
    (target : CA.GridCell) :
  (forall c, CA.isInside this (CA.x c) (CA.y c) = true ->
     exists e, gridLookup (CA.grid this) c = Some e) ->
  forall (neighbors : list CA.GridCell) (st : CA.GridCell * R),
  (forall n, In n neighbors ->
     CA.isInside this (CA.x n) (CA.y n) = true ->
     gridLookup (CA.grid this) n = Some None ->
     snd st + 1 / 1000 < CA.cellDistance n target) ->
  forM neighbors st (CA.considerNeighbor this target true) = Some st.
Proof.
intros Hgrid.
induction neighbors as [|n neighbors IH]; intros [bestCell bestDistance]
  Hfar; cbn [forM]; [reflexivity|].
unfold CA.considerNeighbor at 1. cbn [snd] in Hfar.
assert (Hrest : forM neighbors (bestCell, bestDistance)
                  (CA.considerNeighbor this target true)
                = Some (bestCell, bestDistance)).
{ apply IH. intros m Hm. apply Hfar. right. exact Hm. }
destruct (CA.isInside this (CA.x n) (CA.y n)) eqn:Hinside;
  cbn [negb bind]; [|exact Hrest].
destruct (Hgrid n Hinside) as (e & He).
rewrite (gridLookup_notNull _ _ _ He). cbn [bind].
destruct e as [s|]; [exact Hrest|].
specialize (Hfar n (or_introl eq_refl) Hinside He).
change (dec (T := R) 1 1000) with (1 / 1000).
cbn [nltb nleb nadd R_Number].
rewrite (Rltb_false (CA.cellDistance n target + 1 / 1000) bestDistance)
  by lra.
rewrite (Rleb_false (CA.cellDistance n target) (bestDistance + 1 / 1000))
  by lra.
cbn [orb andb bind]. exact Hrest.
Qed.

(** With such a neighbor, the loop ends on a free neighbor. *)
Lemma considerNeighbors_drift_some (this : CA.CAModel R)
    (target : CA.GridCell) :
  (forall c, CA.isInside this (CA.x c) (CA.y c) = true ->
     exists e, gridLookup (CA.grid this) c = Some e) ->
  forall (neighbors : list CA.GridCell) (st best : CA.GridCell * R),
  (exists n, In n neighbors
     /\ CA.isInside this (CA.x n) (CA.y n) = true
     /\ gridLookup (CA.grid this) n = Some None
     /\ CA.cellDistance n target <= snd st + 1 / 1000) ->
  forM neighbors st (CA.considerNeighbor this target true) = Some best ->
  In (fst best) neighbors
  /\ CA.isInside this (CA.x (fst best)) (CA.y (fst best)) = true
  /\ gridLookup (CA.grid this) (fst best) = Some None.
Proof.
intros Hgrid.
induction neighbors as [|n neighbors IH]; intros [bestCell bestDistance] best
  (m & Hm & Hins & Hfree & Hclose); [contradiction|].
cbn [forM]. unfold CA.considerNeighbor at 1. cbn [snd] in Hclose.
assert (Hskip : m <> n ->
          forM neighbors (bestCell, bestDistance)
            (CA.considerNeighbor this target true) = Some best ->
          In (fst best) (n :: neighbors)
          /\ CA.isInside this (CA.x (fst best)) (CA.y (fst best)) = true
          /\ gridLookup (CA.grid this) (fst best) = Some None).
{ intros Hne Hrun. destruct Hm as [Heq | Hm]; [congruence|].
  destruct (IH (bestCell, bestDistance) best) as (Hin & Hrest);
    [exists m; auto|exact Hrun|].
  split; [right; exact Hin|exact Hrest]. }
destruct (CA.isInside this (CA.x n) (CA.y n)) eqn:Hinside;
  cbn [negb bind]; [|apply Hskip; congruence].
destruct (Hgrid n Hinside) as (e & He).
rewrite (gridLookup_notNull _ _ _ He). cbn [bind].
destruct e as [s|]; [apply Hskip; congruence|].
change (dec (T := R) 1 1000) with (1 / 1000).
cbn [nltb nleb nadd R_Number].
destruct (Rleb_spec (CA.cellDistance n target) (bestDistance + 1 / 1000))
  as [Hle | Hgt].
- rewrite andb_true_l, orb_true_r. cbn [bind]. intros Hrun.
  destruct (considerNeighbors_spec this target true Hgrid neighbors
              (n, CA.cellDistance n target))
    as (best' & Hrun' & Hbest).
  assert (best' = best) by congruence. subst best'. cbn [fst] in Hbest.
  destruct Hbest as [-> | (Hin & Hrest)].
  + split; [left; reflexivity|]. split; assumption.
  + split; [right; exact Hin|exact Hrest].
- rewrite (Rltb_false (CA.cellDistance n target + 1 / 1000) bestDistance)
    by lra.
  cbn [orb andb]. apply Hskip. intros ->. lra.
Qed.

(** Drifting costs at most 0.001 for every neighbor looked at. *)
Lemma considerNeighbors_drift_bound (this : CA.CAModel R)
    (target : CA.GridCell) :
  (forall c, CA.isInside this (CA.x c) (CA.y c) = true ->
     exists e, gridLookup (CA.grid this) c = Some e) ->
  forall (neighbors : list CA.GridCell) (st best : CA.GridCell * R),
  snd st = CA.cellDistance (fst st) target ->
  forM neighbors st (CA.considerNeighbor this target true) = Some best ->
  snd best = CA.cellDistance (fst best) target
  /\ snd best <= snd st + INR (length neighbors) * (1 / 1000).
Proof.
intros Hgrid.
induction neighbors as [|n neighbors IH]; intros [bestCell bestDistance] best
  Hst; cbn [forM].
- intros [= <-]. split; [exact Hst|]. cbn [length INR snd]. lra.
- unfold CA.considerNeighbor at 1. cbn [fst snd] in *.
  change (length (n :: neighbors)) with (S (length neighbors)).
  rewrite S_INR.
  assert (Hskip :
    forM neighbors (bestCell, bestDistance)
      (CA.considerNeighbor this target true) = Some best ->
    snd best = CA.cellDistance (fst best) target
    /\ snd best
       <= bestDistance + (INR (length neighbors) + 1) * (1 / 1000)).
  { intros Hrun.
    destruct (IH (bestCell, bestDistance) best Hst Hrun) as (Hd & Hle).
    split; [exact Hd|]. cbn [snd] in Hle. lra. }
  destruct (CA.isInside this (CA.x n) (CA.y n)) eqn:Hinside;
    cbn [negb bind]; [|exact Hskip].
  destruct (Hgrid n Hinside) as (e & He).
  rewrite (gridLookup_notNull _ _ _ He). cbn [bind].
  destruct e as [s|]; [exact Hskip|].
  change (dec (T := R) 1 1000) with (1 / 1000).
  cbn [nltb nleb nadd R_Number]. rewrite andb_true_l.
  destruct (Rltb_spec (CA.cellDistance n target + 1 / 1000) bestDistance)
    as [Hlt | Hge];
    destruct (Rleb_spec (CA.cellDistance n target) (bestDistance + 1 / 1000))
      as [Hle | Hgt]; cbn [orb bind]; try exact Hskip; try lra;
    intros Hrun;
    (assert (Hst' : snd (n, CA.cellDistance (T := R) n target)
                    = CA.cellDistance
                        (fst (n, CA.cellDistance (T := R) n target)) target)
       by reflexivity);
    destruct (IH (n, CA.cellDistance n target) best Hst' Hrun)
      as (Hd & Hbound); cbn [snd] in Hbound; (split; [exact Hd|lra]).
Qed.

(** Either some free neighbor on the grid is at most 0.001 farther from
    the goal than [d], or all of them are more than that farther. *)
Lemma drift_dichotomy (this : CA.CAModel R) (target : CA.GridCell) (d : R) :
  forall neighbors : list CA.GridCell,
  (exists n, In n neighbors
     /\ CA.isInside this (CA.x n) (CA.y n) = true
     /\ gridLookup (CA.grid this) n = Some None
     /\ CA.cellDistance n target <= d + 1 / 1000)
  \/ (forall n, In n neighbors ->
        CA.isInside this (CA.x n) (CA.y n) = true ->
        gridLookup (CA.grid this) n = Some None ->
        d + 1 / 1000 < CA.cellDistance n target).
Proof.
induction neighbors as [|n neighbors [(m & Hm & Hrest) | Hall]].
- right. intros n [].
- left. exists m. split; [right; exact Hm|exact Hrest].
- destruct (CA.isInside this (CA.x n) (CA.y n)) eqn:Hinside.
  2:{ right. intros m [<- | Hm] Hins Hfree; [congruence|].
      apply Hall; assumption. }
  destruct (gridLookup (CA.grid this) n) as [[s|]|] eqn:Hlook.
  1,3: right; intros m [<- | Hm] Hins Hfree; [congruence|];
       apply Hall; assumption.
  destruct (Rle_lt_dec (CA.cellDistance n target) (d + 1 / 1000))
    as [Hle | Hlt].
  + left. exists n. split; [left; reflexivity|]. auto.
  + right. intros m [<- | Hm] Hins Hfree; [exact Hlt|].
    apply Hall; assumption.
Qed.

(** The step of an agent that has been stuck for four rounds or more may
    drift.  The agent moves exactly when a free neighbor on the grid is at
    most 0.001 farther from its goal than its own cell; it then ends on a
    free neighbor, [stuckSteps] is reset, and the cell it ends on is at
    most 0.008 farther from the goal than the one it left. *)
Theorem ca_stepAgent_drift (this : CA.CAModel R) (index : nat)
    (a : CA.CAAgent) :
  wellFormed this ->
  nth_error (CA.agents this) index = Some a ->
  (4 <= CA.stuckSteps a)%nat ->
  let target := CA.anchorAt a (CA.targetIndex a) in
  let free n :=
    In n (CA.getNeighbors (CA.cell a))
    /\ CA.isInside this (CA.x n) (CA.y n) = true
    /\ gridLookup (CA.grid this) n = Some None in
  exists (this' : CA.CAModel R) (a' : CA.CAAgent),
    CA.stepAgent this index = Some this'
    /\ nth_error (CA.agents this') index = Some a'
    /\ (CA.cell a' <> CA.cell a
        <-> exists n,
              free n
              /\ CA.cellDistance n target
                 <= CA.cellDistance (CA.cell a) target + 1 / 1000)
    /\ (CA.cell a' <> CA.cell a ->
        free (CA.cell a') /\ CA.stuckSteps a' = 0%nat)
    /\ CA.cellDistance (CA.cell a') target
       <= CA.cellDistance (CA.cell a) target + 8 / 1000.
Proof.
intros Hwf Ha Hstuck target free.
destruct (stepAgent_run this index a Hwf Ha)
  as (best & grid' & a' & Hrun & Hstep & Hcell & _ & Hbest & _ & _
      & Hsteps & _).
fold target in Hrun, Hsteps.
assert (Hdrift : (4 <=? CA.stuckSteps a)%nat = true).
{ apply Nat.leb_le. exact Hstuck. }
rewrite Hdrift in Hrun.
assert (Hlook : forall c, CA.isInside this (CA.x c) (CA.y c) = true ->
          exists e, gridLookup (CA.grid this) c = Some e).
{ intros c Hc. destruct Hwf as (_ & _ & Hgrid).
  destruct (Hgrid c Hc) as (e & He & _). eauto. }
assert (Hst : snd (CA.cell a, CA.cellDistance (T := R) (CA.cell a) target)
              = CA.cellDistance
                  (fst (CA.cell a,
                        CA.cellDistance (T := R) (CA.cell a) target))
                  target) by reflexivity.
destruct (considerNeighbors_drift_bound this target Hlook
            (CA.getNeighbors (CA.cell a))
            (CA.cell a, CA.cellDistance (CA.cell a) target) best Hst Hrun)
  as (Hd & Hbound).
cbn [snd] in Hbound.
change (length (CA.getNeighbors (CA.cell a))) with 8%nat in Hbound.
rewrite <- Hcell in *.
assert (Hmoved : CA.cell a' <> CA.cell a -> free (CA.cell a')).
{ intros Hne. destruct Hbest as [Hsame | Hfree]; [contradiction|].
  exact Hfree. }
eexists. exists a'. split; [exact Hstep|]. split.
{ cbn [CA.agents CA.set_grid CA.set_agents].
  rewrite nth_error_setNth, Nat.eqb_refl, Ha. reflexivity. }
split.
- destruct (drift_dichotomy this target
              (CA.cellDistance (CA.cell a) target)
              (CA.getNeighbors (CA.cell a)))
    as [(n & Hn & Hins & Hfree & Hclose) | Hnone].
  + split; [intros _; exists n; split; [split; auto|exact Hclose]|].
    intros _ Heq.
    destruct (considerNeighbors_drift_some this target Hlook
                (CA.getNeighbors (CA.cell a))
                (CA.cell a, CA.cellDistance (CA.cell a) target) best)
      as (Hin & _); [exists n; auto|exact Hrun|].
    rewrite <- Hcell, Heq in Hin.
    apply getNeighbors_adjacent in Hin. destruct Hin as (_ & Hne).
    apply Hne. reflexivity.
  + rewrite (considerNeighbors_drift_none this target Hlook
               (CA.getNeighbors (CA.cell a))
               (CA.cell a, CA.cellDistance (CA.cell a) target) Hnone)
      in Hrun.
    injection Hrun as <-. cbn [fst] in Hcell. split.
    * intros Hne. contradiction.
    * intros (n & (Hn & Hins & Hfree) & Hclose).
      specialize (Hnone n Hn Hins Hfree). lra.
- split.
  + intros Hne. split; [apply Hmoved; exact Hne|].
    rewrite Hsteps.
    destruct (cell_eq_dec (CA.cell a') target); [reflexivity|].
    destruct (cell_eq_dec (CA.cell a') (CA.cell a)); [contradiction|].
    reflexivity.
  + cbn [INR] in Hbound. lra.
Qed.

Lemma ca_stepAgent_drift_witness :
  exists (this' : CA.CAModel R) (a' : CA.CAAgent),
    CA.stepAgent
      (CA.set_agents CASample.two
         [CA.set_stuckSteps CASample.agentA 4; CASample.agentB]) 0
    = Some this'
    /\ nth_error (CA.agents this') 0 = Some a'
    /\ CA.cellDistance (T := R) (CA.cell a') (CA.mkGridCell 2 1)
       <= CA.cellDistance (CA.mkGridCell 1 1) (CA.mkGridCell 2 1) + 8 / 1000.
Proof.
destruct (ca_stepAgent_drift
            (CA.set_agents CASample.two
               [CA.set_stuckSteps CASample.agentA 4; CASample.agentB]) 0
            (CA.set_stuckSteps CASample.agentA 4))
  as (this' & a' & Hstep & Hnth & _ & _ & Hbound).
- exact (wellFormed_two_stuck (T := R) 4).
- reflexivity.
- cbn. lia.
- exists this', a'. split; [exact Hstep|]. split; [exact Hnth|].
  exact Hbound.
Defined.

(* ------------------------------------------------------------------ *)
(** ** CAModel: the parameters and the loop of [update] *)

Lemma resolveUpdateRate_bounds (this : CA.CAModel R) :
  25 / 100 <= CA.resolveUpdateRate this <= 6.
Proof.
unfold CA.resolveUpdateRate. rnum. split; [apply Rmax_l|].
apply Rmax_lub; [lra|apply Rmin_l].
Qed.

Lemma stepInterval_bounds (this : CA.CAModel R) :
  35 / 600 <= CA.BASE_STEP_SECONDS / CA.resolveUpdateRate this <= 14 / 10.
Proof.
pose proof (resolveUpdateRate_bounds this) as [Hlo Hhi].
unfold CA.BASE_STEP_SECONDS. rnum.
set (rate := CA.resolveUpdateRate this) in *.
assert (Hinv : 1 / 6 <= / rate <= 4).
{ split.
  - replace (1 / 6) with (/ 6) by lra.
    apply Rinv_le_contravar; lra.
  - replace 4 with (/ (25 / 100)) by lra.
    apply Rinv_le_contravar; lra. }
unfold Rdiv at 2 4. lra.
Qed.

(** The parameters are clamped: the update rate to [0.25, 6], with 1.25
    for a rate that is not set; the cell size to [10, 60] and rounded, with
    24 for a size that is not set.  An integer size in the range is taken
    as it is. *)
Theorem ca_resolve_bounds (this : CA.CAModel R) :
  25 / 100 <= CA.resolveUpdateRate this <= 6
  /\ (10 <= CA.resolveCellSize this <= 60)%Z
  /\ (getParam (CA.params this) "updateRate" = None ->
      CA.resolveUpdateRate this = 125 / 100)
  /\ (forall v, getParam (CA.params this) "updateRate" = Some v ->
        25 / 100 <= v <= 6 -> CA.resolveUpdateRate this = v)
  /\ (getParam (CA.params this) "cellSize" = None ->
      CA.resolveCellSize this = 24%Z)
  /\ (forall z, getParam (CA.params this) "cellSize" = Some (IZR z) ->
        (10 <= z <= 60)%Z -> CA.resolveCellSize this = z).
Proof.
split; [apply resolveUpdateRate_bounds|].
assert (Hclamp : forall v, 10 <= Rmax 10 (Rmin 60 v) <= 60).
{ intros v. split; [apply Rmax_l|]. apply Rmax_lub; [lra|apply Rmin_l]. }
assert (Hint : forall z, (10 <= z <= 60)%Z ->
          Zfloor (Rmax 10 (Rmin 60 (IZR z)) + 1 / 2) = z).
{ intros z [Hlo Hhi]. apply IZR_le in Hlo, Hhi.
  rewrite Rmin_right, Rmax_right by lra. apply Zfloor_eq. lra. }
unfold CA.resolveCellSize, CA.resolveUpdateRate, CA.DEFAULT_RATE,
  CA.DEFAULT_CELL_SIZE.
rnum. cbn [nround R_Floor].
split; [|split; [|split; [|split]]].
- set (clamped := Rmax 10 (Rmin 60 _)).
  destruct (Hclamp (orElse (getParam (CA.params this) "cellSize") 24))
    as [Hlo Hhi]. fold clamped in Hlo, Hhi.
  pose proof (Zfloor_bound (clamped + 1 / 2)) as [Hfl Hfu].
  split.
  + apply Zfloor_lub. lra.
  + apply Z.lt_succ_r, lt_IZR. change (Z.succ 60) with 61%Z. lra.
- intros ->. cbn [orElse]. rewrite Rmin_right, Rmax_right by lra.
  reflexivity.
- intros v -> [Hlo Hhi]. cbn [orElse].
  rewrite Rmin_right, Rmax_right by lra. reflexivity.
- intros ->. cbn [orElse]. apply (Hint 24%Z). lia.
- intros z -> Hz. cbn [orElse]. apply Hint. exact Hz.
Qed.

Lemma ca_resolve_bounds_witness :
  CA.resolveCellSize (T := R) (CA.create []) = 24%Z
  /\ CA.resolveUpdateRate (T := R) (CA.create []) = 125 / 100.
Proof.
destruct (ca_resolve_bounds (CA.create [])) as (_ & _ & Hrate & _ & Hcell & _).
split; [apply Hcell|apply Hrate]; reflexivity.
Defined.

Lemma wellFormed_set_accumulator (this : CA.CAModel R) (v : R) :
  wellFormed this -> wellFormed (CA.set_accumulator this v).
Proof. intros Hwf. exact Hwf. Qed.

(** The loop of [update] makes as many rounds as the step interval fits
    into the accumulator, given fuel for them. *)
Lemma updateLoop_rounds (random : nat -> R) (stepInterval : R) :
  (forall n, 0 <= random n < 1) -> 0 < stepInterval ->
  forall (n fuel : nat) (this : CA.CAModel R) (k : nat),
  wellFormed this ->
  INR n * stepInterval <= CA.accumulator this < (INR n + 1) * stepInterval ->
  (n <= fuel)%nat ->
  exists this',
    CA.updateLoop fuel random stepInterval this k
    = Some (Some (this', (k + n * (length (CA.agents this) - 1))%nat))
    /\ rounds n random stepInterval this k
       = Some (this', (k + n * (length (CA.agents this) - 1))%nat)
    /\ wellFormed this'
    /\ CA.accumulator this' = CA.accumulator this - INR n * stepInterval
    /\ domainOf (CA.set_accumulator this' (CA.accumulator this))
       = domainOf this
    /\ map identityOfCA (CA.agents this')
       = map identityOfCA (CA.agents this).
Proof.
intros Hrandom Hstep.
induction n as [|n IH]; intros fuel this k Hwf Hacc Hfuel.
- cbn [INR] in Hacc. exists this.
  rewrite Nat.mul_0_l, Nat.add_0_r.
  destruct fuel; cbn [CA.updateLoop rounds]; rnum;
    rewrite (Rleb_false stepInterval (CA.accumulator this)) by lra;
    (split; [reflexivity|]); (split; [reflexivity|]);
    (split; [exact Hwf|]); (split; [cbn [INR]; lra|]);
    split; reflexivity.
- rewrite S_INR in Hacc. pose proof (pos_INR n) as Hn.
  assert (Hge : stepInterval <= CA.accumulator this) by nra.
  destruct fuel as [|fuel]; [lia|].
  cbn [CA.updateLoop rounds]. rnum.
  rewrite (Rleb_true stepInterval (CA.accumulator this) Hge).
  destruct (advanceAutomata_safe random this k Hrandom Hwf)
    as (this1 & -> & Hwf1 & Hdom1 & Hid1 & _).
  cbn [bind fst snd].
  assert (Hacc1 : CA.accumulator this1 = CA.accumulator this).
  { unfold domainOf in Hdom1. congruence. }
  assert (Hlen1 : length (CA.agents this1) = length (CA.agents this)).
  { apply (f_equal (@length _)) in Hid1. rewrite !length_map in Hid1.
    exact Hid1. }
  set (this2 := CA.set_accumulator this1
                  (CA.accumulator this1 - stepInterval)).
  destruct (IH fuel this2 (k + (length (CA.agents this) - 1))%nat)
    as (this' & Hloop & Hrounds & Hwf' & Hacc' & Hdom' & Hid').
  + exact Hwf1.
  + unfold this2. cbn [CA.accumulator CA.set_accumulator].
    rewrite Hacc1. lra.
  + lia.
  + exists this'.
    assert (Hk : (k + (length (CA.agents this) - 1)
                  + n * (length (CA.agents this2) - 1)
                  = k + S n * (length (CA.agents this) - 1))%nat).
    { unfold this2. cbn [CA.agents CA.set_accumulator]. rewrite Hlen1.
      lia. }
    rewrite Hk in Hloop, Hrounds.
    split; [exact Hloop|]. split; [exact Hrounds|]. split; [exact Hwf'|].
    split.
    { rewrite Hacc'. unfold this2.
      cbn [CA.accumulator CA.set_accumulator]. rewrite Hacc1, S_INR. lra. }
    split.
    { unfold domainOf in *. unfold this2 in Hdom'.
      cbn [CA.width CA.height CA.params CA.cellSize CA.cols CA.rows
           CA.originX CA.originY CA.accumulator CA.set_accumulator] in *.
      congruence. }
    rewrite Hid'. unfold this2. cbn [CA.agents CA.set_accumulator].
    exact Hid1.
Qed.

(** [update] on a well-formed state with agents: given enough fuel it
    returns, after as many rounds of the automaton as the step interval
    (0.35 over the update rate) fits into the accumulator grown by
    [min(deltaTime, 0.5)].  The state stays well-formed, and the
    accumulator is left below the step interval.  When the accumulator was
    below the step interval before, the rounds are at most nine. *)
Theorem ca_update_rounds (random : nat -> R) (deltaTime : R)
    (this : CA.CAModel R) (k fuel : nat) :
  (forall n, 0 <= random n < 1) ->
  wellFormed this ->
  0 < deltaTime -> CA.agents this <> [] -> 0 <= CA.accumulator this ->
  let stepInterval := CA.BASE_STEP_SECONDS / CA.resolveUpdateRate this in
  let total := CA.accumulator this + Rmin deltaTime (1 / 2) in
  let n := Z.to_nat (Zfloor (total / stepInterval)) in
  (n <= fuel)%nat ->
  exists this',
    CA.update fuel random deltaTime this k
    = Some (Some (this', (k + n * (length (CA.agents this) - 1))%nat))
    /\ rounds n random stepInterval (CA.set_accumulator this total) k
       = Some (this', (k + n * (length (CA.agents this) - 1))%nat)
    /\ wellFormed this'
    /\ 0 <= CA.accumulator this' < stepInterval
    /\ CA.accumulator this' = total - INR n * stepInterval
    /\ domainOf (CA.set_accumulator this' (CA.accumulator this))
       = domainOf this
    /\ map identityOfCA (CA.agents this')
       = map identityOfCA (CA.agents this)
    /\ (CA.accumulator this < stepInterval -> (n <= 9)%nat).
Proof.
intros Hrandom Hwf Hdt Hne Hacc stepInterval total n Hfuel.
pose proof (stepInterval_bounds this) as [Hslo Hshi].
fold stepInterval in Hslo, Hshi.
assert (Hstep : 0 < stepInterval) by lra.
assert (Htotal : 0 <= total).
{ unfold total. pose proof (Rmin_glb deltaTime (1 / 2) 0). lra. }
assert (Hq : 0 <= total / stepInterval).
{ apply Rmult_le_pos; [exact Htotal|].
  apply Rlt_le, Rinv_0_lt_compat, Hstep. }
assert (Hz : (0 <= Zfloor (total / stepInterval))%Z).
{ apply Zfloor_lub. exact Hq. }
assert (HINR : INR n = IZR (Zfloor (total / stepInterval))).
{ unfold n. rewrite INR_IZR_INZ, Z2Nat.id by exact Hz. reflexivity. }
pose proof (Zfloor_bound (total / stepInterval)) as [Hfl Hfu].
rewrite <- HINR in Hfl, Hfu.
assert (Hmul : total / stepInterval * stepInterval = total)
  by (field; lra).
assert (Hbounds : INR n * stepInterval <= total < (INR n + 1) * stepInterval).
{ split.
  - apply (Rmult_le_compat_r stepInterval) in Hfl; [|lra].
    rewrite Hmul in Hfl. exact Hfl.
  - apply (Rmult_lt_compat_r stepInterval) in Hfu; [|lra].
    rewrite Hmul in Hfu. exact Hfu. }
destruct (updateLoop_rounds random stepInterval Hrandom Hstep n fuel
            (CA.set_accumulator this total) k Hwf Hbounds Hfuel)
  as (this' & Hloop & Hrounds & Hwf' & Hacc' & Hdom' & Hid').
cbn [CA.agents CA.accumulator CA.set_accumulator] in *.
exists this'. split.
{ unfold CA.update. rnum.
  rewrite (Rleb_false deltaTime 0 Hdt).
  assert (Hlen : (length (CA.agents this) =? 0)%nat = false).
  { apply Nat.eqb_neq. destruct (CA.agents this); [contradiction|].
    discriminate. }
  rewrite Hlen. cbn [orb]. cbv zeta. fold stepInterval.
  replace (5 / 10) with (1 / 2) by lra. fold total.
  exact Hloop. }
split; [exact Hrounds|]. split; [exact Hwf'|].
split; [rewrite Hacc'; lra|]. split; [exact Hacc'|].
split.
{ unfold domainOf in *.
  cbn [CA.width CA.height CA.params CA.cellSize CA.cols CA.rows
       CA.originX CA.originY CA.accumulator CA.set_accumulator] in *.
  congruence. }
split; [exact Hid'|].
intros Hbelow.
assert (Hlt : IZR (Zfloor (total / stepInterval)) < 10).
{ rewrite <- HINR.
  assert (total < 10 * stepInterval).
  { unfold total. pose proof (Rmin_r deltaTime (1 / 2)). lra. }
  nra. }
apply lt_IZR in Hlt. unfold n. lia.
Qed.

Lemma ca_update_rounds_witness :
  exists this',
    CA.update 9 (fun _ : nat => 1 / 2) (1 / 10) CASample.two 0
    = Some (Some (this', 0%nat))
    /\ CA.accumulator this' = 1 / 10.
Proof.
assert (Hstep : CA.BASE_STEP_SECONDS / CA.resolveUpdateRate (T := R) CASample.two
                = 28 / 100).
{ unfold CA.BASE_STEP_SECONDS, CA.resolveUpdateRate, CA.DEFAULT_RATE,
    CASample.two. cbn [CA.params getParam orElse]. rnum.
  rewrite Rmin_right, Rmax_right by lra. field. }
assert (Htotal : CA.accumulator (T := R) CASample.two + Rmin (1 / 10) (1 / 2)
                 = 1 / 10).
{ cbn [CA.accumulator CASample.two]. rnum.
  rewrite Rmin_left by lra. lra. }
assert (Hn : Z.to_nat
               (Zfloor
                  ((CA.accumulator (T := R) CASample.two
                    + Rmin (1 / 10) (1 / 2))
                   / (CA.BASE_STEP_SECONDS
                      / CA.resolveUpdateRate (T := R) CASample.two)))
             = 0%nat).
{ rewrite Hstep, Htotal. rewrite (Zfloor_eq 0); [reflexivity|lra]. }
destruct (ca_update_rounds (fun _ : nat => 1 / 2) (1 / 10) CASample.two 0 9)
  as (this' & Hrun & _ & _ & _ & Hacc & _).
- intros _. lra.
- apply wellFormed_two.
- lra.
- discriminate.
- cbn. rnum. lra.
- rewrite Hn. lia.
- rewrite Hn in Hrun, Hacc. exists this'. split; [exact Hrun|].
  rewrite Hacc, Htotal. cbn [INR]. lra.
Defined.

(* ------------------------------------------------------------------ *)
(** ** CAModel: seeding the grid *)

Lemma rangeBy2_In (start stop v : Z) :
  In v (rangeBy2 start stop) -> (start <= v < stop)%Z.
Proof.
unfold rangeBy2. intros Hin. apply in_map_iff in Hin.
destruct Hin as (n & <- & Hn). apply in_seq in Hn.
assert (Hlt : (Z.of_nat n < (stop - start + 1) / 2)%Z) by lia.
pose proof (Z.mul_div_le (stop - start + 1) 2 ltac:(lia)). lia.
Qed.

Lemma rangeBy2_NoDup (start stop : Z) : NoDup (rangeBy2 start stop).
Proof.
unfold rangeBy2. apply NoDup_map_NoDup_ForallPairs; [|apply seq_NoDup].
intros a b _ _ Heq. lia.
Qed.

Lemma map_flat_pair {A B C} (h : B -> C) (f g : A -> B) (l : list A) :
  map h (flat_map (fun a => [f a; g a]) l)
  = flat_map (fun a => [h (f a); h (g a)]) l.
Proof. induction l as [|a l IH]; cbn; [reflexivity|]. now rewrite IH. Qed.

Lemma In_flat_pair {A B} (f g : A -> B) (l : list A) (v : B) :
  In v (flat_map (fun a => [f a; g a]) l)
  <-> exists a, In a l /\ (v = f a \/ v = g a).
Proof.
rewrite in_flat_map. split; intros (a & Ha & Hv); exists a; (split; [exact Ha|]).
- destruct Hv as [<- | [<- | []]]; auto.
- destruct Hv as [-> | ->]; cbn; auto.
Qed.

Lemma NoDup_flat_pair {A B} (f g : A -> B) (l : list A) :
  (forall a b, f a = f b -> a = b) ->
  (forall a b, g a = g b -> a = b) ->
  (forall a b, f a <> g b) ->
  NoDup l -> NoDup (flat_map (fun a => [f a; g a]) l).
Proof.
intros Hf Hg Hfg Hnd.
induction Hnd as [|a l Hnotin Hnd IH]; cbn; [constructor|].
constructor; [|constructor; [|exact IH]].
- intros [Heq | Hin]; [apply (Hfg a a); symmetry; exact Heq|].
  apply In_flat_pair in Hin. destruct Hin as (b & Hb & [Heq | Heq]).
  + apply Hf in Heq. subst b. contradiction.
  + apply (Hfg a b). exact Heq.
- intros Hin. apply In_flat_pair in Hin.
  destruct Hin as (b & Hb & [Heq | Heq]).
  + apply (Hfg b a). symmetry. exact Heq.
  + apply Hg in Heq. subst b. contradiction.
Qed.

Lemma NoDup_firstn {A} (l : list A) (n : nat) :
  NoDup l -> NoDup (firstn n l).
Proof.
intros Hnd. rewrite <- (firstn_skipn n l) in Hnd.
eapply NoDup_app_remove_r. exact Hnd.
Qed.

Lemma map_mapi {A B C} (h : B -> C) (f : A -> nat -> B) (g : A -> C) :
  (forall a i, h (f a i) = g a) ->
  forall l : list A, map h (mapi f l) = map g l.
Proof.
intros Hfg l. unfold mapi. rewrite map_map.
generalize 0%nat as s.
induction l as [|a l IH]; intros s; cbn; [reflexivity|].
rewrite Hfg, IH. reflexivity.
Qed.

Lemma Forall_mapi {A B} (P : B -> Prop) (f : A -> nat -> B) (l : list A) :
  (forall a i, In a l -> P (f a i)) -> Forall P (mapi f l).
Proof.
intros Hf. unfold mapi. apply Forall_forall. intros b Hb.
apply in_map_iff in Hb. destruct Hb as ([a i] & <- & Hin).
apply Hf. eapply in_combine_l. exact Hin.
Qed.

Lemma length_mapi {A B} (f : A -> nat -> B) (l : list A) :
  length (mapi f l) = length l.
Proof.
unfold mapi. rewrite length_map, length_combine, length_seq.
apply Nat.min_id.
Qed.

Lemma seedStarts_In (cols rows : Z) (c : CA.GridCell) :
  In c (seedStarts cols rows) ->
  ((CA.x c = 1 \/ CA.x c = cols - 2) /\ 1 <= CA.y c < rows - 1)%Z
  \/ ((CA.y c = 1 \/ CA.y c = rows - 2) /\ 2 <= CA.x c < cols - 2)%Z.
Proof.
unfold seedStarts. intros Hin. apply in_app_or in Hin.
destruct Hin as [Hin | Hin]; apply In_flat_pair in Hin;
  destruct Hin as (v & Hv & [-> | ->]); apply rangeBy2_In in Hv;
  cbn [CA.x CA.y]; [left|left|right|right]; auto.
Qed.

Lemma seedStarts_NoDup (cols rows : Z) :
  (4 <= cols)%Z -> (4 <= rows)%Z -> NoDup (seedStarts cols rows).
Proof.
intros Hc Hr. unfold seedStarts. apply NoDup_app.
- apply NoDup_flat_pair; [| | |apply rangeBy2_NoDup].
  + intros a b [= ->]. reflexivity.
  + intros a b [= ->]. reflexivity.
  + intros a b [= Hx _]. lia.
- apply NoDup_flat_pair; [| | |apply rangeBy2_NoDup].
  + intros a b [= ->]. reflexivity.
  + intros a b [= ->]. reflexivity.
  + intros a b [= _ Hy]. lia.
- intros c Hc1 Hc2.
  apply In_flat_pair in Hc1. destruct Hc1 as (cy & Hcy & Hc1).
  apply In_flat_pair in Hc2. destruct Hc2 as (cx & Hcx & Hc2).
  apply rangeBy2_In in Hcy, Hcx.
  destruct Hc1 as [-> | ->], Hc2 as [[= Hx Hy] | [= Hx Hy]]; lia.
Qed.

Lemma isInside_true {T : Type} (this : CA.CAModel T) (cx cy : Z) :
  CA.isInside this cx cy = true
  <-> (0 <= cx < CA.cols this /\ 0 <= cy < CA.rows this)%Z.
Proof.
unfold CA.isInside. rewrite !andb_true_iff, !Z.leb_le, !Z.ltb_lt. lia.
Qed.

(** Entering agents on distinct cells of the grid into a grid that marks
    the cells of [done]. *)
Lemma enterAgents_spec {T : Type} (this : CA.CAModel T) :
  forall (entering : list CA.CAAgent) (grid : CA.Grid)
         (done : list CA.GridCell),
  Forall
    (fun a => CA.isInside this (CA.x (CA.cell a)) (CA.y (CA.cell a)) = true)
    entering ->
  (forall c, CA.isInside this (CA.x c) (CA.y c) = true ->
     exists e, gridLookup grid c = Some e /\ (e = None <-> ~ In c done)) ->
  exists grid',
    CA.enterAgents this entering grid = Some grid'
    /\ forall c, CA.isInside this (CA.x c) (CA.y c) = true ->
         exists e,
           gridLookup grid' c = Some e
           /\ (e = None <-> ~ In c (done ++ cellsOf entering)).
Proof.
unfold CA.enterAgents.
induction entering as [|a entering IH]; intros grid done Hin Hgrid; cbn [forM].
- exists grid. split; [reflexivity|]. cbn [cellsOf map].
  rewrite app_nil_r. exact Hgrid.
- inversion Hin as [|? ? Ha Hrest]; subst. rewrite Ha.
  destruct (Hgrid _ Ha) as (e0 & He0 & _).
  destruct (gridSet_lookup grid (CA.cell a) e0 (Some (CA.id a)) He0)
    as (g1 & -> & Hg1 & Hg1').
  cbn [bind].
  destruct (IH g1 (done ++ [CA.cell a]) Hrest) as (grid' & Hrun & Hgrid').
  + intros c Hc. destruct (cell_eq_dec c (CA.cell a)) as [-> | Hne].
    * eexists. split; [exact Hg1|]. split; [discriminate|].
      intros Hno. exfalso. apply Hno. apply in_or_app. right. left.
      reflexivity.
    * destruct (Hgrid c Hc) as (e & He & Hiff). exists e.
      rewrite (Hg1' c Hne). split; [exact He|]. rewrite Hiff.
      rewrite in_app_iff. cbn [In]. split.
      -- intros Hno [Hd | [Heq | []]]; [contradiction|congruence].
      -- intros Hno Hd. apply Hno. left. exact Hd.
  + exists grid'. split; [exact Hrun|].
    cbn [cellsOf map]. intros c Hc.
    destruct (Hgrid' c Hc) as (e & He & Hiff). exists e.
    split; [exact He|]. rewrite Hiff, <- app_assoc. reflexivity.
Qed.

Lemma gridLookup_fresh (cols rows : Z) (c : CA.GridCell) :
  (0 <= CA.x c < cols)%Z -> (0 <= CA.y c < rows)%Z ->
  gridLookup
    (map (map (fun _ : option String.string => @None String.string))
       (repeat (repeat None (Z.to_nat cols)) (Z.to_nat rows))) c
  = Some None.
Proof.
intros Hx Hy. rewrite map_repeat, map_repeat. unfold gridLookup.
destruct (Z.ltb_spec (CA.x c) 0) as [|_]; [lia|].
destruct (Z.ltb_spec (CA.y c) 0) as [|_]; [lia|]. cbn [orb].
rewrite nth_error_repeat by lia. cbn [bind].
apply nth_error_repeat. lia.
Qed.

Local Open Scope R_scope.

(** The scenarios of [seedAgents] on a grid of at least four by four
    cells: their anchors. *)
Lemma scenarios_anchors (cols rows : Z)
    (t : CA.GridCell * CA.GridCell * String.string) :
  In t
    (flat_map
       (fun cy =>
          [ ((CA.mkGridCell 1 cy, CA.mkGridCell (cols - 2) cy),
             CA.FLOW_COLORS_horizontalA);
            ((CA.mkGridCell (cols - 2) cy, CA.mkGridCell 1 cy),
             CA.FLOW_COLORS_horizontalB) ])
       (rangeBy2 1 (rows - 1))
     ++
     flat_map
       (fun cx =>
          [ ((CA.mkGridCell cx 1, CA.mkGridCell cx (rows - 2)),
             CA.FLOW_COLORS_verticalA);
            ((CA.mkGridCell cx (rows - 2), CA.mkGridCell cx 1),
             CA.FLOW_COLORS_verticalB) ])
       (rangeBy2 2 (cols - 2))) ->
  In (fst (fst t)) (seedStarts cols rows)
  /\ In (snd (fst t)) (seedStarts cols rows).
Proof.
intros Hin. unfold seedStarts. apply in_app_or in Hin.
destruct Hin as [Hin | Hin]; apply In_flat_pair in Hin;
  destruct Hin as (v & Hv & [-> | ->]); cbn [fst snd];
  split; apply in_or_app; [left|left|left|left|right|right|right|right];
  apply In_flat_pair; exists v; auto.
Qed.

Lemma seedStarts_inside (this : CA.CAModel R) (c : CA.GridCell) :
  (4 <= CA.cols this)%Z -> (4 <= CA.rows this)%Z ->
  In c (seedStarts (CA.cols this) (CA.rows this)) ->
  CA.isInside this (CA.x c) (CA.y c) = true.
Proof.
intros Hc Hr Hin. apply seedStarts_In in Hin. apply isInside_true. lia.
Qed.

(** What [seedAgents] leaves on a fresh grid of at least four by four
    cells. *)
Lemma seedAgents_spec (random : nat -> R) (this : CA.CAModel R) (k : nat) :
  (forall n, 0 <= random n < 1) ->
  (4 <= CA.cols this)%Z -> (4 <= CA.rows this)%Z ->
  CA.grid this
  = repeat (repeat None (Z.to_nat (CA.cols this))) (Z.to_nat (CA.rows this)) ->
  exists (this' : CA.CAModel R) (k' : nat),
    CA.seedAgents random this k = Some (this', k')
    /\ wellFormed this'
    /\ domainOf this' = domainOf this
    /\ Forall
         (fun a =>
            CA.cell a = fst (CA.anchors a)
            /\ CA.targetIndex a = H1 /\ CA.stuckSteps a = 0%nat
            /\ In (fst (CA.anchors a))
                 (seedStarts (CA.cols this) (CA.rows this))
            /\ In (snd (CA.anchors a))
                 (seedStarts (CA.cols this) (CA.rows this)))
         (CA.agents this')
    /\ (4 * Z.of_nat (length (CA.agents this'))
        <= CA.cols this * CA.rows this)%Z.
Proof.
intros Hrandom Hc Hr Hfresh. unfold CA.seedAgents.
destruct (Z.eqb_spec (CA.cols this) 0) as [|_]; [lia|].
destruct (Z.eqb_spec (CA.rows this) 0) as [|_]; [lia|]. cbn [orb].
set (scenarios := _ ++ _).
assert (Hstarts : map (fun t => fst (fst t)) scenarios
                  = seedStarts (CA.cols this) (CA.rows this)).
{ unfold scenarios, seedStarts. rewrite map_app, !map_flat_pair.
  reflexivity. }
destruct (shuffleLoop_spec random Hrandom (length scenarios - 1)
            scenarios k) as (shuffled & Hrun & Hperm).
{ destruct scenarios; cbn [length]; lia. }
unfold CA.shuffle. rewrite Hrun. cbn [bind fst snd].
cbn [nfloor R_Floor]. rnum.
set (quarter := Zfloor (IZR (CA.cols this * CA.rows this) * (25 / 100))).
assert (Hcells : (16 <= CA.cols this * CA.rows this)%Z) by nia.
assert (Hq : (0 <= quarter)%Z /\ (4 * quarter <= CA.cols this * CA.rows this)%Z).
{ pose proof (Zfloor_bound
                (IZR (CA.cols this * CA.rows this) * (25 / 100))) as [Hlo _].
  fold quarter in Hlo. apply IZR_le in Hcells. split.
  - apply Zfloor_lub. lra.
  - apply le_IZR. rewrite mult_IZR. lra. }
set (maxAgents := Z.min (Z.of_nat (length scenarios)) quarter).
assert (Hmax : (0 <= maxAgents <= quarter)%Z) by (unfold maxAgents; lia).
unfold sliceTo. destruct (Z.ltb_spec maxAgents 0) as [|_]; [lia|].
set (pool := firstn (Z.to_nat maxAgents) shuffled).
set (agents' := mapi _ pool).
assert (Hpool : forall t, In t pool -> In t scenarios).
{ intros t Ht. apply firstn_incl in Ht.
  apply (Permutation_in _ (Permutation_sym Hperm)). exact Ht. }
assert (Hcellsof : cellsOf agents' = map (fun t => fst (fst t)) pool).
{ unfold cellsOf, agents'. apply map_mapi. reflexivity. }
assert (Hnodup : NoDup (cellsOf agents')).
{ rewrite Hcellsof. unfold pool. rewrite <- firstn_map.
  apply NoDup_firstn.
  apply (Permutation_NoDup (Permutation_map _ Hperm)).
  rewrite Hstarts. apply seedStarts_NoDup; assumption. }
assert (Hagents : Forall
          (fun a =>
             CA.cell a = fst (CA.anchors a)
             /\ CA.targetIndex a = H1 /\ CA.stuckSteps a = 0%nat
             /\ In (fst (CA.anchors a))
                  (seedStarts (CA.cols this) (CA.rows this))
             /\ In (snd (CA.anchors a))
                  (seedStarts (CA.cols this) (CA.rows this)))
          agents').
{ unfold agents'. apply Forall_mapi. intros t i Ht.
  cbn [CA.cell CA.anchors CA.targetIndex CA.stuckSteps].
  repeat split; apply (scenarios_anchors (CA.cols this) (CA.rows this) t);
    apply Hpool; exact Ht. }
assert (Hinside : Forall
          (fun a => CA.isInside this (CA.x (CA.cell a)) (CA.y (CA.cell a))
                    = true) agents').
{ rewrite Forall_forall in *. intros a Ha.
  destruct (Hagents a Ha) as (-> & _ & _ & Hstart & _).
  apply seedStarts_inside; assumption. }
destruct (enterAgents_spec this agents'
            (map (map (fun _ => None)) (CA.grid this)) [] Hinside)
  as (grid' & -> & Hgrid').
{ intros c Hc'. apply isInside_true in Hc'. exists None.
  rewrite Hfresh. split; [apply gridLookup_fresh; lia|]. tauto. }
cbn [bind]. eexists. eexists. split; [reflexivity|].
split; [|split; [reflexivity|split; [exact Hagents|]]].
- split; [exact Hinside|]. split; [exact Hnodup|exact Hgrid'].
- cbn [CA.agents CA.set_grid CA.set_agents]. unfold agents'.
  rewrite length_mapi. unfold pool.
  pose proof (firstn_le_length (Z.to_nat maxAgents) shuffled). lia.
Qed.

(* ------------------------------------------------------------------ *)
(** ** CAModel: rebuilding the domain, and the life of a model *)

Lemma wellFormed_empty {T : Type} (this : CA.CAModel T) :
  CA.cols this = 0%Z -> CA.agents this = [] -> wellFormed this.
Proof.
intros Hcols Hags. unfold wellFormed. rewrite Hags. cbn [cellsOf map].
split; [constructor|]. split; [constructor|].
intros c Hc. apply isInside_true in Hc. lia.
Qed.

(** [rebuildDomain(true)] on a canvas with an area. *)
Lemma rebuildDomain_seeds (random : nat -> R) (this : CA.CAModel R)
    (k : nat) :
  (forall n, 0 <= random n < 1) ->
  CA.width this <> 0 -> CA.height this <> 0 ->
  let size := CA.resolveCellSize this in
  let nextCols := Z.max 4 (Zfloor (CA.width this / IZR size)) in
  let nextRows := Z.max 4 (Zfloor (CA.height this / IZR size)) in
  exists (this' : CA.CAModel R) (k' : nat),
    CA.rebuildDomain random true this k = Some (this', k')
    /\ wellFormed this'
    /\ domainOf this'
       = (CA.width this, CA.height this, CA.params this, size, nextCols,
          nextRows, (CA.width this - IZR (nextCols * size)) / 2,
          (CA.height this - IZR (nextRows * size)) / 2,
          CA.accumulator this)
    /\ Forall
         (fun a =>
            CA.cell a = fst (CA.anchors a)
            /\ CA.targetIndex a = H1 /\ CA.stuckSteps a = 0%nat
            /\ In (fst (CA.anchors a)) (seedStarts nextCols nextRows)
            /\ In (snd (CA.anchors a)) (seedStarts nextCols nextRows))
         (CA.agents this')
    /\ (4 * Z.of_nat (length (CA.agents this')) <= nextCols * nextRows)%Z.
Proof.
intros Hrandom Hw Hh size nextCols nextRows. unfold CA.rebuildDomain.
rnum.
destruct (Reqb_spec (CA.width this) 0) as [|_]; [contradiction|].
destruct (Reqb_spec (CA.height this) 0) as [|_]; [contradiction|].
cbn [orb]. cbv zeta. cbn [nfloor R_Floor].
fold size. fold nextCols. fold nextRows.
match goal with
| |- context [CA.seedAgents random ?m k] => set (this1 := m)
end.
destruct (seedAgents_spec random this1 k Hrandom)
  as (this' & k' & Hrun & Hwf & Hdom & Hagents & Hcount).
- unfold this1. cbn [CA.cols]. lia.
- unfold this1. cbn [CA.rows]. lia.
- reflexivity.
- exists this', k'. split; [exact Hrun|]. split; [exact Hwf|].
  split; [rewrite Hdom; reflexivity|]. split; [exact Hagents|exact Hcount].
Qed.

(** [rebuildDomain(true)] keeps the invariant of the class, whatever the
    state it starts from. *)
Lemma rebuildDomain_invariant (random : nat -> R) (this : CA.CAModel R)
    (k : nat) :
  (forall n, 0 <= random n < 1) ->
  0 <= CA.accumulator this < 14 / 10 ->
  exists (this' : CA.CAModel R) (k' : nat),
    CA.rebuildDomain random true this k = Some (this', k')
    /\ caInvariant this'
    /\ CA.width this' = CA.width this /\ CA.height this' = CA.height this
    /\ CA.params this' = CA.params this
    /\ CA.accumulator this' = CA.accumulator this.
Proof.
intros Hrandom Hacc.
destruct (Req_dec_T (CA.width this) 0) as [Hw | Hw];
  [|destruct (Req_dec_T (CA.height this) 0) as [Hh | Hh]].
- unfold CA.rebuildDomain. rnum.
  rewrite (Reqb_true (CA.width this) 0 Hw). cbn [orb].
  eexists. eexists. split; [reflexivity|].
  split; [|cbn; auto].
  split; [apply wellFormed_empty; reflexivity|].
  split; [exact Hacc|]. cbn [CA.width CA.height CA.cols CA.rows CA.agents
                             CA.grid].
  split; [intros Hw'; contradiction|auto].
- unfold CA.rebuildDomain. rnum.
  rewrite (Reqb_true (CA.height this) 0 Hh), orb_true_r.
  eexists. eexists. split; [reflexivity|].
  split; [|cbn; auto].
  split; [apply wellFormed_empty; reflexivity|].
  split; [exact Hacc|]. cbn [CA.width CA.height CA.cols CA.rows CA.agents
                             CA.grid].
  split; [intros _ Hh'; contradiction|auto].
- destruct (rebuildDomain_seeds random this k Hrandom Hw Hh)
    as (this' & k' & Hrun & Hwf & Hdom & _ & Hcount).
  cbv zeta in Hdom, Hcount. unfold domainOf in Hdom.
  injection Hdom as Hw' Hh' Hp' Hsize Hcols Hrows _ _ Hacc'.
  exists this', k'. split; [exact Hrun|]. split; [|auto].
  split; [exact Hwf|]. split; [rewrite Hacc'; exact Hacc|].
  rewrite Hw', Hh', Hcols, Hrows. split.
  + intros _ _. split.
    { rewrite Hsize. unfold CA.resolveCellSize. rewrite Hp'. reflexivity. }
    split; [lia|]. split; [lia|exact Hcount].
  + intros [Hz | Hz]; contradiction.
Qed.

(** [resize]: a canvas without an area gets no grid and no agent, and no
    draw is made.  A canvas with an area gets a grid of cells of the
    resolved size, at least four columns and four rows, and a well-formed
    state: the agents are on distinct cells of the grid, each on its first
    anchor (an end of every second row or column) and heading for its
    second, the opposite end; at most a quarter of the cells hold an
    agent.  What was on the grid before plays no part. *)
Theorem ca_resize_seeds (random : nat -> R) (w h : R) (this : CA.CAModel R)
    (k : nat) :
  (forall n, 0 <= random n < 1) ->
  let size := CA.resolveCellSize this in
  let nextCols := Z.max 4 (Zfloor (w / IZR size)) in
  let nextRows := Z.max 4 (Zfloor (h / IZR size)) in
  (w = 0 \/ h = 0 ->
   CA.resize random w h this k
   = Some (CA.mkCAModel w h (CA.params this) (CA.cellSize this) 0 0
             (CA.originX this) (CA.originY this) [] []
             (CA.accumulator this), k))
  /\ (w <> 0 -> h <> 0 ->
      exists (this' : CA.CAModel R) (k' : nat),
        CA.resize random w h this k = Some (this', k')
        /\ wellFormed this'
        /\ domainOf this'
           = (w, h, CA.params this, size, nextCols, nextRows,
              (w - IZR (nextCols * size)) / 2,
              (h - IZR (nextRows * size)) / 2, CA.accumulator this)
        /\ Forall
             (fun a =>
                CA.cell a = fst (CA.anchors a)
                /\ CA.targetIndex a = H1 /\ CA.stuckSteps a = 0%nat
                /\ In (fst (CA.anchors a)) (seedStarts nextCols nextRows)
                /\ In (snd (CA.anchors a)) (seedStarts nextCols nextRows))
             (CA.agents this')
        /\ (4 * Z.of_nat (length (CA.agents this'))
            <= nextCols * nextRows)%Z).
Proof.
intros Hrandom size nextCols nextRows. split.
- intros Hzero. unfold CA.resize, CA.rebuildDomain.
  cbn [CA.width CA.height CA.params CA.cellSize CA.originX CA.originY
       CA.accumulator]. rnum.
  destruct Hzero as [-> | ->].
  + rewrite (Reqb_true 0 0 eq_refl). reflexivity.
  + rewrite (Reqb_true 0 0 eq_refl), orb_true_r. reflexivity.
- intros Hw Hh. unfold CA.resize.
  apply (rebuildDomain_seeds random
           (CA.mkCAModel w h (CA.params this) (CA.cellSize this)
              (CA.cols this) (CA.rows this) (CA.originX this)
              (CA.originY this) (CA.agents this) (CA.grid this)
              (CA.accumulator this)) k Hrandom Hw Hh).
Qed.

Lemma ca_resize_seeds_witness :
  exists (this' : CA.CAModel R) (k' : nat),
    CA.resize (fun _ : nat => 1 / 2) 96 96 (CA.create []) 0
    = Some (this', k')
    /\ wellFormed this'
    /\ CA.cols this' = 4%Z /\ CA.rows this' = 4%Z.
Proof.
assert (Hrandom : forall n : nat, 0 <= (fun _ : nat => 1 / 2) n < 1).
{ intros _. lra. }
destruct (ca_resize_seeds (fun _ : nat => 1 / 2) 96 96 (CA.create []) 0
            Hrandom) as (_ & Hseed).
destruct Hseed as (this' & k' & Hrun & Hwf & Hdom & _); [lra|lra|].
assert (Hsize : CA.resolveCellSize (T := R) (CA.create []) = 24%Z).
{ unfold CA.resolveCellSize, CA.DEFAULT_CELL_SIZE.
  cbn [CA.params CA.create getParam orElse nround R_Floor]. rnum.
  rewrite Rmin_right, Rmax_right by lra. apply Zfloor_eq. lra. }
rewrite Hsize in Hdom.
assert (Hfour : Zfloor (96 / 24) = 4%Z) by (apply Zfloor_eq; lra).
rewrite Hfour in Hdom. unfold domainOf in Hdom.
injection Hdom as _ _ _ _ Hcols Hrows _ _ _.
exists this', k'. auto.
Defined.

(** The loop of [update], whatever the fuel: when it returns, the state is
    well-formed and the accumulator is below the step interval. *)
Lemma updateLoop_sound (random : nat -> R) (stepInterval : R) :
  (forall n, 0 <= random n < 1) ->
  forall (fuel : nat) (this this' : CA.CAModel R) (k k' : nat),
  wellFormed this ->
  CA.updateLoop fuel random stepInterval this k = Some (Some (this', k')) ->
  wellFormed this'
  /\ CA.accumulator this' < stepInterval
  /\ (0 <= CA.accumulator this -> 0 <= CA.accumulator this')
  /\ domainOf (CA.set_accumulator this' (CA.accumulator this))
     = domainOf this
  /\ length (CA.agents this') = length (CA.agents this).
Proof.
intros Hrandom.
assert (Hdone : forall this : CA.CAModel R,
          wellFormed this -> CA.accumulator this < stepInterval ->
          wellFormed this
          /\ CA.accumulator this < stepInterval
          /\ (0 <= CA.accumulator this -> 0 <= CA.accumulator this)
          /\ domainOf (CA.set_accumulator this (CA.accumulator this))
             = domainOf this
          /\ length (CA.agents this) = length (CA.agents this)).
{ intros this Hwf Hlt. repeat split; auto; apply Hwf. }
induction fuel as [|fuel IH]; intros this this' k k' Hwf;
  cbn [CA.updateLoop]; rnum;
  destruct (Rleb_spec stepInterval (CA.accumulator this)) as [Hge | Hlt].
- discriminate.
- intros [= <- <-]. apply Hdone; assumption.
- destruct (advanceAutomata_safe random this k Hrandom Hwf)
    as (this1 & -> & Hwf1 & Hdom1 & Hid1 & _).
  intros Hrun. apply IH in Hrun; [|exact Hwf1].
  destruct Hrun as (Hwf' & Hlt' & Hpos' & Hdom' & Hlen').
  cbn [CA.accumulator CA.agents CA.set_accumulator] in *.
  assert (Hacc1 : CA.accumulator this1 = CA.accumulator this).
  { unfold domainOf in Hdom1. congruence. }
  split; [exact Hwf'|]. split; [exact Hlt'|]. split.
  { intros _. apply Hpos'. rewrite Hacc1. lra. }
  split.
  { unfold domainOf in *.
    cbn [CA.width CA.height CA.params CA.cellSize CA.cols CA.rows
         CA.originX CA.originY CA.accumulator CA.set_accumulator] in *.
    congruence. }
  rewrite Hlen'. apply (f_equal (@length _)) in Hid1.
  rewrite !length_map in Hid1. exact Hid1.
- intros [= <- <-]. apply Hdone; assumption.
Qed.

Lemma update_invariant (random : nat -> R) (fuel : nat) (deltaTime : R)
    (this this' : CA.CAModel R) (k k' : nat) :
  (forall n, 0 <= random n < 1) ->
  caInvariant this ->
  CA.update fuel random deltaTime this k = Some (Some (this', k')) ->
  caInvariant this'.
Proof.
intros Hrandom Hinv. unfold CA.update.
destruct (_ || _) eqn:Hnoop; [intros [= <- <-]; exact Hinv|].
apply orb_false_elim in Hnoop as [Hdt Hlen].
cbv zeta. intros Hrun.
destruct Hinv as (Hwf & Hacc & Harea & Hnone).
pose proof (stepInterval_bounds this) as [Hslo Hshi].
assert (Hdt' : 0 < deltaTime).
{ revert Hdt. rnum. destruct (Rleb_spec deltaTime 0); [discriminate|auto]. }
apply updateLoop_sound in Hrun; [|exact Hrandom|exact Hwf].
destruct Hrun as (Hwf' & Hlt' & Hpos' & Hdom' & Hlen').
cbn [CA.accumulator CA.agents CA.set_accumulator] in *. rnum.
unfold domainOf in Hdom'.
cbn [CA.width CA.height CA.params CA.cellSize CA.cols CA.rows
     CA.originX CA.originY CA.accumulator CA.set_accumulator] in Hdom'.
injection Hdom' as Hw Hh Hp Hsize Hcols Hrows _ _.
split; [exact Hwf'|]. split.
{ split; [|lra]. apply Hpos'.
  pose proof (Rmin_glb deltaTime (5 / 10) 0). lra. }
rewrite Hw, Hh, Hsize, Hcols, Hrows, Hlen'. split.
- intros Hw' Hh'. destruct (Harea Hw' Hh') as (Hs & Hc & Hr & Hcount).
  split; [|auto]. rewrite Hs. unfold CA.resolveCellSize. rewrite Hp.
  reflexivity.
- intros Hzero. destruct (Hnone Hzero) as (_ & _ & Hags & _).
  rewrite Hags in Hlen. discriminate.
Qed.

(** Fuel for 32 rounds is enough for every [update] of a state of the
    class. *)
Lemma update_returns (random : nat -> R) (deltaTime : R)
    (this : CA.CAModel R) (k : nat) :
  (forall n, 0 <= random n < 1) ->
  caInvariant this ->
  exists r, CA.update 32 random deltaTime this k = Some (Some r).
Proof.
intros Hrandom (Hwf & Hacc & _). unfold CA.update.
destruct (_ || _) eqn:Hnoop; [eauto|].
apply orb_false_elim in Hnoop as [Hdt Hlen]. cbv zeta.
pose proof (stepInterval_bounds this) as [Hslo Hshi].
set (stepInterval := CA.BASE_STEP_SECONDS / CA.resolveUpdateRate this) in *.
assert (Hdt' : 0 < deltaTime).
{ revert Hdt. rnum. destruct (Rleb_spec deltaTime 0); [discriminate|auto]. }
rnum. replace (5 / 10) with (1 / 2) by lra.
set (total := CA.accumulator this + Rmin deltaTime (1 / 2)).
assert (Htotal : 0 <= total < 19 / 10).
{ unfold total. pose proof (Rmin_glb deltaTime (1 / 2) 0).
  pose proof (Rmin_r deltaTime (1 / 2)). lra. }
assert (Hq : 0 <= total / stepInterval).
{ apply Rmult_le_pos; [lra|]. apply Rlt_le, Rinv_0_lt_compat. lra. }
pose proof (Zfloor_bound (total / stepInterval)) as [Hfl Hfu].
assert (Hz : (0 <= Zfloor (total / stepInterval))%Z)
  by (apply Zfloor_lub; exact Hq).
set (n := Z.to_nat (Zfloor (total / stepInterval))).
assert (HINR : INR n = IZR (Zfloor (total / stepInterval))).
{ unfold n. rewrite INR_IZR_INZ, Z2Nat.id by exact Hz. reflexivity. }
rewrite <- HINR in Hfl, Hfu.
assert (Hmul : total / stepInterval * stepInterval = total)
  by (field; lra).
assert (Hbounds : INR n * stepInterval <= total < (INR n + 1) * stepInterval).
{ split.
  - apply (Rmult_le_compat_r stepInterval) in Hfl; [|lra].
    rewrite Hmul in Hfl. exact Hfl.
  - apply (Rmult_lt_compat_r stepInterval) in Hfu; [|lra].
    rewrite Hmul in Hfu. exact Hfu. }
assert (Hn : (n <= 32)%nat).
{ assert (Hlt : IZR (Zfloor (total / stepInterval)) < 33).
  { rewrite <- HINR. nra. }
  apply lt_IZR in Hlt. unfold n. lia. }
destruct (updateLoop_rounds random stepInterval Hrandom ltac:(lra) n 32
            (CA.set_accumulator this total) k Hwf Hbounds Hn)
  as (this' & Hloop & _).
eexists. exact Hloop.
Qed.

Lemma reachable_invariant (random : nat -> R) (this : CA.CAModel R)
    (k : nat) :
  (forall n, 0 <= random n < 1) ->
  reachable random this k -> caInvariant this.
Proof.
intros Hrandom Hreach.
induction Hreach as [initialParams
                    |this this' k k' _ IH Hrun
                    |w h this this' k k' _ IH Hrun
                    |nextParams this this' k k' _ IH Hrun
                    |fuel deltaTime this this' k k' _ IH Hrun].
- split; [apply wellFormed_empty; reflexivity|].
  unfold CA.create. cbn [CA.accumulator CA.width CA.height CA.cols CA.rows
                         CA.agents CA.grid]. rnum.
  split; [lra|]. split; [intros Hw; contradiction|auto].
- unfold CA.reset in Hrun.
  destruct (rebuildDomain_invariant random
              (CA.set_accumulator this (nofZ 0)) k Hrandom)
    as (this'' & k'' & Hrun' & Hinv & _).
  { cbn [CA.accumulator CA.set_accumulator]. rnum. lra. }
  rewrite Hrun' in Hrun. injection Hrun as <- <-. exact Hinv.
- unfold CA.resize in Hrun.
  match type of Hrun with
  | CA.rebuildDomain _ _ ?m _ = _ =>
      destruct (rebuildDomain_invariant random m k Hrandom)
        as (this'' & k'' & Hrun' & Hinv & _)
  end.
  { apply IH. }
  rewrite Hrun' in Hrun. injection Hrun as <- <-. exact Hinv.
- unfold CA.configure in Hrun. cbv zeta in Hrun.
  cbn [CA.cellSize] in Hrun.
  match type of Hrun with
  | (if negb (CA.resolveCellSize ?m =? _)%Z then _ else _) = _ =>
      set (merged := m) in *
  end.
  revert Hrun.
  destruct (Z.eqb_spec (CA.resolveCellSize merged) (CA.cellSize this))
    as [Hsame | Hdiff]; cbn [negb]; intros Hrun.
  + injection Hrun as <- <-.
    destruct IH as (Hwf & Hacc & Harea & Hnone).
    split; [exact Hwf|]. split; [exact Hacc|]. split.
    * intros Hw Hh. destruct (Harea Hw Hh) as (_ & Hrest).
      split; [symmetry; exact Hsame|exact Hrest].
    * exact Hnone.
  + destruct (rebuildDomain_invariant random merged k Hrandom)
      as (this'' & k'' & Hrun' & Hinv & _).
    { apply IH. }
    rewrite Hrun' in Hrun. injection Hrun as <- <-. exact Hinv.
- eapply update_invariant; eassumption.
Qed.

(** Every state of a model, from its constructor through any calls of
    [reset], [resize], [configure] and [update] with draws in [0, 1), is
    well-formed: no two agents share a cell, and the grid marks exactly
    the cells of the agents.  At most a quarter of the cells hold an
    agent, and the accumulator stays below 1.4.  In such a state no
    operation raises an error, and the loop of [update] ends within 32
    rounds. *)
Theorem ca_reachable_safe (random : nat -> R) (this : CA.CAModel R)
    (k : nat) :
  (forall n, 0 <= random n < 1) ->
  reachable random this k ->
  wellFormed this
  /\ 0 <= CA.accumulator this < 14 / 10
  /\ (4 * Z.of_nat (length (CA.agents this))
      <= CA.cols this * CA.rows this)%Z
  /\ (exists r, CA.reset random this k = Some r)
  /\ (forall w h, exists r, CA.resize random w h this k = Some r)
  /\ (forall nextParams,
        exists r, CA.configure random nextParams this k = Some r)
  /\ (forall deltaTime,
        exists r, CA.update 32 random deltaTime this k = Some (Some r)).
Proof.
intros Hrandom Hreach.
pose proof (reachable_invariant random this k Hrandom Hreach) as Hinv.
pose proof Hinv as (Hwf & Hacc & Harea & Hnone).
split; [exact Hwf|]. split; [exact Hacc|]. split.
{ destruct (Req_dec_T (CA.width this) 0) as [Hw | Hw];
    [|destruct (Req_dec_T (CA.height this) 0) as [Hh | Hh]].
  - destruct (Hnone (or_introl Hw)) as (-> & -> & -> & _). cbn. lia.
  - destruct (Hnone (or_intror Hh)) as (-> & -> & -> & _). cbn. lia.
  - apply Harea; assumption. }
split.
{ unfold CA.reset.
  destruct (rebuildDomain_invariant random
              (CA.set_accumulator this (nofZ 0)) k Hrandom)
    as (this' & k' & Hrun & _).
  - cbn [CA.accumulator CA.set_accumulator]. rnum. lra.
  - eauto. }
split.
{ intros w h. unfold CA.resize.
  match goal with
  | |- exists r, CA.rebuildDomain _ _ ?m _ = _ =>
      destruct (rebuildDomain_invariant random m k Hrandom)
        as (this' & k' & Hrun & _)
  end; [exact Hacc|eauto]. }
split.
{ intros nextParams. unfold CA.configure. cbv zeta.
  destruct (negb _); [|eauto].
  match goal with
  | |- exists r, CA.rebuildDomain _ _ ?m _ = _ =>
      destruct (rebuildDomain_invariant random m k Hrandom)
        as (this' & k' & Hrun & _)
  end; [exact Hacc|eauto]. }
intros deltaTime. apply update_returns; assumption.
Qed.

Lemma ca_reachable_safe_witness :
  wellFormed (CA.create (T := R) [])
  /\ exists r,
       CA.resize (fun _ : nat => 1 / 2) 96 96 (CA.create []) 0 = Some r.
Proof.
destruct (ca_reachable_safe (fun _ : nat => 1 / 2) (CA.create []) 0)
  as (Hwf & _ & _ & _ & Hresize & _).
- intros _. lra.
- apply reach_create.
- split; [exact Hwf|apply Hresize].
Defined.

(** Parameters other than [cellSize] never reseed: [configure] with
    parameters that do not set [cellSize] changes the parameters of a
    model and nothing else; the agents stay where they are, and no draw is
    made. *)
Theorem ca_configure_keeps_agents (random : nat -> R)
    (nextParams : SimulationParameterValues R) (this : CA.CAModel R)
    (k : nat) :
  (forall n, 0 <= random n < 1) ->
  reachable random this k ->
  getParam nextParams "cellSize" = None ->
  CA.configure random nextParams this k
  = Some (CA.mkCAModel (CA.width this) (CA.height this)
            (nextParams ++ CA.params this) (CA.cellSize this)
            (CA.cols this) (CA.rows this) (CA.originX this)
            (CA.originY this) (CA.agents this) (CA.grid this)
            (CA.accumulator this), k).
Proof.
intros Hrandom Hreach Hnone.
destruct (reachable_invariant random this k Hrandom Hreach)
  as (_ & _ & Harea & Hempty).
unfold CA.configure. cbv zeta. cbn [CA.cellSize].
match goal with
| |- (if negb (CA.resolveCellSize ?m =? _)%Z then _ else _) = _ =>
    set (merged := m)
end.
assert (Hsize : CA.resolveCellSize merged = CA.resolveCellSize this).
{ unfold CA.resolveCellSize, merged. cbn [CA.params].
  rewrite getParam_app, Hnone. reflexivity. }
cbn [CA.cellSize].
destruct (Z.eqb_spec (CA.resolveCellSize merged) (CA.cellSize this))
  as [Hsame | Hdiff]; cbn [negb]; [reflexivity|].
assert (Hzero : CA.width this = 0 \/ CA.height this = 0).
{ destruct (Req_dec_T (CA.width this) 0) as [Hw | Hw]; [auto|].
  destruct (Req_dec_T (CA.height this) 0) as [Hh | Hh]; [auto|].
  destruct (Harea Hw Hh) as (Hs & _). congruence. }
destruct (Hempty Hzero) as (Hcols & Hrows & Hags & Hgrid).
unfold CA.rebuildDomain, merged.
cbn [CA.width CA.height CA.params CA.cellSize CA.originX CA.originY
     CA.accumulator]. rnum.
assert (Htest : RealNum.eqb (CA.width this) 0
                || RealNum.eqb (CA.height this) 0 = true).
{ destruct Hzero as [Hz | Hz]; rewrite (Reqb_true _ 0 Hz);
    [reflexivity|apply orb_true_r]. }
rewrite Htest, Hcols, Hrows, Hags, Hgrid. reflexivity.
Qed.

Lemma ca_configure_keeps_agents_witness :
  CA.configure (fun _ : nat => 1 / 2) [("updateRate"%string, 2)]
    (CA.create []) 0
  = Some (CA.mkCAModel 0 0 [("updateRate"%string, 2)] 24 0 0 0 0 [] [] 0,
          0%nat).
Proof.
assert (Hrandom : forall n : nat, 0 <= (fun _ : nat => 1 / 2) n < 1).
{ intros _. lra. }
exact (ca_configure_keeps_agents (fun _ : nat => 1 / 2)
         [("updateRate"%string, 2)] (CA.create []) 0 Hrandom
         (reach_create _ []) eq_refl).
Defined.
